(** * A streaming decoder of concatenated JSON objects

    Shallow embedding of [parse_json_stream] (src/app.py, lines 9-30) and of
    the two library calls it is built on, [bytes.decode("utf-8")] and
    [json.JSONDecoder(strict=False).raw_decode].

    Representation choices.
    - A Python [bytes] value is a [list byte]; a Python [str] is the list of
      its code points ([list N]).
    - A position [end] inside the string [s] handed to the JSON scanner is
      represented by the remaining input [s[end:]]; [raw_decode] turns the
      remaining input back into the index it returns.
    - A [float] is kept as the literal it was read from ([float(lit)]): equal
      literals give equal floats.
    - A generator run is the list of the events a consumer that exhausts it
      observes: chunks obtained from the source, objects yielded, and the way
      the run ends.
    - [raw_decode] is the decoder without the limits of the interpreter,
      where [JSONDecodeError] is all it raises.  Whether an exception of the
      decoder can leave the generator is settled in [Limited], which has
      the generator over a decoder that meets the recursion limit
      ([RecursionError]) and the digit limit of [int] ([ValueError]);
      memory is outside the model.

    The scanner follows [json.decoder] and [json.scanner] of CPython, with
    the digits and the hexadecimal escapes of the C scanner that the library
    uses by default (ASCII digits, exactly four hexadecimal digits).

    In the examples a JSON text is written with ['] where the text has a
    double quote; [lit] and [blit] put the double quote back. *)

From Stdlib Require Import String Ascii.
From Stdlib.Strings Require Import Byte.
From Stdlib Require Import List NArith ZArith Bool Lia Arith.
Import ListNotations.

Local Open Scope N_scope.
Local Set Warnings "-register-all".

(** ** Characters, strings and bytes *)

Definition str := list N.
Definition bytes := list byte.

Module Ch.
Definition quote : N := 34.      (* the double quote *)
Definition backslash : N := 92.
Definition slash : N := 47.
Definition lbrace : N := 123.
Definition rbrace : N := 125.
Definition lbracket : N := 91.
Definition rbracket : N := 93.
Definition colon : N := 58.
Definition comma : N := 44.
Definition minus : N := 45.
Definition plus : N := 43.
Definition dot : N := 46.
Definition zero : N := 48.
Definition nine : N := 57.
Definition e : N := 101.
Definition E : N := 69.
Definition u : N := 117.
End Ch.

Definition lit (s : string) : str :=
  map (fun a => let n := N_of_ascii a in if n =? 39 then Ch.quote else n)
      (list_ascii_of_string s).

Definition blit (s : string) : bytes :=
  map (fun a => let n := N_of_ascii a in
                byte_of_ascii (if n =? 39 then ascii_of_N Ch.quote else a))
      (list_ascii_of_string s).

Definition str_eqb (a b : str) : bool :=
  if list_eq_dec N.eq_dec a b then true else false.

(** ** Exceptions and results *)

Inductive pyexn :=
| StopIteration
| JSONDecodeError
| UnicodeDecodeError
| RecursionError
| ValueError.

(** Result of a scanner call.  [OutOfFuel] is not a Python outcome: it is
    what a recursion of the model returns when its bound is used up
    ([scan_once_fuel] shows that [raw_decode] never meets it). *)
Inductive res (A : Type) :=
| Ok (a : A)
| Exn (e : pyexn)
| OutOfFuel.
Arguments Ok {A} a.
Arguments Exn {A} e.
Arguments OutOfFuel {A}.

Definition bind {A B} (r : res A) (k : A -> res B) : res B :=
  match r with
  | Ok a => k a
  | Exn e => Exn e
  | OutOfFuel => OutOfFuel
  end.

Notation "x <- r ;; k" := (bind r (fun x => k))
  (at level 61, r at next level, right associativity).
Notation "' p <- r ;; k" := (bind r (fun x => let 'p := x in k))
  (at level 61, p pattern, r at next level, right associativity).

(** [try: ... except StopIteration: raise JSONDecodeError("Expecting value")] *)
Definition expecting_value {A} (r : res A) : res A :=
  match r with
  | Exn StopIteration => Exn JSONDecodeError
  | other => other
  end.

(** ** [bytes.decode("utf-8")]

    The strict decoder: [None] stands for [UnicodeDecodeError].  Accepted
    sequences are the well-formed ones: no overlong form, no surrogate, no
    code point above U+10FFFF, no truncated sequence. *)

Definition is_cont (b : N) : bool := (128 <=? b) && (b <=? 191).

Definition cont_bits (b : N) : N := N.land b 63.

Fixpoint utf8_decode (bs : bytes) : option str :=
  match bs with
  | [] => Some []
  | b0 :: r0 =>
    let n0 := Byte.to_N b0 in
    if n0 <? 128 then option_map (cons n0) (utf8_decode r0)
    else if n0 <? 194 then None
    else if n0 <? 224 then
      match r0 with
      | b1 :: r1 =>
        let n1 := Byte.to_N b1 in
        if is_cont n1
        then option_map (cons (N.shiftl (N.land n0 31) 6 + cont_bits n1))
                        (utf8_decode r1)
        else None
      | _ => None
      end
    else if n0 <? 240 then
      match r0 with
      | b1 :: b2 :: r2 =>
        let n1 := Byte.to_N b1 in
        let n2 := Byte.to_N b2 in
        if is_cont n1 && is_cont n2
           && (if n0 =? 224 then 160 <=? n1 else true)
           && (if n0 =? 237 then n1 <? 160 else true)
        then option_map
               (cons (N.shiftl (N.land n0 15) 12 + N.shiftl (cont_bits n1) 6
                      + cont_bits n2))
               (utf8_decode r2)
        else None
      | _ => None
      end
    else if n0 <? 245 then
      match r0 with
      | b1 :: b2 :: b3 :: r3 =>
        let n1 := Byte.to_N b1 in
        let n2 := Byte.to_N b2 in
        let n3 := Byte.to_N b3 in
        if is_cont n1 && is_cont n2 && is_cont n3
           && (if n0 =? 240 then 144 <=? n1 else true)
           && (if n0 =? 244 then n1 <? 144 else true)
        then option_map
               (cons (N.shiftl (N.land n0 7) 18 + N.shiftl (cont_bits n1) 12
                      + N.shiftl (cont_bits n2) 6 + cont_bits n3))
               (utf8_decode r3)
        else None
      | _ => None
      end
    else None
  end.

(** ** [str.find] and slicing *)

Local Open Scope Z_scope.

(** [s.find(c)] for a one-character needle: the lowest index, or [-1]. *)
Fixpoint find (s : str) (c : N) : Z :=
  match s with
  | [] => -1
  | x :: tl => if N.eqb x c then 0
               else let i := find tl c in if i <? 0 then -1 else i + 1
  end.

(** [s[i:]], with Python's treatment of a negative start. *)
Definition slice_from (s : str) (i : Z) : str :=
  let len := Z.of_nat (length s) in
  let start := if i <? 0 then Z.max 0 (len + i) else i in
  skipn (Z.to_nat start) s.

Local Close Scope Z_scope.

(** ** The JSON scanner ([json.scanner], [json.decoder]) *)

Inductive pyobj :=
| PyNone
| PyBool (b : bool)
| PyInt (z : Z)
| PyFloat (literal : str)
| PyStr (s : str)
| PyList (items : list pyobj)
| PyDict (items : list (str * pyobj)).

Definition is_ws (c : N) : bool :=
  (c =? 32) || (c =? 9) || (c =? 10) || (c =? 13).

Definition is_digit (c : N) : bool := (Ch.zero <=? c) && (c <=? Ch.nine).

(** [WHITESPACE.match(s, end).end()] *)
Fixpoint skip_ws (s : str) : str :=
  match s with
  | c :: tl => if is_ws c then skip_ws tl else s
  | [] => []
  end.

(** *** Strings *)

Definition hex_digit (c : N) : option N :=
  if (48 <=? c) && (c <=? 57) then Some (c - 48)
  else if (97 <=? c) && (c <=? 102) then Some (c - 87)
  else if (65 <=? c) && (c <=? 70) then Some (c - 55)
  else None.

(** [_decode_uXXXX]: exactly four hexadecimal digits. *)
Definition decode_uXXXX (a b c d : N) : option N :=
  match hex_digit a, hex_digit b, hex_digit c, hex_digit d with
  | Some x, Some y, Some z, Some w => Some (((x * 16 + y) * 16 + z) * 16 + w)
  | _, _, _, _ => None
  end.

(** The [BACKSLASH] table. *)
Definition BACKSLASH (esc : N) : option N :=
  if esc =? Ch.quote then Some Ch.quote
  else if esc =? Ch.backslash then Some Ch.backslash
  else if esc =? Ch.slash then Some Ch.slash
  else if esc =? 98 then Some 8        (* b *)
  else if esc =? 102 then Some 12      (* f *)
  else if esc =? 110 then Some 10      (* n *)
  else if esc =? 114 then Some 13      (* r *)
  else if esc =? 116 then Some 9       (* t *)
  else None.

Definition is_high_surrogate (c : N) : bool := (55296 <=? c) && (c <=? 56319).
Definition is_low_surrogate (c : N) : bool := (56320 <=? c) && (c <=? 57343).

(** [scanstring(s, end, strict)]: [s] is the input after the opening quote,
    [acc] the characters decoded so far.  Returns the decoded string and the
    input after the closing quote. *)
Fixpoint scanstring (strict : bool) (s : str) (acc : str) : res (str * str) :=
  match s with
  | [] => Exn JSONDecodeError                      (* unterminated string *)
  | c :: tl =>
    if c =? Ch.quote then Ok (acc, tl)
    else if c =? Ch.backslash then
      match tl with
      | [] => Exn JSONDecodeError                  (* unterminated string *)
      | esc :: tl1 =>
        if esc =? Ch.u then
          match tl1 with
          | h1 :: h2 :: h3 :: h4 :: tl2 =>
            match decode_uXXXX h1 h2 h3 h4 with
            | None => Exn JSONDecodeError          (* invalid \uXXXX escape *)
            | Some uni =>
              match tl2 with
              | b :: v :: tl3 =>
                if is_high_surrogate uni && (b =? Ch.backslash) && (v =? Ch.u)
                then
                  match tl3 with
                  | g1 :: g2 :: g3 :: g4 :: tl4 =>
                    match decode_uXXXX g1 g2 g3 g4 with
                    | None => Exn JSONDecodeError
                    | Some uni2 =>
                      if is_low_surrogate uni2
                      then scanstring strict tl4
                             (acc ++ [65536 + N.lor (N.shiftl (uni - 55296) 10)
                                                    (uni2 - 56320)])
                      else scanstring strict tl2 (acc ++ [uni])
                    end
                  | _ => Exn JSONDecodeError
                  end
                else scanstring strict tl2 (acc ++ [uni])
              | _ => scanstring strict tl2 (acc ++ [uni])
              end
            end
          | _ => Exn JSONDecodeError               (* invalid \uXXXX escape *)
          end
        else
          match BACKSLASH esc with
          | Some ch => scanstring strict tl1 (acc ++ [ch])
          | None => Exn JSONDecodeError            (* invalid \escape *)
          end
      end
    else if c <=? 31 then
      (* a literal control character *)
      if strict then Exn JSONDecodeError
      else scanstring strict tl (acc ++ [c])
    else scanstring strict tl (acc ++ [c])
  end.

(** *** Numbers

    [NUMBER_RE] has three groups: the integer part (an optional minus sign,
    then either a single 0 or a non-zero digit followed by digits), an
    optional fraction (a dot and at least one digit) and an optional exponent
    (e or E, an optional sign, at least one digit).  Digits are the ten ASCII
    digits, as in the C scanner the library uses by default. *)

Fixpoint span_digits (s : str) : str * str :=
  match s with
  | c :: tl =>
    if is_digit c then let (d, r) := span_digits tl in (c :: d, r)
    else ([], s)
  | [] => ([], [])
  end.

(** The integer part without its sign. *)
Definition match_unsigned (s : str) : option (str * str) :=
  match s with
  | c :: tl =>
    if c =? Ch.zero then Some ([c], tl)
    else if is_digit c
         then let (d, r) := span_digits tl in Some (c :: d, r)
         else None
  | [] => None
  end.

Definition match_integer (s : str) : option (str * str) :=
  match s with
  | c :: tl =>
    if c =? Ch.minus
    then match match_unsigned tl with
         | Some (i, r) => Some (c :: i, r)
         | None => None
         end
    else match_unsigned s
  | [] => None
  end.

(** An optional group that does not match is the empty string. *)
Definition match_frac (s : str) : str * str :=
  match s with
  | c :: d :: tl =>
    if (c =? Ch.dot) && is_digit d
    then let (ds, r) := span_digits tl in (c :: d :: ds, r)
    else ([], s)
  | _ => ([], s)
  end.

Definition match_exp (s : str) : str * str :=
  match s with
  | c :: tl =>
    if (c =? Ch.e) || (c =? Ch.E) then
      let (sign, tl1) :=
        match tl with
        | g :: tl0 => if (g =? Ch.minus) || (g =? Ch.plus)
                      then ([g], tl0) else ([], tl)
        | [] => ([], tl)
        end in
      match span_digits tl1 with
      | ([], _) => ([], s)
      | (ds, r) => (c :: sign ++ ds, r)
      end
    else ([], s)
  | [] => ([], s)
  end.

(** [NUMBER_RE.match(string, idx)]: the three groups and the input after the
    match. *)
Definition match_number (s : str) : option (str * str * str * str) :=
  match match_integer s with
  | None => None
  | Some (integer, s1) =>
    let (frac, s2) := match_frac s1 in
    let (exp, s3) := match_exp s2 in
    Some (integer, frac, exp, s3)
  end.

(** [int(integer)] on a match of the first group. *)
Definition int_of_digits (ds : str) : Z :=
  fold_left (fun acc c => (acc * 10 + Z.of_N (c - Ch.zero))%Z) ds 0%Z.

Definition parse_int (integer : str) : Z :=
  match integer with
  | c :: tl => if c =? Ch.minus then (- int_of_digits tl)%Z
               else int_of_digits integer
  | [] => 0%Z
  end.

(** [string[idx:idx + len(w)] == w], with the input after the word. *)
Fixpoint starts_with (w s : str) : option str :=
  match w, s with
  | [], _ => Some s
  | a :: w', b :: s' => if a =? b then starts_with w' s' else None
  | _ :: _, [] => None
  end.

(** *** Objects and arrays *)

(** [dict(pairs)]: a later pair with a key already present replaces the
    value and keeps the key's place. *)
Fixpoint dict_setitem (d : list (str * pyobj)) (k : str) (v : pyobj)
  : list (str * pyobj) :=
  match d with
  | [] => [(k, v)]
  | (k', v') :: d' =>
    if str_eqb k' k then (k', v) :: d' else (k', v') :: dict_setitem d' k v
  end.

Definition dict (pairs : list (str * pyobj)) : list (str * pyobj) :=
  fold_left (fun d kv => dict_setitem d (fst kv) (snd kv)) pairs [].

Section Containers.
Variable strict : bool.
(** The scanner the containers call for their members ([scan_once] is an
    argument of [JSONObject] and [JSONArray] in the library too). *)
Variable scan_once : str -> res (pyobj * str).

(** The [while True] loop of [JSONObject]; [s] is the input after the
    opening quote of the next key. *)
Fixpoint object_members (n : nat) (s : str) (pairs : list (str * pyobj))
  : res (pyobj * str) :=
  match n with
  | O => OutOfFuel
  | S n' =>
    '(key, s) <- scanstring strict s [] ;;
    match skip_ws s with
    | c :: s =>
      if c =? Ch.colon then
        '(value, s) <- expecting_value (scan_once (skip_ws s)) ;;
        let pairs := pairs ++ [(key, value)] in
        match skip_ws s with
        | c :: s =>
          if c =? Ch.rbrace then Ok (PyDict (dict pairs), s)
          else if c =? Ch.comma then
            match skip_ws s with
            | c :: s =>
              if c =? Ch.quote then object_members n' s pairs
              else Exn JSONDecodeError       (* expecting property name *)
            | [] => Exn JSONDecodeError
            end
          else Exn JSONDecodeError           (* expecting ',' delimiter *)
        | [] => Exn JSONDecodeError
        end
      else Exn JSONDecodeError               (* expecting ':' delimiter *)
    | [] => Exn JSONDecodeError
    end
  end.

(** [JSONObject((s, end), strict, scan_once, ...)]; [s] is the input after
    the opening brace. *)
Definition JSONObject (n : nat) (s : str) : res (pyobj * str) :=
  match skip_ws s with
  | c :: s =>
    if c =? Ch.quote then object_members n s []
    else if c =? Ch.rbrace then Ok (PyDict [], s)
    else Exn JSONDecodeError                 (* expecting property name *)
  | [] => Exn JSONDecodeError
  end.

(** The [while True] loop of [JSONArray]; [s] is the input at the next
    item. *)
Fixpoint array_items (n : nat) (s : str) (values : list pyobj)
  : res (pyobj * str) :=
  match n with
  | O => OutOfFuel
  | S n' =>
    '(value, s) <- expecting_value (scan_once s) ;;
    let values := values ++ [value] in
    match skip_ws s with
    | c :: s =>
      if c =? Ch.rbracket then Ok (PyList values, s)
      else if c =? Ch.comma then array_items n' (skip_ws s) values
      else Exn JSONDecodeError               (* expecting ',' delimiter *)
    | [] => Exn JSONDecodeError
    end
  end.

(** [JSONArray((s, end), scan_once)]; [s] is the input after the opening
    bracket. *)
Definition JSONArray (n : nat) (s : str) : res (pyobj * str) :=
  let s := skip_ws s in
  match starts_with [Ch.rbracket] s with
  | Some s' => Ok (PyList [], s')
  | None => array_items n s []
  end.
End Containers.

(** The body of [_scan_once(string, idx)]: [scan_once] is the scanner handed
    to the containers, [n] bounds the number of their members. *)
Definition scan_once_body (strict : bool) (scan_once : str -> res (pyobj * str))
           (n : nat) (s : str) : res (pyobj * str) :=
  match s with
  | [] => Exn StopIteration
  | nextchar :: tl =>
    if nextchar =? Ch.quote then
      '(v, r) <- scanstring strict tl [] ;; Ok (PyStr v, r)
    else if nextchar =? Ch.lbrace then
      JSONObject strict scan_once n tl
    else if nextchar =? Ch.lbracket then
      JSONArray scan_once n tl
    else
      match starts_with (lit "null") s,
            starts_with (lit "true") s,
            starts_with (lit "false") s with
      | Some r, _, _ => Ok (PyNone, r)
      | _, Some r, _ => Ok (PyBool true, r)
      | _, _, Some r => Ok (PyBool false, r)
      | None, None, None =>
        match match_number s with
        | Some (integer, frac, exp, r) =>
          match frac, exp with
          | [], [] => Ok (PyInt (parse_int integer), r)
          | _, _ => Ok (PyFloat (integer ++ frac ++ exp), r)
          end
        | None =>
          match starts_with (lit "NaN") s,
                starts_with (lit "Infinity") s,
                starts_with (lit "-Infinity") s with
          | Some r, _, _ => Ok (PyFloat (lit "NaN"), r)
          | _, Some r, _ => Ok (PyFloat (lit "Infinity"), r)
          | _, _, Some r => Ok (PyFloat (lit "-Infinity"), r)
          | None, None, None => Exn StopIteration
          end
        end
      end
  end.

(** [_scan_once], which calls itself through the containers.  [fuel] bounds
    the nesting depth and the number of members of a container. *)
Fixpoint scan_once (strict : bool) (fuel : nat) (s : str)
  : res (pyobj * str) :=
  match fuel with
  | O => OutOfFuel
  | S f => scan_once_body strict (scan_once strict f) f s
  end.

(** [decoder.raw_decode(s)]: the decoded value and the index where it ends,
    or [JSONDecodeError].  With this fuel the scanner never runs out
    ([scan_once_fuel]) and more fuel would not change its answer
    ([scan_once_enough]), so the last branch stands for the exceptions of
    the scanner only.  This is the decoder without the limits of the
    interpreter; [Limited.raw_decode] has them.  The decoder of the program
    is built with [strict=False]. *)
Definition raw_decode_with (strict : bool) (s : str) : (pyobj * nat) + pyexn :=
  match scan_once strict (S (length s)) s with
  | Ok (obj, rest) => inl (obj, length s - length rest)%nat
  | _ => inr JSONDecodeError
  end.

Definition raw_decode : str -> (pyobj * nat) + pyexn := raw_decode_with false.

(** ** The generator [parse_json_stream] (src/app.py) *)

Inductive event :=
| Read (chunk : bytes)      (* the [for] loop obtained a chunk *)
| Yield (obj : pyobj)       (* [yield obj] *)
| Raise (e : pyexn)         (* an exception leaves the generator *)
| Done.                     (* no chunk is left: the generator returns *)

(** The [while True] loop (lines 23-30): decode at position 0, yield, cut the
    buffer, until [raw_decode] raises [JSONDecodeError], the one exception it
    raises here ([raw_decode_error]); [Limited.while_true] is the loop over
    a decoder that raises others, which the [except] clause does not catch.
    Returns the objects yielded and the buffer the loop leaves.  Every
    successful decode shortens the buffer, so [S (length buffer)] rounds are
    enough ([while_true_enough]). *)
Fixpoint while_true (fuel : nat) (buffer : str) : list pyobj * str :=
  match fuel with
  | O => ([], buffer)
  | S fuel' =>
    match raw_decode buffer with
    | inl (obj, idx) =>
      let (objs, buffer') :=
        while_true fuel' (slice_from buffer (Z.of_nat idx)) in
      (obj :: objs, buffer')
    | inr _ => ([], buffer)
    end
  end.

(** The body of the [for] loop once the chunk is decoded to [text]: the
    append of line 21, the cut of line 22, the loop. *)
Definition on_chunk (buffer text : str) : list pyobj * str :=
  let buffer := buffer ++ text in
  let buffer := slice_from buffer (find buffer Ch.lbrace) in
  while_true (S (length buffer)) buffer.

(** The [for] loop (line 20) from the buffer it has reached;
    [chunk.decode("utf-8")] (line 21) raises on a chunk that is not
    well-formed by itself, and nothing catches it. *)
Fixpoint for_chunks (buffer : str) (chunks : list bytes) : list event :=
  match chunks with
  | [] => [Done]
  | chunk :: rest =>
    Read chunk ::
    match utf8_decode chunk with
    | None => [Raise UnicodeDecodeError]
    | Some text =>
      let (objs, buffer) := on_chunk buffer text in
      map Yield objs ++ for_chunks buffer rest
    end
  end.

(** [parse_json_stream(response)]; [response] is the sequence of chunks
    [response.iter_content] delivers, and the buffer starts empty
    (line 19). *)
Definition parse_json_stream (response : list bytes) : list event :=
  for_chunks [] response.

(** The objects a run yields, in order. *)
Fixpoint yields (t : list event) : list pyobj :=
  match t with
  | Yield o :: t' => o :: yields t'
  | _ :: t' => yields t'
  | [] => []
  end.

(** ** The generator within the limits of the interpreter

    [raw_decode] above is the decoder without the two limits that make the
    library raise something else than [JSONDecodeError]: the recursion
    limit ([RecursionError]) and the digit limit of [int] ([ValueError],
    which is not a [JSONDecodeError]).  The generator catches
    [json.JSONDecodeError] only (line 28), so these exceptions leave it.
    [Limited] has the generator over a decoder that can raise them, and a
    decoder with the two limits. *)

(** [recursion_limit]: how many objects and arrays, one inside the other,
    the scanner can enter when [raw_decode] is called;
    [int_max_str_digits]: [sys.get_int_max_str_digits()], where 0 stands
    for no limit. *)
Record limits := {
  recursion_limit : nat;
  int_max_str_digits : nat
}.

Module Limited.
Section WithDecoder.
(** [decoder.raw_decode], as the interpreter runs it. *)
Variable raw_decode : str -> (pyobj * nat) + pyexn.

(** The [while True] loop (lines 23-30): [except json.JSONDecodeError]
    ends the loop and keeps the buffer; any other exception ends the
    generator. *)
Fixpoint while_true (fuel : nat) (buffer : str)
  : list pyobj * (str + pyexn) :=
  match fuel with
  | O => ([], inl buffer)
  | S fuel' =>
    match raw_decode buffer with
    | inl (obj, idx) =>
      let (objs, out) :=
        while_true fuel' (slice_from buffer (Z.of_nat idx)) in
      (obj :: objs, out)
    | inr JSONDecodeError => ([], inl buffer)
    | inr e => ([], inr e)
    end
  end.

Definition on_chunk (buffer text : str) : list pyobj * (str + pyexn) :=
  let buffer := buffer ++ text in
  let buffer := slice_from buffer (find buffer Ch.lbrace) in
  while_true (S (length buffer)) buffer.

Fixpoint for_chunks (buffer : str) (chunks : list bytes) : list event :=
  match chunks with
  | [] => [Done]
  | chunk :: rest =>
    Read chunk ::
    match utf8_decode chunk with
    | None => [Raise UnicodeDecodeError]
    | Some text =>
      match on_chunk buffer text with
      | (objs, inl buffer) => map Yield objs ++ for_chunks buffer rest
      | (objs, inr e) => map Yield objs ++ [Raise e]
      end
    end
  end.

Definition parse_json_stream (response : list bytes) : list event :=
  for_chunks [] response.

(** The loop run with the bound [on_chunk] gives it. *)
Definition loop (buffer : str) : list pyobj * (str + pyexn) :=
  while_true (S (length buffer)) buffer.
End WithDecoder.

Section WithLimits.
Variable L : limits.

(** The digits [int] counts against its limit: the sign is not one. *)
Definition count_digits (integer : str) : nat :=
  length (filter is_digit integer).

(** The scanner is about to call [int(integer)] on more digits than the
    limit allows.  Only a number matches [NUMBER_RE], so this is the number
    branch of [_scan_once]. *)
Definition int_limit_hit (s : str) : bool :=
  match match_number s with
  | Some (integer, [], [], _) =>
    (0 <? int_max_str_digits L)%nat
    && (int_max_str_digits L <? count_digits integer)%nat
  | _ => false
  end.

(** The scanner is about to enter an object or an array. *)
Definition is_container (s : str) : bool :=
  match s with
  | c :: _ => (c =? Ch.lbrace) || (c =? Ch.lbracket)
  | [] => false
  end.

(** [_scan_once] with the two limits; [depth] is the number of containers
    that can still be entered.  The members of a container are fewer than
    the characters of the input, which bounds the loops of the containers.
    The recursion limit is met here where the scanner itself meets it, on
    entering a container.  The interpreter also spends frames on building
    an exception and on calling [parse_constant], so that within a few
    levels of the limit it raises [RecursionError] where this scanner
    raises [JSONDecodeError] or returns; [within_limits] allows for that,
    and what is proved of the generator is proved for every decoder within
    the limits. *)
Fixpoint scan_once (strict : bool) (depth : nat) (s : str)
  : res (pyobj * str) :=
  if int_limit_hit s then Exn ValueError
  else if is_container s then
    match depth with
    | O => Exn RecursionError
    | S d => scan_once_body strict (scan_once strict d) (S (length s)) s
    end
  else scan_once_body strict (fun _ => Exn RecursionError) (S (length s)) s.

(** [decoder.raw_decode(s)]: [StopIteration] becomes [JSONDecodeError],
    every other exception of the scanner is raised as it is.  The last
    branch is never taken: the outcome is that of [raw_decode] or the
    exception of a limit ([limited_raw_decode_within]). *)
Definition raw_decode (s : str) : (pyobj * nat) + pyexn :=
  match scan_once false (recursion_limit L) s with
  | Ok (obj, rest) => inl (obj, length s - length rest)%nat
  | Exn StopIteration => inr JSONDecodeError
  | Exn e => inr e
  | OutOfFuel => inr JSONDecodeError
  end.
End WithLimits.
End Limited.

(** * Vocabulary of the statements *)

(** [stop P y]: the head of [y], if any, does not satisfy [P]. *)
Definition stop (P : N -> bool) (y : str) : bool :=
  match y with
  | c :: _ => negb (P c)
  | [] => true
  end.

(** [w] is made of the white space the decoder skips. *)
Definition all_ws (w : str) : Prop := Forall (fun c => is_ws c = true) w.

(** The test that decides whether a second escape is looked at. *)
Definition pair_follows (uni : N) (y : str) : bool :=
  match y with
  | b :: v :: _ => is_high_surrogate uni && (b =? Ch.backslash) && (v =? Ch.u)
  | _ => false
  end.

(** The characters that can lengthen a number that has been matched. *)
Definition is_number_char (c : N) : bool :=
  is_digit c || (c =? Ch.dot) || (c =? Ch.e) || (c =? Ch.E).

(** Nothing that starts like [t] can lengthen a number matched before it. *)
Definition number_stop (t : str) : bool := stop is_number_char t.

(** The values the number branch of the scanner builds. *)
Definition is_number (v : pyobj) : bool :=
  match v with
  | PyInt _ | PyFloat _ => true
  | _ => false
  end.

(** After a number the input must not go on like a number; after any other
    value it may go on with anything. *)
Definition value_stop (v : pyobj) (t : str) : bool :=
  if is_number v then number_stop t else true.

(** [s] is the text of one complete object, which decodes to [o]: it starts
    with a brace and the decoder reads it to its last character. *)
Definition object_text (s : str) (o : pyobj) : Prop :=
  (exists tl, s = Ch.lbrace :: tl) /\ raw_decode s = inl (o, length s).

(** [p] is what is left of an object whose end is missing. *)
Definition truncated_object (p : str) : Prop :=
  exists s o e, object_text s o /\ s = p ++ e /\ e <> [].

(** The cut [buffer[buffer.find("{"):]]. *)
Definition trim (buffer : str) : str :=
  slice_from buffer (find buffer Ch.lbrace).

(** The loop run with the fuel [on_chunk] gives it. *)
Definition loop (buffer : str) : list pyobj * str :=
  while_true (S (length buffer)) buffer.

(** The chunks, decoded one by one. *)
Definition decoded (chunks : list bytes) (texts : list str) : Prop :=
  Forall2 (fun c t => utf8_decode c = Some t) chunks texts.

(** Texts of complete objects, each with the object it decodes to. *)
Definition object_texts (docs : list (str * pyobj)) : Prop :=
  Forall (fun d => object_text (fst d) (snd d)) docs.

(** The buffer holds less than the next object. *)
Definition short (docs : list (str * pyobj)) (b : str) : Prop :=
  match docs with
  | [] => True
  | d :: _ => (length b < length (fst d))%nat
  end.

(** One step of the decoder: the character the sequence that starts with
    [b0] encodes and the bytes after it. *)
Definition utf8_first (b0 : byte) (r0 : bytes) : option (N * bytes) :=
  let n0 := Byte.to_N b0 in
  if n0 <? 128 then Some (n0, r0)
  else if n0 <? 194 then None
  else if n0 <? 224 then
    match r0 with
    | b1 :: r1 =>
      let n1 := Byte.to_N b1 in
      if is_cont n1
      then Some (N.shiftl (N.land n0 31) 6 + cont_bits n1, r1)
      else None
    | _ => None
    end
  else if n0 <? 240 then
    match r0 with
    | b1 :: b2 :: r2 =>
      let n1 := Byte.to_N b1 in
      let n2 := Byte.to_N b2 in
      if is_cont n1 && is_cont n2
         && (if n0 =? 224 then 160 <=? n1 else true)
         && (if n0 =? 237 then n1 <? 160 else true)
      then Some (N.shiftl (N.land n0 15) 12 + N.shiftl (cont_bits n1) 6
                 + cont_bits n2, r2)
      else None
    | _ => None
    end
  else if n0 <? 245 then
    match r0 with
    | b1 :: b2 :: b3 :: r3 =>
      let n1 := Byte.to_N b1 in
      let n2 := Byte.to_N b2 in
      let n3 := Byte.to_N b3 in
      if is_cont n1 && is_cont n2 && is_cont n3
         && (if n0 =? 240 then 144 <=? n1 else true)
         && (if n0 =? 244 then n1 <? 144 else true)
      then Some (N.shiftl (N.land n0 7) 18 + N.shiftl (cont_bits n1) 12
                 + N.shiftl (cont_bits n2) 6 + cont_bits n3, r3)
      else None
    | _ => None
    end
  else None.

(** [emitted_in_order T objs]: the objects [objs] are decoded from separate
    pieces of the text [T] that follow one another in [T]; each piece is
    the whole text of its object. *)
Inductive emitted_in_order : str -> list pyobj -> Prop :=
| emitted_none T : emitted_in_order T []
| emitted_next skipped s T o objs :
    raw_decode s = inl (o, length s) ->
    emitted_in_order T objs ->
    emitted_in_order (skipped ++ s ++ T) (o :: objs).

(** The text the generator has received when it stops: the chunks decoded
    one after the other, up to the first that does not decode. *)
Fixpoint logical_stream (chunks : list bytes) : str :=
  match chunks with
  | [] => []
  | c :: rest =>
    match utf8_decode c with
    | Some t => t ++ logical_stream rest
    | None => []
    end
  end.

(** The text of an object with one member, a key and a string, written with
    the characters of [key] and [body] as they are. *)
Definition one_member (key body : str) : str :=
  Ch.lbrace :: Ch.quote :: key
    ++ Ch.quote :: Ch.colon :: Ch.quote :: body ++ [Ch.quote; Ch.rbrace].

(** No quote and no backslash: the characters [scanstring] copies. *)
Definition plain (s : str) : Prop :=
  Forall (fun c => c <> Ch.quote /\ c <> Ch.backslash) s.


(** ** The JSON grammar

    The texts of the values of [json.decoder]: those of RFC 8259, and the
    three constants the decoder adds to them. *)

(** The body of a string, between the quotes.  With [strict = false] a
    control character may stand for itself. *)
Inductive string_body (strict : bool) : str -> Prop :=
| body_end : string_body strict []
| body_char c b :
    c <> Ch.quote -> c <> Ch.backslash ->
    (strict = true -> (c <=? 31) = false) ->
    string_body strict b -> string_body strict (c :: b)
| body_escape e b :
    BACKSLASH e <> None -> string_body strict b ->
    string_body strict (Ch.backslash :: e :: b)
| body_unicode h1 h2 h3 h4 b :
    decode_uXXXX h1 h2 h3 h4 <> None -> string_body strict b ->
    string_body strict (Ch.backslash :: Ch.u :: h1 :: h2 :: h3 :: h4 :: b).

(** The parts of a number: digits, the integer part (no leading zero), the
    fraction and the exponent, the last two optional. *)
Definition digits (ds : str) : Prop := Forall (fun c => is_digit c = true) ds.

Inductive int_text : str -> Prop :=
| int_zero : int_text [Ch.zero]
| int_digits d ds :
    is_digit d = true -> d <> Ch.zero -> digits ds -> int_text (d :: ds).

Inductive frac_text : str -> Prop :=
| frac_none : frac_text []
| frac_some d ds :
    is_digit d = true -> digits ds -> frac_text (Ch.dot :: d :: ds).

Inductive exp_text : str -> Prop :=
| exp_none : exp_text []
| exp_some e sign d ds :
    e = Ch.e \/ e = Ch.E ->
    sign = [] \/ sign = [Ch.plus] \/ sign = [Ch.minus] ->
    is_digit d = true -> digits ds -> exp_text (e :: sign ++ d :: ds).

Inductive number_text : str -> Prop :=
| number_intro sign i f e :
    sign = [] \/ sign = [Ch.minus] ->
    int_text i -> frac_text f -> exp_text e ->
    number_text (sign ++ i ++ f ++ e).

(** The texts of the JSON values; [json_items] is what follows the opening
    bracket and the white space of an array that is not empty,
    [json_members] what follows the opening quote of a key. *)
Inductive json (strict : bool) : str -> Prop :=
| json_string b :
    string_body strict b -> json strict (Ch.quote :: b ++ [Ch.quote])
| json_number n : number_text n -> json strict n
| json_true : json strict (lit "true")
| json_false : json strict (lit "false")
| json_null : json strict (lit "null")
| json_nan : json strict (lit "NaN")
| json_infinity : json strict (lit "Infinity")
| json_neg_infinity : json strict (lit "-Infinity")
| json_array_empty w :
    all_ws w -> json strict (Ch.lbracket :: w ++ [Ch.rbracket])
| json_array_items w items :
    all_ws w -> json_items strict items ->
    json strict (Ch.lbracket :: w ++ items)
| json_object_empty w :
    all_ws w -> json strict (Ch.lbrace :: w ++ [Ch.rbrace])
| json_object_members w members :
    all_ws w -> json_members strict members ->
    json strict (Ch.lbrace :: w ++ Ch.quote :: members)
with json_items (strict : bool) : str -> Prop :=
| items_last v w :
    json strict v -> all_ws w ->
    json_items strict (v ++ w ++ [Ch.rbracket])
| items_more v w1 w2 rest :
    json strict v -> all_ws w1 -> all_ws w2 -> json_items strict rest ->
    json_items strict (v ++ w1 ++ Ch.comma :: w2 ++ rest)
with json_members (strict : bool) : str -> Prop :=
| members_last key w1 w2 v w3 :
    string_body strict key -> all_ws w1 -> all_ws w2 ->
    json strict v -> all_ws w3 ->
    json_members strict
      (key ++ Ch.quote :: w1 ++ Ch.colon :: w2 ++ v ++ w3 ++ [Ch.rbrace])
| members_more key w1 w2 v w3 w4 rest :
    string_body strict key -> all_ws w1 -> all_ws w2 ->
    json strict v -> all_ws w3 -> all_ws w4 ->
    json_members strict rest ->
    json_members strict
      (key ++ Ch.quote :: w1 ++ Ch.colon :: w2 ++ v ++ w3
           ++ Ch.comma :: w4 ++ Ch.quote :: rest).

Scheme json_min := Minimality for json Sort Prop
  with json_items_min := Minimality for json_items Sort Prop
  with json_members_min := Minimality for json_members Sort Prop.
Combined Scheme json_mutual from json_min, json_items_min, json_members_min.

(** The text of a JSON object, with the control characters that the lenient
    decoder lets stand in strings. *)
Definition json_object (s : str) : Prop :=
  json false s /\ exists tl, s = Ch.lbrace :: tl.

(** The first character of a value. *)
Definition value_head (c : N) : bool :=
  (c =? Ch.quote) || (c =? Ch.minus) || is_digit c
  || (c =? Ch.lbracket) || (c =? Ch.lbrace)
  || (c =? 116) || (c =? 102) || (c =? 110) || (c =? 78) || (c =? 73).

(** ** Streams, separators and frames *)


(** Bytes below 128 only. *)
Definition ascii (bs : bytes) : Prop :=
  Forall (fun b => (Byte.to_N b <? 128) = true) bs.

(** The beginning of an object that no continuation completes: a brace
    followed by what is neither white space, nor the quote of a key, nor the
    closing brace. *)
Definition malformed_start (b : str) : Prop :=
  exists c tl, b = Ch.lbrace :: c :: tl /\
               is_ws c = false /\ c <> Ch.quote /\ c <> Ch.rbrace.


(** [raises_or_agrees a b]: the strict outcome [a] is the lenient outcome
    [b], or it is [JSONDecodeError]. *)
Definition raises_or_agrees {A} (a b : res A) : Prop :=
  a = b \/ a = Exn JSONDecodeError.

(** What can stand between two objects without being taken for a value: a
    text without a brace whose first character starts no value. *)
Definition separator (w : str) : Prop :=
  (exists c tl, w = c :: tl /\ value_head c = false) /\
  Forall (fun c => c <> Ch.lbrace) w.

(** Objects, each after its separator. *)
Definition spaced (pending : list (str * str)) : str :=
  concat (map (fun p => fst p ++ snd p) pending).



(** ** The limits *)

(** An exception of one of the two limits. *)
Definition limit_exn (e : pyexn) : Prop :=
  e = RecursionError \/ e = ValueError.

(** [cut_short a b]: the outcome [a] within the limits is the outcome [b]
    without them, or it is the exception of a limit. *)
Definition cut_short {A} (a b : res A) : Prop :=
  a = b \/ exists e, limit_exn e /\ a = Exn e.

(** A decoder within the limits: on every text it returns what [raw_decode]
    returns, or it raises the exception of a limit. *)
Definition within_limits (decode : str -> (pyobj * nat) + pyexn) : Prop :=
  forall s, decode s = raw_decode s \/ exists e, limit_exn e /\ decode s = inr e.

(** The exceptions of the scanner without limits. *)
Definition scanner_exn (e : pyexn) : Prop :=
  e = StopIteration \/ e = JSONDecodeError.

Definition raises_only {A} (allowed : pyexn -> Prop) (r : res A) : Prop :=
  forall e, r = Exn e -> allowed e.

(** An object whose member holds [k] opening brackets, one inside the
    other, and no end. *)
Definition nested (k : nat) : str := lit "{'a':" ++ repeat Ch.lbracket k.
Definition nested_bytes (k : nat) : bytes :=
  blit "{'a':" ++ repeat "["%byte k.

(** An object whose member is an integer of [k] digits. *)
Definition long_int (k : nat) : str :=
  lit "{'a':" ++ repeat 49 k ++ [Ch.rbrace].
Definition long_int_bytes (k : nat) : bytes :=
  blit "{'a':" ++ repeat "1"%byte k ++ blit "}".

(** The defaults of CPython 3.11: [sys.getrecursionlimit()], of which the
    frames in use leave less, and [sys.get_int_max_str_digits()]. *)
Definition default_limits : limits :=
  {| recursion_limit := 1000; int_max_str_digits := 4300 |}.

(** * Proof tools *)

#[local] Arguments N.eqb : simpl nomatch.
#[local] Arguments N.leb : simpl nomatch.
#[local] Arguments N.ltb : simpl nomatch.
#[local] Arguments N.add : simpl never.
#[local] Arguments N.sub : simpl never.
#[local] Arguments N.mul : simpl never.
#[local] Arguments N.lor : simpl never.
#[local] Arguments N.land : simpl never.
#[local] Arguments N.shiftl : simpl never.
#[local] Arguments Byte.to_N : simpl never.

Ltac inv H := inversion H; subst; clear H.

Ltac len :=
  repeat progress (rewrite ?length_app in *; cbn [length app] in * ); lia.

Ltac norm_app :=
  repeat progress (rewrite <- ?app_assoc in *; cbn [app] in * ).

Ltac literal_case w :=
  exists w; split; [reflexivity|]; split;
  [let Hc := fresh in intro Hc; vm_compute in Hc; discriminate
  | intros t _; reflexivity].

(** * Properties of the scanner *)

Lemma list_length_ind (A : Type) (P : list A -> Prop) :
  (forall x, (forall y, (length y < length x)%nat -> P y) -> P x) ->
  forall x, P x.
Proof.
  intros step x.
  remember (length x) as n eqn:Hn.
  revert x Hn.
  induction n as [n IH] using lt_wf_ind.
  intros x ->. apply step. intros y Hy. exact (IH _ Hy y eq_refl).
Qed.

(** ** White space *)

Lemma skip_ws_split (x : str) :
  exists w, x = w ++ skip_ws x /\ all_ws w.
Proof.
  induction x as [|c x (w & Hx & Hw)]; simpl.
  - exists []. split; [reflexivity | constructor].
  - destruct (is_ws c) eqn:Ec.
    + exists (c :: w). split; [simpl; congruence | constructor; assumption].
    + exists []. split; [reflexivity | constructor].
Qed.

Lemma skip_ws_stop (x : str) : stop is_ws (skip_ws x) = true.
Proof.
  induction x as [|c x IH]; simpl; [reflexivity|].
  destruct (is_ws c) eqn:Ec; [assumption | simpl; now rewrite Ec].
Qed.

Lemma skip_ws_app (w y : str) :
  all_ws w -> stop is_ws y = true -> skip_ws (w ++ y) = y.
Proof.
  induction 1 as [|c w Hc _ IH]; simpl; intros Hy.
  - destruct y as [|d y]; simpl in *; [reflexivity|].
    now destruct (is_ws d).
  - rewrite Hc. auto.
Qed.

Lemma skip_ws_length (x : str) : (length (skip_ws x) <= length x)%nat.
Proof.
  induction x as [|c x IH]; simpl; [lia|].
  destruct (is_ws c); simpl; lia.
Qed.

(** ** Fixed words *)

Lemma starts_with_split (w s r : str) :
  starts_with w s = Some r -> s = w ++ r.
Proof.
  revert s; induction w as [|a w IH]; intros [|b s]; simpl; try congruence.
  destruct (N.eqb_spec a b); [|discriminate].
  intros H. apply IH in H. congruence.
Qed.

(** ** Strings *)

Lemma scanstring_quote strict c tl acc :
  (c =? Ch.quote) = true -> scanstring strict (c :: tl) acc = Ok (acc, tl).
Proof. intros E. simpl. now rewrite E. Qed.

Lemma scanstring_plain strict c tl acc :
  (c =? Ch.quote) = false -> (c =? Ch.backslash) = false ->
  scanstring strict (c :: tl) acc =
  if (c <=? 31) && strict then Exn JSONDecodeError
  else scanstring strict tl (acc ++ [c]).
Proof.
  intros E1 E2. simpl. rewrite E1, E2.
  destruct (c <=? 31), strict; reflexivity.
Qed.

Lemma scanstring_escape strict c esc tl acc :
  (c =? Ch.quote) = false -> (c =? Ch.backslash) = true ->
  (esc =? Ch.u) = false ->
  scanstring strict (c :: esc :: tl) acc =
  match BACKSLASH esc with
  | Some ch => scanstring strict tl (acc ++ [ch])
  | None => Exn JSONDecodeError
  end.
Proof. intros E1 E2 E3. simpl. now rewrite E1, E2, E3. Qed.

Lemma scanstring_u strict c esc h1 h2 h3 h4 uni y acc :
  (c =? Ch.quote) = false -> (c =? Ch.backslash) = true ->
  (esc =? Ch.u) = true ->
  decode_uXXXX h1 h2 h3 h4 = Some uni ->
  scanstring strict (c :: esc :: h1 :: h2 :: h3 :: h4 :: y) acc =
  if pair_follows uni y then
    match y with
    | _ :: _ :: g1 :: g2 :: g3 :: g4 :: y4 =>
      match decode_uXXXX g1 g2 g3 g4 with
      | None => Exn JSONDecodeError
      | Some uni2 =>
        if is_low_surrogate uni2
        then scanstring strict y4
               (acc ++ [65536 + N.lor (N.shiftl (uni - 55296) 10)
                                      (uni2 - 56320)])
        else scanstring strict y (acc ++ [uni])
      end
    | _ => Exn JSONDecodeError
    end
  else scanstring strict y (acc ++ [uni]).
Proof.
  intros E1 E2 E3 E4. simpl. rewrite E1, E2, E3, E4.
  destruct y as [|b [|v y]]; reflexivity.
Qed.

Lemma scanstring_short strict c esc tl acc :
  (c =? Ch.quote) = false -> (c =? Ch.backslash) = true ->
  (esc =? Ch.u) = true -> (length tl < 4)%nat ->
  scanstring strict (c :: esc :: tl) acc = Exn JSONDecodeError.
Proof.
  intros E1 E2 E3 Hl. simpl. rewrite E1, E2, E3.
  destruct tl as [|h1 [|h2 [|h3 [|h4 y]]]]; try reflexivity.
  simpl in Hl. lia.
Qed.

(** A string body that is scanned to its end closes with a quote. *)
Lemma scanstring_whole_single strict b acc v :
  scanstring strict [b] acc = Ok (v, []) -> (b =? Ch.backslash) = false.
Proof.
  destruct (b =? Ch.quote) eqn:E1.
  - intros _. apply N.eqb_eq in E1. now subst b.
  - destruct (b =? Ch.backslash) eqn:E2; [|reflexivity].
    simpl. rewrite E1, E2. discriminate.
Qed.

Lemma pair_follows_app uni strict m r t acc v :
  scanstring strict m acc = Ok (v, []) ->
  pair_follows uni (m ++ t) = pair_follows uni (m ++ r).
Proof.
  intros H. destruct m as [|b [|v0 m]]; [discriminate| |reflexivity].
  apply scanstring_whole_single in H.
  simpl. destruct t, r; simpl; rewrite ?H, ?andb_false_r; reflexivity.
Qed.

(** What [scanstring] consumed does not depend on what follows the closing
    quote. *)
Lemma scanstring_local (strict : bool) (x : str) :
  forall acc v r,
    scanstring strict x acc = Ok (v, r) ->
    exists m, x = m ++ r /\ m <> [] /\
              forall t, scanstring strict (m ++ t) acc = Ok (v, t).
Proof.
  induction x as [x IH] using list_length_ind.
  intros acc v r H.
  destruct x as [|c tl]; [discriminate|].
  destruct (c =? Ch.quote) eqn:E1.
  { rewrite scanstring_quote in H by assumption. inv H.
    exists [c]. repeat split; [discriminate|].
    intros t. now apply scanstring_quote. }
  destruct (c =? Ch.backslash) eqn:E2.
  - destruct tl as [|esc tl1];
      [simpl in H; rewrite E1, E2 in H; discriminate|].
    destruct (esc =? Ch.u) eqn:E3.
    + destruct (Nat.ltb_spec (length tl1) 4) as [Hl|Hl].
      { rewrite scanstring_short in H by assumption. discriminate. }
      destruct tl1 as [|h1 [|h2 [|h3 [|h4 y]]]]; try (simpl in Hl; lia).
      clear Hl.
      destruct (decode_uXXXX h1 h2 h3 h4) as [uni|] eqn:E4;
        [|simpl in H; rewrite E1, E2, E3, E4 in H; discriminate].
      rewrite (scanstring_u _ _ _ _ _ _ _ _ _ _ E1 E2 E3 E4) in H.
      destruct (pair_follows uni y) eqn:Ep.
      * destruct y as [|b [|v0 [|g1 [|g2 [|g3 [|g4 y4]]]]]];
          try discriminate.
        destruct (decode_uXXXX g1 g2 g3 g4) as [uni2|] eqn:Eg;
          [|discriminate].
        destruct (is_low_surrogate uni2) eqn:El.
        -- apply IH in H; [|simpl; lia].
           destruct H as (m & Hm & _ & Ht).
           exists (c :: esc :: h1 :: h2 :: h3 :: h4 ::
                   b :: v0 :: g1 :: g2 :: g3 :: g4 :: m).
           repeat split; [simpl; congruence | discriminate |].
           intros t. simpl app.
           rewrite (scanstring_u _ _ _ _ _ _ _ _ _ _ E1 E2 E3 E4).
           change (pair_follows uni
                     (b :: v0 :: g1 :: g2 :: g3 :: g4 :: m ++ t))
             with (pair_follows uni (b :: v0 :: g1 :: g2 :: g3 :: g4 :: y4)).
           rewrite Ep, Eg, El. apply Ht.
        -- apply IH in H; [|simpl; lia].
           destruct H as (m & Hm & _ & Ht).
           assert (Hb : b = Ch.backslash /\ v0 = Ch.u).
           { simpl in Ep. apply andb_prop in Ep. destruct Ep as [Ep Ev].
             apply andb_prop in Ep. destruct Ep as [_ Eb].
             now apply N.eqb_eq in Ev, Eb. }
           destruct Hb as [-> ->].
           assert (exists m6, m = Ch.backslash :: Ch.u ::
                                    g1 :: g2 :: g3 :: g4 :: m6) as (m6 & ->).
           { pose proof (Ht []) as Ht0. rewrite app_nil_r in Ht0.
             destruct m as [|x0 [|x1 m2]]; [discriminate| |].
             - apply scanstring_whole_single in Ht0. inv Hm. discriminate.
             - inv Hm.
               destruct (Nat.ltb_spec (length m2) 4) as [Hl|Hl].
               { rewrite scanstring_short in Ht0 by (assumption || reflexivity).
                 discriminate. }
               destruct m2 as [|y1 [|y2 [|y3 [|y4' m6]]]];
                 try (simpl in Hl; lia).
               inv H2. now exists m6. }
           exists (c :: esc :: h1 :: h2 :: h3 :: h4 ::
                   Ch.backslash :: Ch.u :: g1 :: g2 :: g3 :: g4 :: m6).
           repeat split; [simpl in *; congruence | discriminate |].
           intros t. simpl app.
           rewrite (scanstring_u _ _ _ _ _ _ _ _ _ _ E1 E2 E3 E4).
           change (pair_follows uni
                     (Ch.backslash :: Ch.u :: g1 :: g2 :: g3 :: g4 :: m6 ++ t))
             with (pair_follows uni
                     (Ch.backslash :: Ch.u :: g1 :: g2 :: g3 :: g4 :: y4)).
           rewrite Ep, Eg, El. apply Ht.
      * apply IH in H; [|simpl; lia].
        destruct H as (m & Hm & _ & Ht).
        exists (c :: esc :: h1 :: h2 :: h3 :: h4 :: m).
        repeat split; [simpl; congruence | discriminate |].
        intros t. simpl app.
        rewrite (scanstring_u _ _ _ _ _ _ _ _ _ _ E1 E2 E3 E4).
        rewrite (pair_follows_app uni strict m r t (acc ++ [uni]) v).
        -- rewrite <- Hm, Ep. apply Ht.
        -- specialize (Ht []). now rewrite app_nil_r in Ht.
    + rewrite scanstring_escape in H by assumption.
      destruct (BACKSLASH esc) as [ch|] eqn:Ebs; [|discriminate].
      apply IH in H; [|simpl; lia].
      destruct H as (m & Hm & _ & Ht).
      exists (c :: esc :: m).
      repeat split; [simpl; congruence | discriminate |].
      intros t. simpl app. rewrite scanstring_escape by assumption.
      rewrite Ebs. apply Ht.
  - rewrite scanstring_plain in H by assumption.
    destruct ((c <=? 31) && strict) eqn:Ec; [discriminate|].
    apply IH in H; [|simpl; lia].
    destruct H as (m & Hm & _ & Ht).
    exists (c :: m).
    repeat split; [simpl; congruence | discriminate |].
    intros t. simpl app. rewrite scanstring_plain by assumption.
    rewrite Ec. apply Ht.
Qed.

(** ** Numbers *)

Lemma span_digits_split s d r :
  span_digits s = (d, r) ->
  s = d ++ r /\ Forall (fun c => is_digit c = true) d /\ stop is_digit r = true.
Proof.
  revert d r. induction s as [|c s IH]; simpl; intros d r H.
  - inv H. repeat split. constructor.
  - destruct (is_digit c) eqn:Ec.
    + destruct (span_digits s) as [d' r'] eqn:Es. inv H.
      destruct (IH _ _ eq_refl) as (-> & Hd & Hr).
      repeat split; [constructor; assumption | assumption].
    + inv H. repeat split; [constructor | simpl; now rewrite Ec].
Qed.

Lemma span_digits_app d y :
  Forall (fun c => is_digit c = true) d -> stop is_digit y = true ->
  span_digits (d ++ y) = (d, y).
Proof.
  induction 1 as [|c d Hc _ IH]; simpl; intros Hy.
  - destruct y as [|c y]; [reflexivity|]. simpl in *.
    now destruct (is_digit c).
  - now rewrite Hc, IH.
Qed.

Lemma match_unsigned_local x i r :
  match_unsigned x = Some (i, r) ->
  x = i ++ r /\ i <> [] /\ stop (fun c => c =? Ch.minus) i = true /\
  forall y, stop is_digit y = true -> match_unsigned (i ++ y) = Some (i, y).
Proof.
  unfold match_unsigned. destruct x as [|c tl]; [discriminate|].
  destruct (c =? Ch.zero) eqn:Ez.
  - intros H. inv H. repeat split; [discriminate| |].
    + apply N.eqb_eq in Ez. now subst c.
    + intros y _. simpl. now rewrite Ez.
  - destruct (is_digit c) eqn:Ed; [|discriminate].
    destruct (span_digits tl) as [d r'] eqn:Es. intros H. inv H.
    apply span_digits_split in Es. destruct Es as (-> & Hd & _).
    repeat split; [discriminate| |].
    + simpl. destruct (N.eqb_spec c Ch.minus); [subst c; discriminate|].
      reflexivity.
    + intros y Hy. simpl. rewrite Ez, Ed.
      now rewrite span_digits_app.
Qed.

Lemma match_integer_local x i r :
  match_integer x = Some (i, r) ->
  x = i ++ r /\ i <> [] /\
  forall y, stop is_digit y = true -> match_integer (i ++ y) = Some (i, y).
Proof.
  unfold match_integer. destruct x as [|c tl]; [discriminate|].
  destruct (c =? Ch.minus) eqn:Em.
  - destruct (match_unsigned tl) as [[i' r']|] eqn:Eu; [|discriminate].
    intros H. inv H.
    apply match_unsigned_local in Eu. destruct Eu as (-> & _ & _ & Hy).
    repeat split; [discriminate|].
    intros y Hs. simpl. now rewrite Em, Hy.
  - intros H. apply match_unsigned_local in H.
    destruct H as (Hx & Hne & Hm & Hy).
    repeat split; [assumption..|].
    intros y Hs. specialize (Hy y Hs).
    destruct i as [|c' i]; [congruence|].
    simpl in Hx. inv Hx. simpl in *. now rewrite Em.
Qed.

Lemma match_frac_local x f r :
  match_frac x = (f, r) ->
  x = f ++ r /\ stop (fun c => negb (c =? Ch.dot)) f = true /\
  forall y, stop (fun c => is_digit c || (c =? Ch.dot)) y = true ->
            match_frac (f ++ y) = (f, y).
Proof.
  unfold match_frac. intros H.
  assert (Hnone : forall y, stop (fun c => is_digit c || (c =? Ch.dot)) y = true ->
                            match_frac y = ([], y)).
  { intros [|c [|d y]] Hy; try reflexivity. unfold match_frac.
    simpl in Hy. destruct (c =? Ch.dot); [|reflexivity].
    now rewrite orb_true_r in Hy. }
  destruct x as [|c [|d tl]]; try (inv H; repeat split; exact Hnone).
  destruct ((c =? Ch.dot) && is_digit d) eqn:E.
  - destruct (span_digits tl) as [ds r'] eqn:Es. inv H.
    apply span_digits_split in Es. destruct Es as (-> & Hd & _).
    apply andb_prop in E. destruct E as [Ec Ed].
    repeat split; [unfold stop; now rewrite Ec|].
    intros y Hy. simpl. rewrite Ec, Ed. simpl.
    rewrite span_digits_app; [reflexivity | assumption |].
    destruct y as [|c' y]; [reflexivity|]. simpl in *.
    now destruct (is_digit c').
  - inv H. repeat split; exact Hnone.
Qed.

Lemma match_exp_local x ex r :
  match_exp x = (ex, r) ->
  x = ex ++ r /\
  stop (fun c => negb ((c =? Ch.e) || (c =? Ch.E))) ex = true /\
  forall y, stop (fun c => is_digit c || (c =? Ch.e) || (c =? Ch.E)) y = true ->
            match_exp (ex ++ y) = (ex, y).
Proof.
  intros H.
  assert (Hnone : forall y,
    stop (fun c => is_digit c || (c =? Ch.e) || (c =? Ch.E)) y = true ->
    match_exp y = ([], y)).
  { intros [|c y] Hy; [reflexivity|]. unfold match_exp. simpl in Hy.
    destruct ((c =? Ch.e) || (c =? Ch.E)) eqn:Ec; [|reflexivity].
    rewrite <- orb_assoc, Ec, orb_true_r in Hy. discriminate. }
  unfold match_exp in H.
  destruct x as [|c tl]; [inv H; repeat split; exact Hnone|].
  destruct ((c =? Ch.e) || (c =? Ch.E)) eqn:Ec;
    [|inv H; repeat split; exact Hnone].
  assert (Hdig : forall y, stop (fun c => is_digit c || (c =? Ch.e) || (c =? Ch.E)) y = true ->
                           stop is_digit y = true).
  { intros [|c' y]; [reflexivity|]. simpl. now destruct (is_digit c'). }
  assert (Hsign : forall g, (g =? Ch.minus) || (g =? Ch.plus) = true ->
                            is_digit g = false).
  { intros g Hg. apply orb_prop in Hg.
    destruct Hg as [Hg|Hg]; apply N.eqb_eq in Hg; now subst g. }
  destruct tl as [|g tl0].
  - simpl in H. inv H. repeat split; exact Hnone.
  - destruct ((g =? Ch.minus) || (g =? Ch.plus)) eqn:Eg.
    + destruct (span_digits tl0) as [[|d0 ds] r'] eqn:Es;
        [inv H; repeat split; exact Hnone|].
      inv H. apply span_digits_split in Es. destruct Es as (-> & Hd & _).
      repeat split; [unfold stop; now rewrite Ec|].
      intros y Hy. unfold match_exp. cbn [app]. rewrite Ec, Eg.
      change (d0 :: ds ++ y) with ((d0 :: ds) ++ y).
      rewrite span_digits_app by auto. reflexivity.
    + destruct (span_digits (g :: tl0)) as [[|d0 ds] r'] eqn:Es;
        [inv H; repeat split; exact Hnone|].
      inv H. apply span_digits_split in Es. destruct Es as (Hg & Hd & _).
      simpl in Hg. inv Hg.
      repeat split; [unfold stop; now rewrite Ec|].
      intros y Hy. unfold match_exp. cbn [app]. rewrite Ec, Eg.
      change (d0 :: ds ++ y) with ((d0 :: ds) ++ y).
      rewrite span_digits_app by auto. reflexivity.
Qed.

Lemma match_number_local x i f ex r :
  match_number x = Some (i, f, ex, r) ->
  x = (i ++ f ++ ex) ++ r /\ i <> [] /\
  forall t, number_stop t = true ->
            match_number ((i ++ f ++ ex) ++ t) = Some (i, f, ex, t).
Proof.
  unfold match_number. intros H.
  destruct (match_integer x) as [[i' s1]|] eqn:Ei; [|discriminate].
  destruct (match_frac s1) as [f' s2] eqn:Ef.
  destruct (match_exp s2) as [e' s3] eqn:Ee.
  inv H.
  apply match_integer_local in Ei. destruct Ei as (-> & Hne & Hi).
  apply match_frac_local in Ef. destruct Ef as (-> & Hfs & Hf).
  apply match_exp_local in Ee. destruct Ee as (-> & Hes & He).
  repeat split; [now rewrite <- !app_assoc | assumption |].
  intros t Ht.
  assert (Ht3 : stop (fun c => is_digit c || (c =? Ch.e) || (c =? Ch.E)) t = true).
  { destruct t as [|c t]; [reflexivity|].
    unfold number_stop, is_number_char in Ht. simpl in *.
    destruct (is_digit c), (c =? Ch.e), (c =? Ch.E), (c =? Ch.dot);
      simpl in *; congruence. }
  assert (Ht2 : stop (fun c => is_digit c || (c =? Ch.dot)) (ex ++ t) = true).
  { destruct ex as [|c ex'].
    - destruct t as [|c t]; [reflexivity|].
      unfold number_stop, is_number_char in Ht. simpl in *.
      destruct (is_digit c), (c =? Ch.e), (c =? Ch.E), (c =? Ch.dot);
        simpl in *; congruence.
    - simpl in *. rewrite negb_involutive in Hes.
      apply orb_prop in Hes.
      destruct Hes as [Hc|Hc]; apply N.eqb_eq in Hc; now subst c. }
  assert (Ht1 : stop is_digit (f ++ ex ++ t) = true).
  { destruct f as [|c f'].
    - simpl. destruct (ex ++ t) as [|c y]; [reflexivity|]. simpl in *.
      now destruct (is_digit c).
    - simpl in *. rewrite negb_involutive in Hfs.
      apply N.eqb_eq in Hfs. now subst c. }
  rewrite <- !app_assoc.
  rewrite (Hi _ Ht1), (Hf _ Ht2), (He _ Ht3). reflexivity.
Qed.

(** ** Objects and arrays *)

Lemma number_value_stop v t : number_stop t = true -> value_stop v t = true.
Proof. unfold value_stop. now destruct (is_number v). Qed.

Lemma is_ws_cases c :
  is_ws c = true -> c = 32 \/ c = 9 \/ c = 10 \/ c = 13.
Proof.
  unfold is_ws. intros H.
  repeat (apply orb_prop in H; destruct H as [H|H]);
    apply N.eqb_eq in H; auto.
Qed.

Lemma ws_not_number_char c : is_ws c = true -> is_number_char c = false.
Proof.
  intros H. apply is_ws_cases in H.
  destruct H as [->|[->|[->| ->]]]; reflexivity.
Qed.

(** White space and then a character that no number contains: a number
    before them is over. *)
Lemma number_stop_delim w c z :
  all_ws w -> is_number_char c = false -> number_stop (w ++ c :: z) = true.
Proof.
  intros Hw Hc. destruct Hw as [|d w Hd _]; unfold number_stop; simpl.
  - now rewrite Hc.
  - now rewrite (ws_not_number_char _ Hd).
Qed.

Lemma skip_ws_delim x c r :
  skip_ws x = c :: r ->
  exists w, x = w ++ c :: r /\ all_ws w /\
            forall t, skip_ws (w ++ c :: t) = c :: t.
Proof.
  intros H. destruct (skip_ws_split x) as (w & Hx & Hw).
  pose proof (skip_ws_stop x) as Hs. rewrite H in Hx, Hs.
  exists w. repeat split; [assumption..|].
  intros t. now apply skip_ws_app.
Qed.

Lemma expecting_value_inv {A} (r : res A) a :
  expecting_value r = Ok a -> r = Ok a.
Proof. destruct r as [a'|[]|]; simpl; congruence. Qed.

Lemma expecting_value_intro {A} (r : res A) a :
  r = Ok a -> expecting_value r = Ok a.
Proof. now intros ->. Qed.

Lemma match_number_head c tl i fr ex r :
  match_number (c :: tl) = Some (i, fr, ex, r) ->
  (c =? Ch.minus) || is_digit c = true.
Proof.
  unfold match_number, match_integer, match_unsigned. intros H.
  destruct (c =? Ch.minus); [reflexivity|].
  destruct (c =? Ch.zero) eqn:Ez.
  - apply N.eqb_eq in Ez. now subst c.
  - destruct (is_digit c); [reflexivity | discriminate].
Qed.

Section ContainerLocality.
Variable strict : bool.
Variable scan : str -> res (pyobj * str).

Hypothesis scan_local : forall x v r,
  scan x = Ok (v, r) ->
  exists m, x = m ++ r /\ m <> [] /\ stop is_ws m = true /\
            forall t, value_stop v t = true -> scan (m ++ t) = Ok (v, t).

Lemma value_after_ws x v r :
  expecting_value (scan (skip_ws x)) = Ok (v, r) ->
  exists m, x = m ++ r /\ m <> [] /\
            forall t, number_stop t = true ->
                      expecting_value (scan (skip_ws (m ++ t))) = Ok (v, t).
Proof.
  intros H. apply expecting_value_inv in H.
  destruct (skip_ws_split x) as (w & Hx & Hw).
  apply scan_local in H. destruct H as (m & Hm & Hne & Hs & Ht).
  exists (w ++ m). repeat split.
  - rewrite <- app_assoc. congruence.
  - destruct w, m; try discriminate; congruence.
  - intros t Hstop. rewrite <- app_assoc, skip_ws_app; try assumption.
    + apply expecting_value_intro, Ht. now apply number_value_stop.
    + destruct m; [congruence | exact Hs].
Qed.

Lemma object_members_local n :
  forall x pairs v r,
    object_members strict scan n x pairs = Ok (v, r) ->
    exists m, x = m ++ r /\
              forall t, object_members strict scan n (m ++ t) pairs
                        = Ok (v, t).
Proof.
  induction n as [|n IH]; intros x pairs v r H; [discriminate|].
  simpl in H.
  destruct (scanstring strict x []) as [[key s1]| |] eqn:Ekey;
    try discriminate.
  apply scanstring_local in Ekey. destruct Ekey as (m1 & -> & _ & Hkey).
  simpl in H.
  destruct (skip_ws s1) as [|c1 s2] eqn:Ew1; [discriminate|].
  destruct (c1 =? Ch.colon) eqn:Ec1; [|discriminate].
  apply skip_ws_delim in Ew1. destruct Ew1 as (w1 & -> & _ & Hw1).
  destruct (expecting_value (scan (skip_ws s2))) as [[value s3]| |] eqn:Eval;
    try discriminate.
  apply value_after_ws in Eval. destruct Eval as (m2 & -> & _ & Hval).
  simpl in H.
  destruct (skip_ws s3) as [|c2 s4] eqn:Ew2; [discriminate|].
  apply skip_ws_delim in Ew2. destruct Ew2 as (w2 & -> & Hall2 & Hw2).
  assert (Hstep : forall y k,
    (c2 =? Ch.rbrace) || (c2 =? Ch.comma) = true ->
    (forall pairs',
       (if c2 =? Ch.rbrace then Ok (PyDict (dict pairs'), y)
        else if c2 =? Ch.comma then
          match skip_ws y with
          | c :: s => if c =? Ch.quote
                      then object_members strict scan n s pairs'
                      else Exn JSONDecodeError
          | [] => Exn JSONDecodeError
          end
        else Exn JSONDecodeError) = k pairs') ->
    object_members strict scan (S n)
      (m1 ++ w1 ++ c1 :: m2 ++ w2 ++ c2 :: y) pairs
    = k (pairs ++ [(key, value)])).
  { intros y k Hc2 Hk. simpl. rewrite Hkey. simpl. rewrite Hw1, Ec1.
    rewrite Hval.
    - simpl. rewrite Hw2. apply Hk.
    - apply number_stop_delim; [assumption|].
      apply orb_prop in Hc2.
      destruct Hc2 as [Hc|Hc]; apply N.eqb_eq in Hc; now subst c2. }
  destruct (c2 =? Ch.rbrace) eqn:Ec2.
  - inv H. exists (m1 ++ w1 ++ c1 :: m2 ++ w2 ++ [c2]). split.
    + repeat (rewrite <- app_assoc; cbn [app]). reflexivity.
    + intros t. repeat (rewrite <- app_assoc; cbn [app]).
      rewrite (Hstep t (fun p => Ok (PyDict (dict p), t)));
        [reflexivity | reflexivity | intros; reflexivity].
  - destruct (c2 =? Ch.comma) eqn:Ec3; [|discriminate].
    destruct (skip_ws s4) as [|c3 s5] eqn:Ew3; [discriminate|].
    destruct (c3 =? Ch.quote) eqn:Ec4; [|discriminate].
    apply skip_ws_delim in Ew3. destruct Ew3 as (w3 & -> & _ & Hw3).
    apply IH in H. destruct H as (m3 & -> & Hrec).
    exists (m1 ++ w1 ++ c1 :: m2 ++ w2 ++ c2 :: w3 ++ c3 :: m3). split.
    + repeat (rewrite <- app_assoc; cbn [app]). reflexivity.
    + intros t. repeat (rewrite <- app_assoc; cbn [app]).
      rewrite (Hstep (w3 ++ c3 :: m3 ++ t)
                 (fun p => object_members strict scan n (m3 ++ t) p)).
      * apply Hrec.
      * reflexivity.
      * intros p. now rewrite Hw3, Ec4.
Qed.

Lemma JSONObject_local n x v r :
  JSONObject strict scan n x = Ok (v, r) ->
  exists m, x = m ++ r /\ m <> [] /\
            forall t, JSONObject strict scan n (m ++ t) = Ok (v, t).
Proof.
  unfold JSONObject. intros H.
  destruct (skip_ws x) as [|c s] eqn:Ew; [discriminate|].
  apply skip_ws_delim in Ew. destruct Ew as (w & -> & _ & Hw).
  destruct (c =? Ch.quote) eqn:Ec.
  - apply object_members_local in H. destruct H as (m & -> & Hm).
    exists (w ++ c :: m). repeat split.
    + repeat (rewrite <- app_assoc; cbn [app]). reflexivity.
    + destruct w; discriminate.
    + intros t. repeat (rewrite <- app_assoc; cbn [app]).
      now rewrite Hw, Ec.
  - destruct (c =? Ch.rbrace) eqn:Ec'; [|discriminate]. inv H.
    exists (w ++ [c]). repeat split.
    + repeat (rewrite <- app_assoc; cbn [app]). reflexivity.
    + destruct w; discriminate.
    + intros t. repeat (rewrite <- app_assoc; cbn [app]).
      now rewrite Hw, Ec, Ec'.
Qed.

Lemma array_items_local n :
  forall x values v r,
    array_items scan n x values = Ok (v, r) ->
    exists m, x = m ++ r /\ m <> [] /\ stop is_ws m = true /\
              forall t, array_items scan n (m ++ t) values = Ok (v, t).
Proof.
  induction n as [|n IH]; intros x values v r H; [discriminate|].
  simpl in H.
  destruct (expecting_value (scan x)) as [[value s1]| |] eqn:Eval;
    try discriminate.
  apply expecting_value_inv, scan_local in Eval.
  destruct Eval as (m1 & -> & Hne & Hs1 & Hval).
  simpl in H.
  destruct (skip_ws s1) as [|c s2] eqn:Ew; [discriminate|].
  apply skip_ws_delim in Ew. destruct Ew as (w & -> & Hall & Hw).
  assert (Hm1 : forall y, stop is_ws (m1 ++ y) = true)
    by (intros y; destruct m1; [congruence | exact Hs1]).
  assert (Hstep : forall y k,
    (c =? Ch.rbracket) || (c =? Ch.comma) = true ->
    (forall values',
       (if c =? Ch.rbracket then Ok (PyList values', y)
        else if c =? Ch.comma
             then array_items scan n (skip_ws y) values'
             else Exn JSONDecodeError) = k values') ->
    array_items scan (S n) (m1 ++ w ++ c :: y) values
    = k (values ++ [value])).
  { intros y k Hc Hk. simpl. rewrite Hval.
    - simpl. rewrite Hw. apply Hk.
    - apply number_value_stop, number_stop_delim; [assumption|].
      apply orb_prop in Hc.
      destruct Hc as [Hc|Hc]; apply N.eqb_eq in Hc; now subst c. }
  destruct (c =? Ch.rbracket) eqn:Ec.
  - inv H. exists (m1 ++ w ++ [c]). repeat split.
    + repeat (rewrite <- app_assoc; cbn [app]). reflexivity.
    + destruct m1; [congruence | discriminate].
    + apply Hm1.
    + intros t. repeat (rewrite <- app_assoc; cbn [app]).
      rewrite (Hstep t (fun p => Ok (PyList p, t)));
        [reflexivity | reflexivity | intros; reflexivity].
  - destruct (c =? Ch.comma) eqn:Ec'; [|discriminate].
    destruct (skip_ws_split s2) as (w3 & Hs2 & Hall3).
    apply IH in H. destruct H as (m3 & Hm3 & Hne3 & Hs3 & Hrec).
    rewrite Hm3 in Hs2.
    exists (m1 ++ w ++ c :: w3 ++ m3). repeat split.
    + repeat (rewrite <- app_assoc; cbn [app]). now rewrite Hs2.
    + destruct m1; [congruence | discriminate].
    + apply Hm1.
    + intros t. repeat (rewrite <- app_assoc; cbn [app]).
      rewrite (Hstep (w3 ++ m3 ++ t)
                 (fun p => array_items scan n (m3 ++ t) p)).
      * apply Hrec.
      * reflexivity.
      * intros p. rewrite skip_ws_app; [reflexivity | assumption |].
        destruct m3; [congruence | exact Hs3].
Qed.

Lemma JSONArray_local n x v r :
  JSONArray scan n x = Ok (v, r) ->
  exists m, x = m ++ r /\ m <> [] /\
            forall t, JSONArray scan n (m ++ t) = Ok (v, t).
Proof.
  unfold JSONArray. intros H.
  destruct (skip_ws_split x) as (w & Hx & Hall).
  destruct (starts_with [Ch.rbracket] (skip_ws x)) as [s'|] eqn:Es.
  - inv H. apply starts_with_split in Es. rewrite Es in Hx.
    exists (w ++ [Ch.rbracket]). repeat split.
    + now rewrite <- app_assoc.
    + destruct w; discriminate.
    + intros t. rewrite <- app_assoc. cbn [app].
      rewrite skip_ws_app by (assumption || reflexivity).
      simpl. now destruct t.
  - apply array_items_local in H. destruct H as (m & Hm & Hne & Hs & Ht).
    exists (w ++ m). repeat split.
    + rewrite <- app_assoc. congruence.
    + destruct w, m; try discriminate; congruence.
    + intros t. rewrite <- app_assoc.
      rewrite skip_ws_app;
        [|assumption | destruct m; [congruence | exact Hs]].
      destruct m as [|c m]; [congruence|].
      rewrite Hm in Es. simpl in Es. simpl.
      destruct (Ch.rbracket =? c); [now destruct (m ++ r)|].
      apply Ht.
Qed.

Lemma scan_once_body_ws n c tl :
  is_ws c = true ->
  scan_once_body strict scan n (c :: tl) = Exn StopIteration.
Proof.
  intros H. apply is_ws_cases in H.
  destruct H as [->|[->|[->| ->]]]; reflexivity.
Qed.

Lemma scan_once_body_local n x v r :
  scan_once_body strict scan n x = Ok (v, r) ->
  exists m, x = m ++ r /\ m <> [] /\ stop is_ws m = true /\
            forall t, value_stop v t = true ->
                      scan_once_body strict scan n (m ++ t) = Ok (v, t).
Proof.
  intros H.
  destruct x as [|c tl]; [discriminate|].
  assert (Hws : is_ws c = false).
  { destruct (is_ws c) eqn:E; [|reflexivity].
    rewrite scan_once_body_ws in H by assumption. discriminate. }
  cut (exists m, c :: tl = m ++ r /\ m <> [] /\
                 forall t, value_stop v t = true ->
                           scan_once_body strict scan n (m ++ t)
                           = Ok (v, t)).
  { intros (m & Hm & Hne & Ht). exists m. repeat split; try assumption.
    destruct m as [|c' m]; [congruence|]. inv Hm. simpl. now rewrite Hws. }
  unfold scan_once_body in H.
  destruct (c =? Ch.quote) eqn:E1.
  { destruct (scanstring strict tl []) as [[s r']| |] eqn:Es;
      try discriminate.
    inv H. apply scanstring_local in Es. destruct Es as (m & -> & _ & Ht).
    exists (c :: m). repeat split; [discriminate|].
    intros t _. cbn [scan_once_body app]. now rewrite E1, Ht. }
  destruct (c =? Ch.lbrace) eqn:E2.
  { apply JSONObject_local in H. destruct H as (m & -> & _ & Ht).
    exists (c :: m). repeat split; [discriminate|].
    intros t _. cbn [scan_once_body app]. now rewrite E1, E2, Ht. }
  destruct (c =? Ch.lbracket) eqn:E3.
  { apply JSONArray_local in H. destruct H as (m & -> & _ & Ht).
    exists (c :: m). repeat split; [discriminate|].
    intros t _. cbn [scan_once_body app]. now rewrite E1, E2, E3, Ht. }
  destruct (starts_with (lit "null") (c :: tl)) as [r1|] eqn:Enull.
  { inv H. apply starts_with_split in Enull. rewrite Enull.
    literal_case (lit "null"). }
  destruct (starts_with (lit "true") (c :: tl)) as [r1|] eqn:Etrue.
  { inv H. apply starts_with_split in Etrue. rewrite Etrue.
    literal_case (lit "true"). }
  destruct (starts_with (lit "false") (c :: tl)) as [r1|] eqn:Efalse.
  { inv H. apply starts_with_split in Efalse. rewrite Efalse.
    literal_case (lit "false"). }
  destruct (match_number (c :: tl)) as [[[[i fr] ex] r1]|] eqn:En.
  { pose proof (match_number_head _ _ _ _ _ _ En) as Hc.
    apply match_number_local in En. destruct En as (Hx & Hne & Hn).
    assert (Hv : is_number v = true /\ r1 = r /\
                 forall t : str,
                   match fr, ex with
                   | [], [] => Ok (PyInt (parse_int i), t)
                   | _, _ => Ok (PyFloat (i ++ fr ++ ex), t)
                   end = Ok (v, t)).
    { destruct fr, ex; inv H; auto. }
    destruct Hv as (Hv & -> & Hres). clear H.
    exists (i ++ fr ++ ex). repeat split; [assumption | |].
    - destruct i; [congruence | discriminate].
    - intros t Ht. unfold value_stop in Ht. rewrite Hv in Ht.
      specialize (Hn t Ht).
      destruct ((i ++ fr ++ ex) ++ t) as [|c' tl'] eqn:Ex;
        [destruct i; [congruence | discriminate]|].
      assert (c' = c) by (destruct i; [congruence|]; simpl in *; congruence).
      subst c'. unfold scan_once_body. rewrite E1, E2, E3.
      assert (Hlit : forall a w, (a =? Ch.minus) || is_digit a = false ->
                                 starts_with (a :: w) (c :: tl') = None).
      { intros a w Ha. simpl. destruct (N.eqb_spec a c); [|reflexivity].
        subst a. congruence. }
      change (lit "null") with (110 :: lit "ull").
      change (lit "true") with (116 :: lit "rue").
      change (lit "false") with (102 :: lit "alse").
      rewrite !Hlit by reflexivity. rewrite Hn. apply Hres. }
  destruct (starts_with (lit "NaN") (c :: tl)) as [r1|] eqn:Enan.
  { inv H. apply starts_with_split in Enan. rewrite Enan.
    literal_case (lit "NaN"). }
  destruct (starts_with (lit "Infinity") (c :: tl)) as [r1|] eqn:Einf.
  { inv H. apply starts_with_split in Einf. rewrite Einf.
    literal_case (lit "Infinity"). }
  destruct (starts_with (lit "-Infinity") (c :: tl)) as [r1|] eqn:Eninf.
  { inv H. apply starts_with_split in Eninf. rewrite Eninf.
    literal_case (lit "-Infinity"). }
  discriminate.
Qed.
End ContainerLocality.

(** ** [scan_once] *)

(** What [scan_once] consumed, and the value it built, do not depend on
    what follows, as long as what follows cannot lengthen a number. *)
Lemma scan_once_local strict f :
  forall x v r,
    scan_once strict f x = Ok (v, r) ->
    exists m, x = m ++ r /\ m <> [] /\ stop is_ws m = true /\
              forall t, value_stop v t = true ->
                        scan_once strict f (m ++ t) = Ok (v, t).
Proof.
  induction f as [|f IH]; intros x v r H; [discriminate|].
  apply (scan_once_body_local strict _ IH) in H. exact H.
Qed.

(** ** The bounds of the model are never met

    More fuel does not change a result, and a fuel above the length of the
    input is always enough: the outcome of [raw_decode] is the outcome of
    the unbounded scanner. *)

Lemma scanstring_fuel strict x acc : scanstring strict x acc <> OutOfFuel.
Proof.
  revert acc. induction x as [x IH] using list_length_ind. intros acc.
  destruct x as [|c tl]; [discriminate|].
  destruct (c =? Ch.quote) eqn:E1.
  { now rewrite scanstring_quote. }
  destruct (c =? Ch.backslash) eqn:E2.
  - destruct tl as [|esc tl1]; [simpl; rewrite E1, E2; discriminate|].
    destruct (esc =? Ch.u) eqn:E3.
    + destruct (Nat.ltb_spec (length tl1) 4) as [Hl|Hl].
      { now rewrite scanstring_short. }
      destruct tl1 as [|h1 [|h2 [|h3 [|h4 y]]]]; try (simpl in Hl; lia).
      destruct (decode_uXXXX h1 h2 h3 h4) as [uni|] eqn:E4;
        [|simpl; rewrite E1, E2, E3, E4; discriminate].
      rewrite (scanstring_u _ _ _ _ _ _ _ _ _ _ E1 E2 E3 E4).
      destruct (pair_follows uni y); [|apply IH; simpl; lia].
      destruct y as [|b [|v0 [|g1 [|g2 [|g3 [|g4 y4]]]]]]; try discriminate.
      destruct (decode_uXXXX g1 g2 g3 g4); [|discriminate].
      destruct (is_low_surrogate n); apply IH; simpl; lia.
    + rewrite scanstring_escape by assumption.
      destruct (BACKSLASH esc); [apply IH; simpl; lia | discriminate].
  - rewrite scanstring_plain by assumption.
    destruct ((c <=? 31) && strict); [discriminate | apply IH; simpl; lia].
Qed.

Lemma scanstring_shrink strict x acc v r :
  scanstring strict x acc = Ok (v, r) -> (length r < length x)%nat.
Proof.
  intros H. apply scanstring_local in H. destruct H as (m & -> & Hne & _).
  rewrite length_app. destruct m; [congruence | simpl; lia].
Qed.

Lemma skip_ws_cons_length x c r :
  skip_ws x = c :: r -> (length r < length x)%nat.
Proof.
  intros H. pose proof (skip_ws_length x) as Hl. rewrite H in Hl.
  simpl in Hl. lia.
Qed.

Lemma expecting_value_fuel {A} (r : res A) :
  expecting_value r = OutOfFuel -> r = OutOfFuel.
Proof. destruct r as [a|[]|]; simpl; congruence. Qed.

Section ContainerMono.
Variable strict : bool.
Variables scan1 scan2 : str -> res (pyobj * str).
Hypothesis scan_mono : forall x, scan1 x <> OutOfFuel -> scan2 x = scan1 x.

Lemma expecting_value_mono x (k : pyobj * str -> res (pyobj * str)) :
  bind (expecting_value (scan1 x)) k <> OutOfFuel ->
  expecting_value (scan2 x) = expecting_value (scan1 x).
Proof.
  intros H. rewrite scan_mono; [reflexivity|].
  intros E. rewrite E in H. now apply H.
Qed.

Lemma object_members_mono n :
  forall x pairs n',
    object_members strict scan1 n x pairs <> OutOfFuel -> (n <= n')%nat ->
    object_members strict scan2 n' x pairs
    = object_members strict scan1 n x pairs.
Proof.
  induction n as [|n IH]; intros x pairs n' H Hle; [now elim H|].
  destruct n' as [|n']; [lia|].
  simpl in *.
  destruct (scanstring strict x []) as [[key s1]| |]; try reflexivity.
  simpl in *.
  destruct (skip_ws s1) as [|c1 s2]; [reflexivity|].
  destruct (c1 =? Ch.colon); [|reflexivity].
  rewrite (expecting_value_mono _ _ H).
  destruct (expecting_value (scan1 (skip_ws s2))) as [[value s3]| |];
    try reflexivity.
  simpl in *.
  destruct (skip_ws s3) as [|c2 s4]; [reflexivity|].
  destruct (c2 =? Ch.rbrace); [reflexivity|].
  destruct (c2 =? Ch.comma); [|reflexivity].
  destruct (skip_ws s4) as [|c3 s5]; [reflexivity|].
  destruct (c3 =? Ch.quote); [|reflexivity].
  apply IH; [assumption | lia].
Qed.

Lemma array_items_mono n :
  forall x values n',
    array_items scan1 n x values <> OutOfFuel -> (n <= n')%nat ->
    array_items scan2 n' x values = array_items scan1 n x values.
Proof.
  induction n as [|n IH]; intros x values n' H Hle; [now elim H|].
  destruct n' as [|n']; [lia|].
  simpl in *.
  rewrite (expecting_value_mono _ _ H).
  destruct (expecting_value (scan1 x)) as [[value s1]| |]; try reflexivity.
  simpl in *.
  destruct (skip_ws s1) as [|c s2]; [reflexivity|].
  destruct (c =? Ch.rbracket); [reflexivity|].
  destruct (c =? Ch.comma); [|reflexivity].
  apply IH; [assumption | lia].
Qed.

Lemma scan_once_body_mono n n' x :
  scan_once_body strict scan1 n x <> OutOfFuel -> (n <= n')%nat ->
  scan_once_body strict scan2 n' x = scan_once_body strict scan1 n x.
Proof.
  intros H Hle. destruct x as [|c tl]; [reflexivity|].
  unfold scan_once_body in *.
  destruct (c =? Ch.quote); [reflexivity|].
  destruct (c =? Ch.lbrace).
  { unfold JSONObject in *.
    destruct (skip_ws tl) as [|c1 s1]; [reflexivity|].
    destruct (c1 =? Ch.quote); [|reflexivity].
    now apply object_members_mono. }
  destruct (c =? Ch.lbracket); [|reflexivity].
  unfold JSONArray in *.
  destruct (starts_with [Ch.rbracket] (skip_ws tl)); [reflexivity|].
  now apply array_items_mono.
Qed.
End ContainerMono.

Lemma scan_once_mono strict f :
  forall f' x,
    scan_once strict f x <> OutOfFuel -> (f <= f')%nat ->
    scan_once strict f' x = scan_once strict f x.
Proof.
  induction f as [|f IH]; intros f' x H Hle; [now elim H|].
  destruct f' as [|f']; [lia|].
  simpl in *. apply scan_once_body_mono; [|assumption|lia].
  intros y Hy. apply IH; [assumption | lia].
Qed.

Section ContainerFuel.
Variable strict : bool.
Variable scan : str -> res (pyobj * str).
Variable bound : nat.

Hypothesis scan_shrink : forall x v r,
  scan x = Ok (v, r) -> (length r < length x)%nat.
Hypothesis scan_fuel : forall x,
  (length x < bound)%nat -> scan x <> OutOfFuel.

Lemma object_members_fuel n :
  forall x pairs,
    (length x < n)%nat -> (length x < bound)%nat ->
    object_members strict scan n x pairs <> OutOfFuel.
Proof.
  induction n as [|n IH]; intros x pairs Hn Hb; [lia|].
  simpl.
  destruct (scanstring strict x []) as [[key s1]| |] eqn:Ekey;
    [|discriminate | now apply scanstring_fuel in Ekey].
  apply scanstring_shrink in Ekey. simpl.
  destruct (skip_ws s1) as [|c1 s2] eqn:Ew1; [discriminate|].
  apply skip_ws_cons_length in Ew1.
  destruct (c1 =? Ch.colon); [|discriminate].
  pose proof (skip_ws_length s2) as Hl2.
  destruct (expecting_value (scan (skip_ws s2))) as [[value s3]| |] eqn:Ev;
    [|discriminate|].
  - apply expecting_value_inv, scan_shrink in Ev. simpl.
    destruct (skip_ws s3) as [|c2 s4] eqn:Ew2; [discriminate|].
    apply skip_ws_cons_length in Ew2.
    destruct (c2 =? Ch.rbrace); [discriminate|].
    destruct (c2 =? Ch.comma); [|discriminate].
    destruct (skip_ws s4) as [|c3 s5] eqn:Ew3; [discriminate|].
    apply skip_ws_cons_length in Ew3.
    destruct (c3 =? Ch.quote); [|discriminate].
    apply IH; lia.
  - apply expecting_value_fuel in Ev. apply scan_fuel in Ev; [easy | lia].
Qed.

Lemma array_items_fuel n :
  forall x values,
    (length x < n)%nat -> (length x < bound)%nat ->
    array_items scan n x values <> OutOfFuel.
Proof.
  induction n as [|n IH]; intros x values Hn Hb; [lia|].
  simpl.
  destruct (expecting_value (scan x)) as [[value s1]| |] eqn:Ev;
    [|discriminate|].
  - apply expecting_value_inv, scan_shrink in Ev. simpl.
    destruct (skip_ws s1) as [|c s2] eqn:Ew; [discriminate|].
    apply skip_ws_cons_length in Ew.
    destruct (c =? Ch.rbracket); [discriminate|].
    destruct (c =? Ch.comma); [|discriminate].
    pose proof (skip_ws_length s2).
    apply IH; lia.
  - apply expecting_value_fuel in Ev. apply scan_fuel in Ev; [easy | lia].
Qed.

Lemma scan_once_body_fuel n x :
  (length x <= n)%nat -> (length x <= bound)%nat ->
  scan_once_body strict scan n x <> OutOfFuel.
Proof.
  intros Hn Hb. destruct x as [|c tl]; [discriminate|].
  simpl in Hn, Hb. unfold scan_once_body.
  destruct (c =? Ch.quote).
  { destruct (scanstring strict tl []) as [[s r]| |] eqn:Es;
      [discriminate | discriminate | now apply scanstring_fuel in Es]. }
  destruct (c =? Ch.lbrace).
  { unfold JSONObject.
    destruct (skip_ws tl) as [|c1 s1] eqn:Ew; [discriminate|].
    apply skip_ws_cons_length in Ew.
    destruct (c1 =? Ch.quote);
      [apply object_members_fuel; lia|].
    destruct (c1 =? Ch.rbrace); discriminate. }
  destruct (c =? Ch.lbracket).
  { unfold JSONArray. pose proof (skip_ws_length tl).
    destruct (starts_with [Ch.rbracket] (skip_ws tl)); [discriminate|].
    apply array_items_fuel; lia. }
  destruct (starts_with (lit "null") (c :: tl)); [discriminate|].
  destruct (starts_with (lit "true") (c :: tl)); [discriminate|].
  destruct (starts_with (lit "false") (c :: tl)); [discriminate|].
  destruct (match_number (c :: tl)) as [[[[i fr] ex] r1]|].
  { destruct fr, ex; discriminate. }
  destruct (starts_with (lit "NaN") (c :: tl)); [discriminate|].
  destruct (starts_with (lit "Infinity") (c :: tl)); [discriminate|].
  destruct (starts_with (lit "-Infinity") (c :: tl)); discriminate.
Qed.
End ContainerFuel.

Lemma scan_once_shrink strict f x v r :
  scan_once strict f x = Ok (v, r) -> (length r < length x)%nat.
Proof.
  intros H. apply scan_once_local in H. destruct H as (m & -> & Hne & _).
  rewrite length_app. destruct m; [congruence | simpl; lia].
Qed.

Lemma scan_once_fuel strict f :
  forall x, (length x < f)%nat -> scan_once strict f x <> OutOfFuel.
Proof.
  induction f as [|f IH]; intros x Hx; [lia|].
  simpl. apply (scan_once_body_fuel strict _ f).
  - intros y v r. apply scan_once_shrink.
  - exact IH.
  - lia.
  - lia.
Qed.

(** The outcome of the scanner is the same for every fuel above the length
    of the input. *)
Lemma scan_once_enough strict f x :
  (length x < f)%nat ->
  scan_once strict f x = scan_once strict (S (length x)) x.
Proof.
  intros Hf. apply scan_once_mono; [|lia].
  apply scan_once_fuel. lia.
Qed.

(** * Properties of [raw_decode] *)

Lemma scan_once_any_fuel strict f x v r :
  scan_once strict f x = Ok (v, r) ->
  scan_once strict (S (length x)) x = Ok (v, r).
Proof.
  intros H.
  assert (Hmax : scan_once strict (Nat.max f (S (length x))) x = Ok (v, r)).
  { rewrite <- H. apply scan_once_mono; [rewrite H; discriminate | lia]. }
  rewrite <- Hmax. symmetry. apply scan_once_enough. lia.
Qed.

(** A failure of [raw_decode] is a failure of the scanner, whatever the
    fuel. *)
Lemma raw_decode_error strict s e :
  raw_decode_with strict s = inr e ->
  e = JSONDecodeError /\
  forall f v r, scan_once strict f s <> Ok (v, r).
Proof.
  unfold raw_decode_with. intros H. split.
  - destruct (scan_once strict (S (length s)) s) as [[v r]| |]; congruence.
  - intros f v r Hf. apply scan_once_any_fuel in Hf. rewrite Hf in H.
    discriminate.
Qed.

(** A success of [raw_decode] splits the input into the text of the value
    and the rest; the text alone decides the outcome. *)
Lemma raw_decode_ok strict s v idx :
  raw_decode_with strict s = inl (v, idx) ->
  exists m r,
    s = m ++ r /\ idx = length m /\ m <> [] /\ stop is_ws m = true /\
    forall t, value_stop v t = true ->
              raw_decode_with strict (m ++ t) = inl (v, length m).
Proof.
  unfold raw_decode_with. intros H.
  destruct (scan_once strict (S (length s)) s) as [[v' r]| |] eqn:Es;
    try discriminate.
  inv H. apply scan_once_local in Es.
  destruct Es as (m & -> & Hne & Hs & Ht).
  exists m, r. repeat split; try assumption.
  - rewrite length_app. lia.
  - intros t Hstop. specialize (Ht t Hstop).
    apply scan_once_any_fuel in Ht. rewrite Ht.
    rewrite length_app. f_equal. f_equal. lia.
Qed.

Lemma raw_decode_ws strict c tl :
  is_ws c = true -> raw_decode_with strict (c :: tl) = inr JSONDecodeError.
Proof.
  intros H. unfold raw_decode_with. cbn [scan_once].
  now rewrite scan_once_body_ws.
Qed.

(** What starts with a brace decodes to a [dict] or not at all. *)
Lemma object_members_dict strict scan n :
  forall x pairs v r,
    object_members strict scan n x pairs = Ok (v, r) -> is_number v = false.
Proof.
  induction n as [|n IH]; intros x pairs v r H; [discriminate|].
  simpl in H.
  destruct (scanstring strict x []) as [[key s1]| |]; try discriminate.
  simpl in H.
  destruct (skip_ws s1) as [|c1 s2]; [discriminate|].
  destruct (c1 =? Ch.colon); [|discriminate].
  destruct (expecting_value (scan (skip_ws s2))) as [[value s3]| |];
    try discriminate.
  simpl in H.
  destruct (skip_ws s3) as [|c2 s4]; [discriminate|].
  destruct (c2 =? Ch.rbrace); [now inv H|].
  destruct (c2 =? Ch.comma); [|discriminate].
  destruct (skip_ws s4) as [|c3 s5]; [discriminate|].
  destruct (c3 =? Ch.quote); [|discriminate].
  eapply IH; eassumption.
Qed.

Lemma raw_decode_object strict tl v idx :
  raw_decode_with strict (Ch.lbrace :: tl) = inl (v, idx) ->
  is_number v = false.
Proof.
  unfold raw_decode_with. intros H.
  destruct (scan_once strict (S (length (Ch.lbrace :: tl))) (Ch.lbrace :: tl))
    as [[v' r]| |] eqn:Es; try discriminate.
  inv H. simpl in Es. unfold JSONObject in Es.
  destruct (skip_ws tl) as [|c s]; [discriminate|].
  destruct (c =? Ch.quote).
  - eapply object_members_dict; eassumption.
  - destruct (c =? Ch.rbrace); [now inv Es | discriminate].
Qed.

(** ** The text of one JSON object *)

Lemma object_text_extend s o t :
  object_text s o -> raw_decode (s ++ t) = inl (o, length s).
Proof.
  intros [[tl ->] H]. pose proof (raw_decode_object _ _ _ _ H) as Hv.
  apply raw_decode_ok in H. destruct H as (m & r & Hs & Hl & _ & _ & Ht).
  assert (r = []).
  { apply (f_equal (@length N)) in Hs. rewrite length_app in Hs.
    destruct r; [reflexivity | simpl in *; lia]. }
  subst r. rewrite app_nil_r in Hs. rewrite Hs. apply Ht.
  unfold value_stop. now rewrite Hv.
Qed.

Lemma object_text_prefix s o p e :
  object_text s o -> s = p ++ e -> e <> [] ->
  raw_decode p = inr JSONDecodeError.
Proof.
  intros Hs Hp He.
  destruct (raw_decode p) as [[v idx]|ex] eqn:Hd;
    [|apply raw_decode_error in Hd; destruct Hd as [-> _]; reflexivity].
  exfalso.
  destruct p as [|c p']; [discriminate|].
  assert (c = Ch.lbrace) by (destruct Hs as [[tl ->] _]; simpl in Hp; congruence).
  subst c.
  pose proof (raw_decode_object _ _ _ _ Hd) as Hv.
  apply raw_decode_ok in Hd. destruct Hd as (m & r & Hm & _ & _ & _ & Ht).
  specialize (Ht (r ++ e)). unfold value_stop in Ht. rewrite Hv in Ht.
  specialize (Ht eq_refl).
  rewrite app_assoc, <- Hm, <- Hp in Ht.
  destruct Hs as [_ Hs]. unfold raw_decode in Hs. rewrite Hs in Ht.
  injection Ht as _ Hlen.
  rewrite Hp, Hm, !length_app in Hlen.
  destruct e; [congruence | simpl in Hlen; lia].
Qed.

Lemma truncated_object_stuck p b t :
  truncated_object p -> p = b ++ t -> raw_decode b = inr JSONDecodeError.
Proof.
  intros (s & o & e & Hs & Hp & He) Hb. subst p.
  eapply object_text_prefix; [eassumption | |].
  - rewrite Hp, <- app_assoc. reflexivity.
  - destruct t; [assumption | discriminate].
Qed.

(** * Properties of the generator *)

(** ** Slicing *)

Lemma slice_from_nat s idx : slice_from s (Z.of_nat idx) = skipn idx s.
Proof.
  unfold slice_from.
  destruct (Z.ltb_spec (Z.of_nat idx) 0); [lia|].
  now rewrite Nat2Z.id.
Qed.

Lemma slice_from_app m r : slice_from (m ++ r) (Z.of_nat (length m)) = r.
Proof.
  rewrite slice_from_nat, skipn_app, skipn_all, Nat.sub_diag. reflexivity.
Qed.

(** The cut only removes a prefix. *)
Lemma trim_suffix x : exists g, x = g ++ trim x.
Proof.
  unfold trim, slice_from.
  eexists. symmetry. apply firstn_skipn.
Qed.

(** The cut skips characters that are not the brace up to the first brace. *)
Lemma trim_skip w z :
  Forall (fun c => c <> Ch.lbrace) w ->
  trim (w ++ Ch.lbrace :: z) = Ch.lbrace :: z.
Proof.
  intros Hw. unfold trim.
  assert (Hf : find (w ++ Ch.lbrace :: z) Ch.lbrace = Z.of_nat (length w)).
  { induction Hw as [|c w Hc _ IH]; [reflexivity|].
    cbn [app find length]. apply N.eqb_neq in Hc. rewrite Hc, IH.
    destruct (Z.ltb_spec (Z.of_nat (length w)) 0); lia. }
  rewrite Hf. apply slice_from_app.
Qed.

(** ** The [while True] loop *)

Lemma while_true_enough f1 :
  forall f2 b, (length b < f1)%nat -> (length b < f2)%nat ->
               while_true f1 b = while_true f2 b.
Proof.
  induction f1 as [|f1 IH]; intros f2 b H1 H2; [lia|].
  destruct f2 as [|f2]; [lia|]. simpl.
  destruct (raw_decode b) as [[v idx]|e] eqn:Hd; [|reflexivity].
  apply raw_decode_ok in Hd. destruct Hd as (m & r & -> & -> & Hne & _).
  rewrite slice_from_app. rewrite length_app in H1, H2.
  assert (length m <> 0)%nat by (destruct m; [congruence | discriminate]).
  rewrite (IH f2); [reflexivity | lia | lia].
Qed.

(** The loop stops at once, and leaves the buffer as it is, when the decode
    fails. *)
Lemma loop_error b e : raw_decode b = inr e -> loop b = ([], b).
Proof. unfold loop. simpl. now intros ->. Qed.

(** The loop yields the value and goes on with the rest when the decode
    succeeds. *)
Lemma loop_ok b v idx :
  raw_decode b = inl (v, idx) ->
  loop b = (v :: fst (loop (skipn idx b)), snd (loop (skipn idx b))).
Proof.
  intros Hd. unfold loop at 1. simpl. rewrite Hd.
  rewrite slice_from_nat.
  apply raw_decode_ok in Hd. destruct Hd as (m & r & -> & -> & Hne & _).
  assert (Hr : skipn (length m) (m ++ r) = r).
  { rewrite skipn_app, skipn_all, Nat.sub_diag. reflexivity. }
  rewrite !Hr.
  rewrite (while_true_enough _ (S (length r))).
  - unfold loop. now destruct (while_true (S (length r)) r).
  - rewrite length_app.
    destruct m; [congruence | simpl; lia].
  - lia.
Qed.

Lemma on_chunk_eq b text : on_chunk b text = loop (trim (b ++ text)).
Proof. reflexivity. Qed.

(** ** Streams of complete objects *)

Lemma yields_app t1 t2 : yields (t1 ++ t2) = yields t1 ++ yields t2.
Proof.
  induction t1 as [|[c|o|e|] t1 IH]; simpl; congruence.
Qed.

Lemma yields_map_Yield objs : yields (map Yield objs) = objs.
Proof. induction objs as [|o objs IH]; simpl; congruence. Qed.

(** A stream of objects, possibly with a truncated last one, is empty or
    starts with a brace; so does every prefix of it. *)
Lemma stream_prefix_head docs p x R :
  object_texts docs -> p = [] \/ truncated_object p ->
  x ++ R = concat (map fst docs) ++ p ->
  x = [] \/ exists tl, x = Ch.lbrace :: tl.
Proof.
  intros Hdocs Hp Hx.
  assert (Hs : concat (map fst docs) ++ p = []
               \/ exists tl, concat (map fst docs) ++ p = Ch.lbrace :: tl).
  { destruct Hdocs as [|[s o] docs [[tl Hs] _] _].
    - simpl. destruct Hp as [->|(s & o & e & [[tl ->] _] & Hs & _)];
        [now left|].
      destruct p as [|c p]; [now left|]. right. exists p.
      simpl in Hs. congruence.
    - right. simpl in *. subst s. simpl. eauto. }
  destruct x as [|c x]; [now left|]. right.
  destruct Hs as [Hs|[tl Hs]]; rewrite Hs in Hx; simpl in Hx;
    [discriminate|].
  exists x. congruence.
Qed.

Lemma trim_prefix docs p x R :
  object_texts docs -> p = [] \/ truncated_object p ->
  x ++ R = concat (map fst docs) ++ p ->
  trim x = x.
Proof.
  intros Hdocs Hp Hx.
  destruct (stream_prefix_head _ _ _ _ Hdocs Hp Hx) as [->|[tl ->]];
    reflexivity.
Qed.

(** The loop yields the objects that are complete in the buffer, in order,
    and leaves the beginning of the next one. *)
Lemma loop_objects docs :
  forall b R p,
    object_texts docs -> p = [] \/ truncated_object p ->
    b ++ R = concat (map fst docs) ++ p ->
    exists done todo b',
      docs = done ++ todo /\
      loop b = (map snd done, b') /\
      b' ++ R = concat (map fst todo) ++ p /\
      short todo b'.
Proof.
  induction docs as [|[s o] docs IH]; intros b R p Hdocs Hp Hb.
  - exists [], [], b. repeat split; try assumption.
    simpl in Hb. apply loop_error with (e := JSONDecodeError).
    destruct Hp as [->|Hp].
    + apply app_eq_nil in Hb. destruct Hb as [-> _]. reflexivity.
    + exact (truncated_object_stuck p b R Hp (eq_sym Hb)).
  - inversion Hdocs as [|d docs' Hs Hdocs']; subst. simpl in Hs.
    simpl in Hb. rewrite <- app_assoc in Hb.
    assert (Hcase : (exists l, b = s ++ l /\
                               l ++ R = concat (map fst docs) ++ p)
                    \/ (exists l, s = b ++ l /\ l <> [])).
    { apply app_eq_app in Hb. destruct Hb as (l & [[-> Hl]|[-> Hl]]).
      - left. exists l. split; [reflexivity | now symmetry].
      - destruct l as [|c l].
        + left. exists []. simpl in Hl.
          split; [now rewrite !app_nil_r | simpl; congruence].
        + right. exists (c :: l). split; [reflexivity | discriminate]. }
    destruct Hcase as [(l & -> & Hl)|(l & Hsl & Hne)].
    + destruct (IH l R p Hdocs' Hp Hl) as (done & todo & b' & -> & Hloop & Hb' & Hshort).
      exists ((s, o) :: done), todo, b'. repeat split; try assumption.
      rewrite (loop_ok _ o (length s)) by now apply object_text_extend.
      assert (Hr : skipn (length s) (s ++ l) = l).
      { rewrite skipn_app, skipn_all, Nat.sub_diag. reflexivity. }
      rewrite !Hr, Hloop. reflexivity.
    + exists [], ((s, o) :: docs), b. repeat split.
      * apply loop_error with (e := JSONDecodeError).
        eapply object_text_prefix; eassumption.
      * simpl. now rewrite <- app_assoc.
      * simpl. rewrite Hsl, length_app.
        destruct l; [congruence | simpl; lia].
Qed.

(** The run over chunks that are cut on character boundaries, from a buffer
    that holds less than one object: every object of the stream is yielded,
    in order, nothing is yielded for a truncated last object, and the run
    ends without an exception. *)
Lemma for_chunks_objects chunks :
  forall texts docs p b,
    decoded chunks texts ->
    object_texts docs -> p = [] \/ truncated_object p ->
    b ++ concat texts = concat (map fst docs) ++ p ->
    short docs b ->
    yields (for_chunks b chunks) = map snd docs /\
    exists pre, for_chunks b chunks = pre ++ [Done].
Proof.
  induction chunks as [|c chunks IH];
    intros texts docs p b Hdec Hdocs Hp Hb Hshort.
  - inv Hdec. simpl in Hb. rewrite app_nil_r in Hb. split.
    + destruct docs as [|[s o] docs]; [reflexivity|].
      exfalso. simpl in *. rewrite Hb, !length_app in Hshort. lia.
    + now exists [].
  - inversion Hdec as [|c' t chunks' texts' Hc Hdec']; subst.
    simpl in Hb. rewrite app_assoc in Hb.
    simpl. rewrite Hc, on_chunk_eq.
    rewrite (trim_prefix _ _ _ _ Hdocs Hp Hb).
    destruct (loop_objects docs _ _ _ Hdocs Hp Hb)
      as (done & todo & b' & -> & Hloop & Hb' & Hshort').
    rewrite Hloop.
    assert (Htodo : object_texts todo).
    { unfold object_texts in *. apply Forall_app in Hdocs. tauto. }
    destruct (IH _ _ _ _ Hdec' Htodo Hp Hb' Hshort') as [Hy [pre Hpre]].
    split.
    + rewrite yields_app, yields_map_Yield, Hy, map_app. reflexivity.
    + exists (Read c :: map Yield (map snd done) ++ pre).
      rewrite Hpre. simpl. now rewrite <- app_assoc.
Qed.

(** * Properties of the UTF-8 decoder *)

Lemma utf8_decode_cons b0 r0 :
  utf8_decode (b0 :: r0) =
  match utf8_first b0 r0 with
  | Some (cp, r) => option_map (cons cp) (utf8_decode r)
  | None => None
  end.
Proof.
  unfold utf8_first. cbn [utf8_decode].
  destruct (Byte.to_N b0 <? 128); [reflexivity|].
  destruct (Byte.to_N b0 <? 194); [reflexivity|].
  destruct (Byte.to_N b0 <? 224).
  { destruct r0 as [|b1 r1]; [reflexivity|].
    now destruct (is_cont (Byte.to_N b1)). }
  destruct (Byte.to_N b0 <? 240).
  { destruct r0 as [|b1 [|b2 r2]]; try reflexivity.
    now destruct (is_cont (Byte.to_N b1) && is_cont (Byte.to_N b2)
                  && (if Byte.to_N b0 =? 224 then 160 <=? Byte.to_N b1 else true)
                  && (if Byte.to_N b0 =? 237 then Byte.to_N b1 <? 160 else true)). }
  destruct (Byte.to_N b0 <? 245); [|reflexivity].
  destruct r0 as [|b1 [|b2 [|b3 r3]]]; try reflexivity.
  now destruct (is_cont (Byte.to_N b1) && is_cont (Byte.to_N b2)
                && is_cont (Byte.to_N b3)
                && (if Byte.to_N b0 =? 240 then 144 <=? Byte.to_N b1 else true)
                && (if Byte.to_N b0 =? 244 then Byte.to_N b1 <? 144 else true)).
Qed.

(** The first character takes one to four bytes off the input, and is read
    the same whatever follows them. *)
Lemma utf8_first_split b0 r0 cp r :
  utf8_first b0 r0 = Some (cp, r) ->
  exists m, r0 = m ++ r /\ (length m < 4)%nat /\
            (forall t, utf8_first b0 (m ++ t) = Some (cp, t)) /\
            (forall m', (length m' < length m)%nat ->
                        utf8_first b0 m' = None).
Proof.
  unfold utf8_first.
  destruct (Byte.to_N b0 <? 128).
  { intros H. inv H. exists []. repeat split; [simpl; lia|].
    intros m' Hm'. simpl in Hm'. lia. }
  destruct (Byte.to_N b0 <? 194); [discriminate|].
  destruct (Byte.to_N b0 <? 224).
  { destruct r0 as [|b1 r1]; [discriminate|].
    destruct (is_cont (Byte.to_N b1)) eqn:E1; [|discriminate].
    intros H. inv H. exists [b1]. repeat split; [simpl; lia | |].
    - intros t. cbn [app]. now rewrite E1.
    - intros [|x m'] Hm'; [reflexivity | simpl in Hm'; lia]. }
  destruct (Byte.to_N b0 <? 240).
  { destruct r0 as [|b1 [|b2 r2]]; try discriminate.
    destruct (is_cont (Byte.to_N b1) && is_cont (Byte.to_N b2)
              && (if Byte.to_N b0 =? 224 then 160 <=? Byte.to_N b1 else true)
              && (if Byte.to_N b0 =? 237 then Byte.to_N b1 <? 160 else true))
      eqn:E1; [|discriminate].
    intros H. inv H. exists [b1; b2]. repeat split; [simpl; lia | |].
    - intros t. cbn [app]. now rewrite E1.
    - intros [|x [|y m']] Hm'; try reflexivity. simpl in Hm'. lia. }
  destruct (Byte.to_N b0 <? 245); [|discriminate].
  destruct r0 as [|b1 [|b2 [|b3 r3]]]; try discriminate.
  destruct (is_cont (Byte.to_N b1) && is_cont (Byte.to_N b2)
            && is_cont (Byte.to_N b3)
            && (if Byte.to_N b0 =? 240 then 144 <=? Byte.to_N b1 else true)
            && (if Byte.to_N b0 =? 244 then Byte.to_N b1 <? 144 else true))
    eqn:E1; [|discriminate].
  intros H. inv H. exists [b1; b2; b3]. repeat split; [simpl; lia | |].
  - intros t. cbn [app]. now rewrite E1.
  - intros [|x [|y [|z m']]] Hm'; try reflexivity. simpl in Hm'. lia.
Qed.

Lemma option_map_app_nil (o : option str) : option_map (app []) o = o.
Proof. now destruct o. Qed.

(** Decoding a text and then more bytes is decoding the two apart: the
    encoding is a prefix code. *)
Lemma utf8_decode_app a :
  forall ta b,
    utf8_decode a = Some ta ->
    utf8_decode (a ++ b) = option_map (app ta) (utf8_decode b).
Proof.
  induction a as [a IH] using list_length_ind. intros ta b H.
  destruct a as [|b0 r0].
  - inv H. simpl. now rewrite option_map_app_nil.
  - rewrite utf8_decode_cons in H. cbn [app]. rewrite utf8_decode_cons.
    destruct (utf8_first b0 r0) as [[cp r]|] eqn:E; [|discriminate].
    apply utf8_first_split in E. destruct E as (m & -> & Hl & Hm & _).
    rewrite <- app_assoc, Hm.
    destruct (utf8_decode r) as [tr|] eqn:Er; [|discriminate].
    inv H. rewrite (IH r) with (ta := tr); [|simpl; rewrite length_app; lia|assumption].
    now destruct (utf8_decode b).
Qed.

Lemma utf8_decode_concat chunks texts :
  decoded chunks texts ->
  utf8_decode (concat chunks) = Some (concat texts).
Proof.
  induction 1 as [|c t chunks texts Hc _ IH]; [reflexivity|].
  simpl. rewrite (utf8_decode_app _ _ _ Hc), IH. reflexivity.
Qed.

Lemma utf8_decode_nil_inv x : utf8_decode x = Some [] -> x = [].
Proof.
  destruct x as [|b0 r0]; [reflexivity|].
  rewrite utf8_decode_cons.
  destruct (utf8_first b0 r0) as [[cp r]|]; [|discriminate].
  destruct (utf8_decode r); discriminate.
Qed.

(** A chunk that ends inside the bytes of one character does not decode. *)
Lemma utf8_decode_inside p q cp :
  utf8_decode (p ++ q) = Some [cp] -> p <> [] -> q <> [] ->
  utf8_decode p = None.
Proof.
  intros H Hp Hq. destruct p as [|b0 p']; [congruence|].
  cbn [app] in H. rewrite utf8_decode_cons in *.
  destruct (utf8_first b0 (p' ++ q)) as [[cp' r]|] eqn:E; [|discriminate].
  destruct (utf8_decode r) as [tr|] eqn:Er; [|discriminate].
  inv H. apply utf8_decode_nil_inv in Er. subst r.
  apply utf8_first_split in E. destruct E as (m & Hm & _ & _ & Hshort).
  rewrite app_nil_r in Hm. subst m.
  rewrite Hshort; [reflexivity|].
  rewrite length_app. destruct q; [congruence | simpl; lia].
Qed.

(** ** Chunks that do not decode *)

Lemma for_chunks_raise l1 :
  forall b c l2,
    utf8_decode c = None ->
    exists evs, for_chunks b (l1 ++ c :: l2) = evs ++ [Raise UnicodeDecodeError].
Proof.
  induction l1 as [|a l1 IH]; intros b c l2 Hc.
  - exists [Read c]. simpl. now rewrite Hc.
  - simpl. destruct (utf8_decode a) as [t|].
    + destruct (on_chunk b t) as [objs b'].
      destruct (IH b' c l2 Hc) as [evs Hevs]. rewrite Hevs.
      exists (Read a :: map Yield objs ++ evs).
      simpl. now rewrite <- app_assoc.
    + now exists [Read a].
Qed.

(** Either every chunk decodes or there is a first one that does not. *)
Lemma decoded_or_not chunks :
  (exists texts, decoded chunks texts) \/
  (exists l1 c l2, chunks = l1 ++ c :: l2 /\ utf8_decode c = None).
Proof.
  induction chunks as [|c chunks IH].
  - left. exists []. constructor.
  - destruct (utf8_decode c) as [t|] eqn:Hc.
    + destruct IH as [[texts H]|(l1 & c' & l2 & -> & Hc')].
      * left. exists (t :: texts). now constructor.
      * right. now exists (c :: l1), c', l2.
    + right. now exists [], c, chunks.
Qed.

(** ** The loop, whatever the buffer *)

(** The loop always ends on a decode that fails, and what it leaves is the
    text that failed. *)
Lemma loop_exit b : raw_decode (snd (loop b)) = inr JSONDecodeError.
Proof.
  induction b as [b IH] using list_length_ind.
  destruct (raw_decode b) as [[v idx]|e] eqn:Hd.
  - rewrite (loop_ok _ _ _ Hd). simpl.
    apply raw_decode_ok in Hd. destruct Hd as (m & r & -> & -> & Hne & _).
    apply IH. rewrite skipn_app, skipn_all, Nat.sub_diag. simpl.
    rewrite length_app. destruct m; [congruence | simpl; lia].
  - rewrite (loop_error _ _ Hd). simpl. rewrite Hd.
    apply raw_decode_error in Hd. now destruct Hd as [-> _].
Qed.

(** The text of a value, cut out of the buffer, decodes to the value. *)
Lemma raw_decode_text b v idx :
  raw_decode b = inl (v, idx) ->
  exists m r, b = m ++ r /\ length m = idx /\ m <> [] /\
              raw_decode m = inl (v, idx).
Proof.
  intros Hd. apply raw_decode_ok in Hd.
  destruct Hd as (m & r & -> & -> & Hne & _ & Ht).
  exists m, r. repeat split; try assumption.
  specialize (Ht []). rewrite app_nil_r in Ht. apply Ht.
  unfold value_stop. now destruct (is_number v).
Qed.

Lemma emitted_in_order_skip g T objs :
  emitted_in_order T objs -> emitted_in_order (g ++ T) objs.
Proof.
  intros H. destruct H as [T|skipped s T o objs Hs H].
  - constructor.
  - rewrite app_assoc. now constructor.
Qed.

Lemma loop_in_order b :
  forall T later,
    emitted_in_order (snd (loop b) ++ T) later ->
    emitted_in_order (b ++ T) (fst (loop b) ++ later).
Proof.
  induction b as [b IH] using list_length_ind. intros T later H.
  destruct (raw_decode b) as [[v idx]|e] eqn:Hd.
  - rewrite (loop_ok _ _ _ Hd) in *. simpl in *.
    apply raw_decode_text in Hd.
    destruct Hd as (m & r & -> & <- & Hne & Hm).
    assert (Hr : skipn (length m) (m ++ r) = r).
    { rewrite skipn_app, skipn_all, Nat.sub_diag. reflexivity. }
    rewrite Hr in *. rewrite <- app_assoc.
    apply (emitted_next [] m (r ++ T) v); [assumption|].
    apply IH; [|assumption].
    rewrite length_app. destruct m; [congruence | simpl; lia].
  - rewrite (loop_error _ _ Hd) in *. exact H.
Qed.

Lemma for_chunks_in_order chunks :
  forall b,
    emitted_in_order (b ++ logical_stream chunks) (yields (for_chunks b chunks)).
Proof.
  induction chunks as [|c chunks IH]; intros b; [constructor|].
  simpl. destruct (utf8_decode c) as [t|]; [|constructor].
  rewrite on_chunk_eq.
  destruct (loop (trim (b ++ t))) as [objs b'] eqn:Hl.
  rewrite yields_app, yields_map_Yield.
  destruct (trim_suffix (b ++ t)) as [g Hg].
  rewrite app_assoc, Hg, <- app_assoc.
  apply emitted_in_order_skip.
  replace objs with (fst (loop (trim (b ++ t)))) by now rewrite Hl.
  apply loop_in_order. rewrite Hl. apply IH.
Qed.

Lemma for_chunks_raise_inv chunks :
  forall b e,
    In (Raise e) (for_chunks b chunks) ->
    e = UnicodeDecodeError /\ exists c, In c chunks /\ utf8_decode c = None.
Proof.
  induction chunks as [|c chunks IH]; intros b e Hin.
  - simpl in Hin. destruct Hin as [Hin|[]]. discriminate.
  - simpl in Hin. destruct Hin as [Hin|Hin]; [discriminate|].
    destruct (utf8_decode c) as [t|] eqn:Hc.
    + destruct (on_chunk b t) as [objs b'].
      apply in_app_or in Hin. destruct Hin as [Hin|Hin].
      * apply in_map_iff in Hin. destruct Hin as (o & Ho & _). discriminate.
      * destruct (IH _ _ Hin) as [He (c' & Hc' & Hn)].
        split; [assumption|]. exists c'. split; [now right | assumption].
    + destruct Hin as [Hin|[]]. inv Hin.
      split; [reflexivity|]. exists c. split; [now left | assumption].
Qed.

(** ** Strings with control characters *)


(** * The scanner accepts the grammar *)

Lemma scanstring_complete strict b :
  string_body strict b ->
  forall acc rest,
    exists v, scanstring strict (b ++ Ch.quote :: rest) acc = Ok (v, rest).
Proof.
  induction b as [b IH] using list_length_ind. intros Hb acc rest.
  inversion Hb as [|c b' Hq Hbs Hctl Hb'|e b' He Hb'
                   |h1 h2 h3 h4 b' Hh Hb']; subst.
  - exists acc. now apply scanstring_quote.
  - apply N.eqb_neq in Hq, Hbs.
    cbn [app]. rewrite scanstring_plain by assumption.
    assert (Hc : (c <=? 31) && strict = false).
    { destruct strict; [now rewrite Hctl | now rewrite andb_false_r]. }
    rewrite Hc. apply IH; [simpl; lia | assumption].
  - cbn [app]. rewrite scanstring_escape.
    + destruct (BACKSLASH e) as [ch|]; [|congruence].
      apply IH; [simpl; lia | assumption].
    + reflexivity.
    + reflexivity.
    + destruct (N.eqb_spec e Ch.u); [|reflexivity]. subst e. now elim He.
  - cbn [app].
    destruct (decode_uXXXX h1 h2 h3 h4) as [uni|] eqn:E4; [|congruence].
    rewrite (scanstring_u _ _ _ _ _ _ _ uni) by (assumption || reflexivity).
    destruct (pair_follows uni (b' ++ Ch.quote :: rest)) eqn:Ep;
      [|apply IH; [simpl; lia | assumption]].
    (* a second escape follows *)
    assert (Hhead : exists y, b' ++ Ch.quote :: rest
                              = Ch.backslash :: Ch.u :: y).
    { destruct (b' ++ Ch.quote :: rest) as [|x0 [|x1 y]]; try discriminate.
      simpl in Ep. apply andb_prop in Ep. destruct Ep as [Ep E1].
      apply andb_prop in Ep. destruct Ep as [_ E0].
      apply N.eqb_eq in E0, E1. subst. now exists y. }
    destruct Hhead as [y Hy].
    inversion Hb' as [|c b2 Hq Hbs Hctl Hb2|e b2 He Hb2
                      |g1 g2 g3 g4 b2 Hg Hb2]; subst; cbn [app] in Hy.
    + inv Hy.
    + inv Hy. congruence.
    + inv Hy. now elim He.
    + cbn [app].
      destruct (decode_uXXXX g1 g2 g3 g4) as [uni2|]; [|congruence].
      destruct (is_low_surrogate uni2).
      * apply IH; [simpl; lia | assumption].
      * apply (IH (Ch.backslash :: Ch.u :: g1 :: g2 :: g3 :: g4 :: b2));
          [simpl; lia | assumption].
Qed.

Lemma match_unsigned_complete i y :
  int_text i -> stop is_digit y = true ->
  match_unsigned (i ++ y) = Some (i, y).
Proof.
  intros Hi Hy. destruct Hi as [|d ds Hd Hz Hds].
  - reflexivity.
  - unfold match_unsigned. cbn [app].
    apply N.eqb_neq in Hz. rewrite Hz, Hd.
    now rewrite span_digits_app.
Qed.

Lemma int_text_head i :
  int_text i -> exists d ds, i = d :: ds /\ is_digit d = true.
Proof.
  intros [|d ds Hd _ _]; [exists Ch.zero, [] | exists d, ds]; auto.
Qed.

Lemma match_integer_complete sign i y :
  sign = [] \/ sign = [Ch.minus] -> int_text i -> stop is_digit y = true ->
  match_integer ((sign ++ i) ++ y) = Some (sign ++ i, y).
Proof.
  intros Hs Hi Hy. unfold match_integer.
  destruct Hs as [->| ->]; cbn [app].
  - destruct (int_text_head _ Hi) as (d & ds & -> & Hd). cbn [app].
    replace (d =? Ch.minus) with false.
    + now apply (match_unsigned_complete (d :: ds)).
    + symmetry. apply N.eqb_neq. intros ->. discriminate.
  - change (Ch.minus =? Ch.minus) with true. cbv iota.
    now rewrite match_unsigned_complete.
Qed.

Lemma match_frac_complete f y :
  frac_text f -> stop (fun c => is_digit c || (c =? Ch.dot)) y = true ->
  match_frac (f ++ y) = (f, y).
Proof.
  intros Hf Hy. destruct Hf as [|d ds Hd Hds].
  - unfold match_frac. cbn [app].
    destruct y as [|c [|d y]]; try reflexivity.
    simpl in Hy. destruct (c =? Ch.dot); [|reflexivity].
    now rewrite orb_true_r in Hy.
  - unfold match_frac. cbn [app].
    change (Ch.dot =? Ch.dot) with true. rewrite Hd. cbn [andb].
    rewrite span_digits_app; [reflexivity | assumption |].
    destruct y as [|c y]; [reflexivity|]. simpl in *.
    now destruct (is_digit c).
Qed.

Lemma match_exp_complete ex y :
  exp_text ex ->
  stop (fun c => is_digit c || (c =? Ch.e) || (c =? Ch.E)) y = true ->
  match_exp (ex ++ y) = (ex, y).
Proof.
  intros He Hy.
  assert (Hdig : stop is_digit y = true).
  { destruct y as [|c y]; [reflexivity|]. simpl in *.
    now destruct (is_digit c). }
  destruct He as [|e sign d ds He Hs Hd Hds].
  - unfold match_exp. cbn [app].
    destruct y as [|c y]; [reflexivity|]. simpl in Hy.
    destruct ((c =? Ch.e) || (c =? Ch.E)) eqn:Ec; [|reflexivity].
    rewrite <- orb_assoc, Ec, orb_true_r in Hy. discriminate.
  - unfold match_exp. cbn [app].
    assert (Ee : (e =? Ch.e) || (e =? Ch.E) = true)
      by (destruct He as [-> | ->]; reflexivity).
    rewrite Ee.
    destruct Hs as [->|[->| ->]]; cbn [app].
    + replace ((d =? Ch.minus) || (d =? Ch.plus)) with false.
      * change (d :: ds ++ y) with ((d :: ds) ++ y).
        rewrite span_digits_app; [reflexivity | now constructor | assumption].
      * symmetry. apply orb_false_intro; apply N.eqb_neq; intros ->;
          discriminate.
    + change ((Ch.plus =? Ch.minus) || (Ch.plus =? Ch.plus)) with true.
      cbv iota. change (d :: ds ++ y) with ((d :: ds) ++ y).
      rewrite span_digits_app; [reflexivity | now constructor | assumption].
    + change ((Ch.minus =? Ch.minus) || (Ch.minus =? Ch.plus)) with true.
      cbv iota. change (d :: ds ++ y) with ((d :: ds) ++ y).
      rewrite span_digits_app; [reflexivity | now constructor | assumption].
Qed.

Lemma match_number_complete n t :
  number_text n -> number_stop t = true ->
  exists i f ex, match_number (n ++ t) = Some (i, f, ex, t).
Proof.
  intros Hn Ht. destruct Hn as [sign i f ex Hs Hi Hf He].
  exists (sign ++ i), f, ex. unfold match_number.
  assert (Ht3 : stop (fun c => is_digit c || (c =? Ch.e) || (c =? Ch.E)) t
                = true).
  { destruct t as [|c t]; [reflexivity|].
    unfold number_stop, is_number_char in Ht. simpl in *.
    destruct (is_digit c), (c =? Ch.e), (c =? Ch.E), (c =? Ch.dot);
      simpl in *; congruence. }
  assert (Ht2 : stop (fun c => is_digit c || (c =? Ch.dot)) (ex ++ t) = true).
  { destruct He as [|e sg d ds He _ _ _].
    - destruct t as [|c t]; [reflexivity|].
      unfold number_stop, is_number_char in Ht. simpl in *.
      destruct (is_digit c), (c =? Ch.e), (c =? Ch.E), (c =? Ch.dot);
        simpl in *; congruence.
    - destruct He as [-> | ->]; reflexivity. }
  assert (Ht1 : stop is_digit (f ++ ex ++ t) = true).
  { destruct Hf as [|d ds _ _].
    - simpl. destruct (ex ++ t) as [|c y]; [reflexivity|]. simpl in *.
      now destruct (is_digit c).
    - reflexivity. }
  replace ((sign ++ i ++ f ++ ex) ++ t)
    with ((sign ++ i) ++ f ++ ex ++ t) by now rewrite <- !app_assoc.
  rewrite (match_integer_complete _ _ _ Hs Hi Ht1).
  rewrite (match_frac_complete _ _ Hf Ht2).
  rewrite (match_exp_complete _ _ He Ht3). reflexivity.
Qed.

Lemma number_text_head n :
  number_text n ->
  exists c tl, n = c :: tl /\ (c =? Ch.minus) || is_digit c = true.
Proof.
  intros [sign i f e Hs Hi _ _].
  destruct (int_text_head _ Hi) as (d & ds & -> & Hd).
  destruct Hs as [-> | ->]; cbn [app].
  - exists d, (ds ++ f ++ e). split; [reflexivity|].
    rewrite Hd. apply orb_true_r.
  - eexists _, _. split; reflexivity.
Qed.

Lemma value_head_ws c : value_head c = true -> is_ws c = false.
Proof.
  intros H. destruct (is_ws c) eqn:E; [|reflexivity].
  apply is_ws_cases in E. destruct E as [->|[->|[->| ->]]]; discriminate.
Qed.

Lemma value_head_rbracket c :
  value_head c = true -> (Ch.rbracket =? c) = false.
Proof.
  intros H. destruct (N.eqb_spec Ch.rbracket c); [|reflexivity].
  subst c. discriminate.
Qed.

Lemma json_head strict v :
  json strict v -> exists c tl, v = c :: tl /\ value_head c = true.
Proof.
  intros H.
  destruct H as [b _|n Hn| | | | | | |w _|w items _ _|w _|w ms _ _];
    try (eexists _, _; split; reflexivity).
  destruct (number_text_head _ Hn) as (c & tl & -> & Hc).
  exists c, tl. split; [reflexivity|]. unfold value_head.
  apply orb_prop in Hc. destruct Hc as [-> | ->];
    rewrite ?orb_true_r; reflexivity.
Qed.

Lemma json_items_head strict xs :
  json_items strict xs -> exists c tl, xs = c :: tl /\ value_head c = true.
Proof.
  intros H.
  destruct H as [v w Hv _|v w1 w2 rest Hv _ _ _];
    destruct (json_head _ _ Hv) as (c & tl & -> & Hc);
    eexists _, _; (split; [reflexivity | exact Hc]).
Qed.

Lemma skip_ws_value w c tl :
  all_ws w -> value_head c = true -> skip_ws (w ++ c :: tl) = c :: tl.
Proof.
  intros Hw Hc. apply skip_ws_app; [assumption|].
  simpl. now rewrite (value_head_ws _ Hc).
Qed.

Lemma scan_once_number strict f n t :
  number_text n -> number_stop t = true ->
  exists v, scan_once strict (S f) (n ++ t) = Ok (v, t).
Proof.
  intros Hn Ht.
  destruct (match_number_complete _ _ Hn Ht) as (i & fr & ex & Hm).
  destruct (number_text_head _ Hn) as (c & tl & -> & Hc).
  cbn [scan_once app] in *. unfold scan_once_body.
  assert (Hlit : forall a w, (a =? Ch.minus) || is_digit a = false ->
                             starts_with (a :: w) (c :: tl ++ t) = None).
  { intros a w Ha. simpl. destruct (N.eqb_spec a c); [|reflexivity].
    subst a. congruence. }
  assert (Hne : forall a, (a =? Ch.minus) || is_digit a = false ->
                          (c =? a) = false).
  { intros a Ha. destruct (N.eqb_spec c a); [|reflexivity].
    subst a. congruence. }
  rewrite !Hne by reflexivity.
  change (lit "null") with (110 :: lit "ull").
  change (lit "true") with (116 :: lit "rue").
  change (lit "false") with (102 :: lit "alse").
  rewrite !Hlit by reflexivity. rewrite Hm.
  destruct fr, ex; eexists; reflexivity.
Qed.

(** Every text of the grammar is scanned to its end, given a fuel above
    the length of the input. *)
Lemma scan_once_complete strict :
  (forall s, json strict s ->
     forall t f, number_stop t = true -> (length (s ++ t) < f)%nat ->
       exists v, scan_once strict f (s ++ t) = Ok (v, t)) /\
  (forall xs, json_items strict xs ->
     forall t f n values,
       (length (xs ++ t) < f)%nat -> (length (xs ++ t) < n)%nat ->
       exists v, array_items (scan_once strict f) n (xs ++ t) values
                 = Ok (v, t)) /\
  (forall ms, json_members strict ms ->
     forall t f n pairs,
       (length (ms ++ t) < f)%nat -> (length (ms ++ t) < n)%nat ->
       exists v, object_members strict (scan_once strict f) n (ms ++ t) pairs
                 = Ok (v, t)).
Proof.
  apply json_mutual.
  - (* string *)
    intros b Hb t f _ Hf. destruct f as [|f]; [lia|].
    destruct (scanstring_complete _ _ Hb [] t) as [v Hv].
    exists (PyStr v). cbn [scan_once app]. rewrite <- app_assoc. cbn [app].
    unfold scan_once_body. change (Ch.quote =? Ch.quote) with true. cbv iota.
    now rewrite Hv.
  - (* number *)
    intros n Hn t f Ht Hf. destruct f as [|f]; [lia|].
    now apply scan_once_number.
  - intros t f _ Hf. destruct f as [|f]; [lia|]. eexists. reflexivity.
  - intros t f _ Hf. destruct f as [|f]; [lia|]. eexists. reflexivity.
  - intros t f _ Hf. destruct f as [|f]; [lia|]. eexists. reflexivity.
  - intros t f _ Hf. destruct f as [|f]; [lia|]. eexists. reflexivity.
  - intros t f _ Hf. destruct f as [|f]; [lia|]. eexists. reflexivity.
  - intros t f _ Hf. destruct f as [|f]; [lia|]. eexists. reflexivity.
  - (* empty array *)
    intros w Hw t f _ Hf. destruct f as [|f]; [lia|].
    exists (PyList []). cbn [scan_once app]. rewrite <- app_assoc. cbn [app].
    unfold scan_once_body.
    change (Ch.lbracket =? Ch.quote) with false.
    change (Ch.lbracket =? Ch.lbrace) with false.
    change (Ch.lbracket =? Ch.lbracket) with true. cbv iota.
    unfold JSONArray. rewrite skip_ws_app by (assumption || reflexivity).
    reflexivity.
  - (* array *)
    intros w items Hw Hitems IH t f _ Hf. destruct f as [|f]; [lia|].
    destruct (json_items_head _ _ Hitems) as (c & tl & -> & Hc).
    destruct (IH t f f []) as [v Hv]; [len ..|].
    exists v. cbn [scan_once app]. rewrite <- app_assoc. cbn [app] in *.
    unfold scan_once_body.
    change (Ch.lbracket =? Ch.quote) with false.
    change (Ch.lbracket =? Ch.lbrace) with false.
    change (Ch.lbracket =? Ch.lbracket) with true. cbv iota.
    unfold JSONArray. rewrite skip_ws_value by assumption.
    cbn [starts_with]. rewrite (value_head_rbracket _ Hc). exact Hv.
  - (* empty object *)
    intros w Hw t f _ Hf. destruct f as [|f]; [lia|].
    exists (PyDict []). cbn [scan_once app]. rewrite <- app_assoc. cbn [app].
    unfold scan_once_body.
    change (Ch.lbrace =? Ch.quote) with false.
    change (Ch.lbrace =? Ch.lbrace) with true. cbv iota.
    unfold JSONObject. rewrite skip_ws_app by (assumption || reflexivity).
    reflexivity.
  - (* object *)
    intros w ms Hw Hms IH t f _ Hf. destruct f as [|f]; [lia|].
    destruct (IH t f f []) as [v Hv]; [len ..|].
    exists v. cbn [scan_once app]. rewrite <- app_assoc. cbn [app].
    unfold scan_once_body.
    change (Ch.lbrace =? Ch.quote) with false.
    change (Ch.lbrace =? Ch.lbrace) with true. cbv iota.
    unfold JSONObject. rewrite skip_ws_app by (assumption || reflexivity).
    change (Ch.quote =? Ch.quote) with true. cbv iota. exact Hv.
  - (* last item *)
    intros v w Hv IH Hw t f n values Hf Hn. destruct n as [|n]; [lia|].
    norm_app.
    destruct (IH (w ++ Ch.rbracket :: t) f) as [x Hx];
      [now apply number_stop_delim | assumption |].
    exists (PyList (values ++ [x])).
    cbn [array_items]. rewrite Hx. cbn [expecting_value bind].
    rewrite skip_ws_app by (assumption || reflexivity).
    reflexivity.
  - (* an item and more *)
    intros v w1 w2 rest Hv IHv Hw1 Hw2 Hrest IH t f n values Hf Hn.
    destruct n as [|n]; [lia|].
    destruct (json_items_head _ _ Hrest) as (c & tl & -> & Hc).
    norm_app.
    destruct (IHv (w1 ++ Ch.comma :: w2 ++ c :: tl ++ t) f) as [x Hx];
      [now apply number_stop_delim | assumption |].
    destruct (IH t f n (values ++ [x])) as [y Hy]; [len ..|].
    exists y.
    cbn [array_items]. rewrite Hx. cbn [expecting_value bind].
    rewrite skip_ws_app by (assumption || reflexivity).
    change (Ch.comma =? Ch.rbracket) with false.
    change (Ch.comma =? Ch.comma) with true. cbv iota.
    rewrite skip_ws_value by assumption. exact Hy.
  - (* last member *)
    intros key w1 w2 v w3 Hkey Hw1 Hw2 Hv IH Hw3 t f n pairs Hf Hn.
    destruct n as [|n]; [lia|].
    destruct (json_head _ _ Hv) as (c & tl & -> & Hc).
    norm_app.
    destruct (scanstring_complete _ _ Hkey []
                (w1 ++ Ch.colon :: w2 ++ c :: tl ++ w3 ++ Ch.rbrace :: t))
      as [k Hk].
    destruct (IH (w3 ++ Ch.rbrace :: t) f) as [x Hx];
      [now apply number_stop_delim | len |].
    exists (PyDict (dict (pairs ++ [(k, x)]))).
    cbn [object_members]. rewrite Hk. cbn [bind].
    rewrite skip_ws_app by (assumption || reflexivity).
    change (Ch.colon =? Ch.colon) with true. cbv iota.
    rewrite skip_ws_value by assumption.
    rewrite Hx. cbn [expecting_value bind].
    rewrite skip_ws_app by (assumption || reflexivity).
    reflexivity.
  - (* a member and more *)
    intros key w1 w2 v w3 w4 rest Hkey Hw1 Hw2 Hv IHv Hw3 Hw4 Hrest IH
           t f n pairs Hf Hn.
    destruct n as [|n]; [lia|].
    destruct (json_head _ _ Hv) as (c & tl & -> & Hc).
    norm_app.
    destruct (scanstring_complete _ _ Hkey []
                (w1 ++ Ch.colon :: w2 ++ c :: tl ++ w3
                    ++ Ch.comma :: w4 ++ Ch.quote :: rest ++ t))
      as [k Hk].
    destruct (IHv (w3 ++ Ch.comma :: w4 ++ Ch.quote :: rest ++ t) f)
      as [x Hx]; [now apply number_stop_delim | len |].
    destruct (IH t f n (pairs ++ [(k, x)])) as [y Hy]; [len ..|].
    exists y.
    cbn [object_members]. rewrite Hk. cbn [bind].
    rewrite skip_ws_app by (assumption || reflexivity).
    change (Ch.colon =? Ch.colon) with true. cbv iota.
    rewrite skip_ws_value by assumption.
    cbn [app] in Hx. rewrite Hx. cbn [expecting_value bind].
    rewrite skip_ws_app by (assumption || reflexivity).
    change (Ch.comma =? Ch.rbrace) with false.
    change (Ch.comma =? Ch.comma) with true. cbv iota.
    rewrite skip_ws_app by (assumption || reflexivity).
    change (Ch.quote =? Ch.quote) with true. cbv iota. exact Hy.
Qed.

(** * The objects of the grammar are decoded *)

Lemma json_decodes strict s :
  json strict s -> exists v, raw_decode_with strict s = inl (v, length s).
Proof.
  intros Hs.
  destruct (proj1 (scan_once_complete strict) s Hs [] (S (length s)))
    as [v Hv]; [reflexivity | rewrite app_nil_r; lia |].
  exists v. unfold raw_decode_with. rewrite app_nil_r in Hv. rewrite Hv.
  simpl. now rewrite Nat.sub_0_r.
Qed.

Lemma json_object_text s : json_object s -> exists o, object_text s o.
Proof.
  intros [Hs Hb]. destruct (json_decodes _ _ Hs) as [o Ho].
  exists o. now split.
Qed.

Lemma json_objects_text texts :
  Forall json_object texts ->
  exists docs, map fst docs = texts /\ object_texts docs
               /\ Forall2 object_text texts (map snd docs).
Proof.
  induction 1 as [|s texts Hs _ (docs & Hm & Hd & Hf)].
  - exists []. repeat split; constructor.
  - destruct (json_object_text _ Hs) as [o Ho].
    exists ((s, o) :: docs). simpl. repeat split.
    + now rewrite Hm.
    + now constructor.
    + now constructor.
Qed.

Lemma plain_string_body s : plain s -> string_body false s.
Proof.
  induction 1 as [|c s [Hq Hb] _ IH]; constructor; try assumption.
  discriminate.
Qed.

(** An object with one member. *)
Lemma json_object_single key v :
  string_body false key -> json false v ->
  json_object (Ch.lbrace :: Ch.quote :: key ++ Ch.quote :: Ch.colon
                 :: v ++ [Ch.rbrace]).
Proof.
  intros Hk Hv. split; [|eexists; reflexivity].
  apply (json_object_members false [] _ (Forall_nil _)).
  apply (members_last false key [] [] v []); try assumption; constructor.
Qed.

Lemma one_member_json key body :
  plain key -> plain body -> json_object (one_member key body).
Proof.
  intros Hk Hb.
  assert (E : one_member key body
              = Ch.lbrace :: Ch.quote :: key ++ Ch.quote :: Ch.colon
                  :: (Ch.quote :: body ++ [Ch.quote]) ++ [Ch.rbrace]).
  { unfold one_member. cbn [app]. now rewrite <- app_assoc. }
  rewrite E. apply json_object_single.
  - now apply plain_string_body.
  - constructor. now apply plain_string_body.
Qed.

(** A number of one digit. *)
Lemma json_digit strict d : is_digit d = true -> json strict [d].
Proof.
  intros Hd. apply json_number.
  assert (Hi : int_text [d]).
  { destruct (N.eqb_spec d Ch.zero) as [->|Hz]; [constructor|].
    apply int_digits; [assumption | assumption | constructor]. }
  exact (number_intro [] [d] [] [] (or_introl eq_refl) Hi frac_none exp_none).
Qed.

(** * The claims *)

Lemma object_text_length s o : object_text s o -> (0 < length s)%nat.
Proof. intros [[tl ->] _]. simpl. lia. Qed.

Lemma short_nil docs : object_texts docs -> short docs [].
Proof.
  intros H. destruct H as [|d docs Hd _]; [exact I|].
  simpl. now apply object_text_length in Hd.
Qed.

(** Boundary independence where the cuts fall between characters: the
    chunks, fed one by one, yield the objects of the stream, and so does the
    whole stream fed as one chunk. *)
Lemma boundary_independence chunks texts objects :
  decoded chunks texts -> Forall json_object objects ->
  concat texts = concat objects ->
  exists objs,
    Forall2 object_text objects objs /\
    yields (parse_json_stream chunks) = objs /\
    yields (parse_json_stream [concat chunks]) = objs.
Proof.
  intros Hdec Hobj Hcat.
  destruct (json_objects_text _ Hobj) as (docs & <- & Hdocs & Hall).
  exists (map snd docs). repeat split; [assumption | |].
  - apply (for_chunks_objects chunks texts docs [] []); auto.
    + now rewrite app_nil_r.
    + now apply short_nil.
  - apply (for_chunks_objects [concat chunks] [concat texts] docs [] []); auto.
    + repeat constructor. now apply utf8_decode_concat.
    + simpl. now rewrite !app_nil_r.
    + now apply short_nil.
Qed.

(** A stream whose last object is truncated, cut between characters: the
    complete objects are yielded, nothing more, and the run ends without an
    exception. *)
Lemma truncated_stream chunks texts objects last p rest :
  decoded chunks texts -> Forall json_object objects ->
  json_object last -> last = p ++ rest -> rest <> [] ->
  concat texts = concat objects ++ p ->
  exists objs,
    Forall2 object_text objects objs /\
    yields (parse_json_stream chunks) = objs /\
    exists pre, parse_json_stream chunks = pre ++ [Done].
Proof.
  intros Hdec Hobj Hlast Hp Hrest Hcat.
  destruct (json_objects_text _ Hobj) as (docs & <- & Hdocs & Hall).
  destruct (json_object_text _ Hlast) as [o Ho].
  exists (map snd docs). split; [assumption|].
  apply (for_chunks_objects chunks texts docs p []); auto.
  - right. now exists last, o, rest.
  - now apply short_nil.
Qed.

(** One chunk made of complete objects, from an empty buffer. *)
Lemma on_chunk_objects (docs : list (str * pyobj)) :
  object_texts docs ->
  on_chunk [] (concat (map fst docs)) = (map snd docs, []).
Proof.
  intros Hdocs. rewrite on_chunk_eq. cbn [app].
  assert (Hb : concat (map fst docs) ++ [] = concat (map fst docs) ++ [])
    by reflexivity.
  rewrite (trim_prefix docs [] _ [] Hdocs (or_introl eq_refl) Hb).
  destruct (loop_objects docs _ [] [] Hdocs (or_introl eq_refl) Hb)
    as (done & todo & b' & -> & Hloop & Hb' & Hshort).
  rewrite Hloop.
  destruct todo as [|[s o] todo].
  - rewrite !app_nil_r in *. now subst b'.
  - exfalso. simpl in *. rewrite !app_nil_r in Hb'. subst b'.
    rewrite !length_app in Hshort. lia.
Qed.

(** C1 (boundary independence) fails on the code: a cut inside the two bytes
    of a character makes [chunk.decode] raise on the first chunk, and nothing
    is yielded, while the whole stream fed as one chunk yields its object. *)
Theorem C1_cut_inside_character :
  let c1 := blit "{'a':'" ++ [xc3] in
  let c2 := [xa9] ++ blit "'}" in
  yields (parse_json_stream [c1 ++ c2])
  = [PyDict [(lit "a", PyStr [233%N])]] /\
  parse_json_stream [c1; c2] = [Read c1; Raise UnicodeDecodeError].
Proof. split; vm_compute; reflexivity. Qed.

(** C2 (order preservation, at most one emission): for every sequence of
    chunks, the objects yielded are decoded from separate pieces of the
    logical stream, one piece per object, and the pieces follow one another
    in the stream in the order of the yields. *)
Theorem C2_order_preserved (chunks : list bytes) :
  emitted_in_order (logical_stream chunks) (yields (parse_json_stream chunks)).
Proof.
  unfold parse_json_stream.
  change (logical_stream chunks) with ([] ++ logical_stream chunks).
  apply for_chunks_in_order.
Qed.

(** C3 (truncated end of stream) fails on the code: the stream below ends
    with a truncated object after a complete one; fed as one chunk it yields
    the complete object and ends without an exception, but with the first
    chunk ending inside a character [chunk.decode] raises and nothing is
    yielded. *)
Theorem C3_truncated_stream_raises :
  let c1 := blit "{'a':'" ++ [xc3] in
  let c2 := [xa9] ++ blit "'}{'b':" in
  parse_json_stream [c1 ++ c2]
  = [Read (c1 ++ c2); Yield (PyDict [(lit "a", PyStr [233%N])]); Done] /\
  parse_json_stream [c1; c2] = [Read c1; Raise UnicodeDecodeError].
Proof. split; vm_compute; reflexivity. Qed.

(** C5 (trim to the object start) fails on the code: when the buffer has no
    brace, [find] returns -1 and the slice keeps the last character; a digit
    left this way is decoded and yielded. *)
Theorem C5_last_character_kept :
  find (lit "junk7") Ch.lbrace = (-1)%Z /\
  trim (lit "junk7") = lit "7" /\
  parse_json_stream [blit "junk7"; blit "{'x':true}"]
  = [Read (blit "junk7"); Yield (PyInt 7);
     Read (blit "{'x':true}"); Yield (PyDict [(lit "x", PyBool true)]);
     Done].
Proof. repeat split; vm_compute; reflexivity. Qed.

(** C6 (exact consumption): when the decode succeeds with index [idx], the
    buffer is the text of the value, of length [idx], followed by a rest;
    the loop yields the value and goes on with exactly that rest. *)
Theorem C6_exact_consumption (buffer : str) (obj : pyobj) (idx : nat) :
  raw_decode buffer = inl (obj, idx) ->
  exists text rest,
    buffer = text ++ rest /\ length text = idx /\ (0 < idx)%nat /\
    raw_decode text = inl (obj, idx) /\
    slice_from buffer (Z.of_nat idx) = rest /\
    (forall fuel,
        while_true (S fuel) buffer
        = (obj :: fst (while_true fuel rest), snd (while_true fuel rest))) /\
    loop buffer = (obj :: fst (loop rest), snd (loop rest)).
Proof.
  intros Hd. pose proof (loop_ok _ _ _ Hd) as Hloop.
  destruct (raw_decode_text _ _ _ Hd) as (m & r & -> & <- & Hne & Hm).
  assert (Hr : skipn (length m) (m ++ r) = r).
  { rewrite skipn_app, skipn_all, Nat.sub_diag. reflexivity. }
  exists m, r. repeat split; try assumption.
  - destruct m; [congruence | simpl; lia].
  - apply slice_from_app.
  - intros fuel. simpl. rewrite Hd, slice_from_app.
    now destruct (while_true fuel r).
  - now rewrite Hr in Hloop.
Qed.

Lemma C6_exact_consumption_witness :
  exists text rest,
    lit "{'a':1}{'b':" = text ++ rest /\ length text = 7%nat /\
    (0 < 7)%nat /\
    raw_decode text = inl (PyDict [(lit "a", PyInt 1)], 7%nat) /\
    slice_from (lit "{'a':1}{'b':") (Z.of_nat 7) = rest /\
    (forall fuel,
        while_true (S fuel) (lit "{'a':1}{'b':")
        = (PyDict [(lit "a", PyInt 1)] :: fst (while_true fuel rest),
           snd (while_true fuel rest))) /\
    loop (lit "{'a':1}{'b':")
    = (PyDict [(lit "a", PyInt 1)] :: fst (loop rest), snd (loop rest)).
Proof.
  apply (C6_exact_consumption (lit "{'a':1}{'b':")).
  vm_compute. reflexivity.
Defined.

(** C7 (back-to-back objects in one chunk): a chunk that holds the texts of
    JSON objects with nothing between them yields the objects they decode
    to, all of them and in order, before the generator asks for another
    chunk. *)
Theorem C7_back_to_back (chunk : bytes) (objects : list str) :
  Forall json_object objects ->
  utf8_decode chunk = Some (concat objects) ->
  exists objs,
    Forall2 object_text objects objs /\
    parse_json_stream [chunk] = Read chunk :: map Yield objs ++ [Done].
Proof.
  intros Hobj Hc.
  destruct (json_objects_text _ Hobj) as (docs & <- & Hdocs & Hall).
  exists (map snd docs). split; [assumption|].
  unfold parse_json_stream. simpl.
  now rewrite Hc, (on_chunk_objects _ Hdocs).
Qed.

Lemma C7_back_to_back_witness :
  exists objs,
    Forall2 object_text [lit "{'a':1}"; lit "{'b':2}"; lit "{'c':3}"] objs /\
    parse_json_stream [blit "{'a':1}{'b':2}{'c':3}"]
    = Read (blit "{'a':1}{'b':2}{'c':3}") :: map Yield objs ++ [Done].
Proof.
  apply (C7_back_to_back (blit "{'a':1}{'b':2}{'c':3}")
           [lit "{'a':1}"; lit "{'b':2}"; lit "{'c':3}"]).
  - assert (Hobj : forall k d,
               plain [k] -> is_digit d = true ->
               json_object (Ch.lbrace :: Ch.quote :: [k] ++ Ch.quote
                              :: Ch.colon :: [d] ++ [Ch.rbrace])).
    { intros k d Hk Hd. apply json_object_single;
        [now apply plain_string_body | now apply json_digit]. }
    assert (Hplain : forall k, k <> Ch.quote -> k <> Ch.backslash -> plain [k])
      by (intros k H1 H2; repeat constructor; assumption).
    apply Forall_cons; [|apply Forall_cons; [|apply Forall_cons; [|constructor]]].
    + apply (Hobj 97 49); [apply Hplain; discriminate | reflexivity].
    + apply (Hobj 98 50); [apply Hplain; discriminate | reflexivity].
    + apply (Hobj 99 51); [apply Hplain; discriminate | reflexivity].
  - vm_compute. reflexivity.
Defined.



(** C9 (a cut inside a character): when a chunk ends inside the bytes of a
    multi-byte character, the run ends with [UnicodeDecodeError] leaving the
    generator, whatever the chunks before and after. *)
Theorem C9_cut_inside_character
        (before after : list bytes) (chunk text p q : bytes)
        (decoded_text : str) (cp : N) :
  concat (before ++ [chunk]) = text ++ p ->
  utf8_decode text = Some decoded_text ->
  utf8_decode (p ++ q) = Some [cp] -> p <> [] -> q <> [] ->
  exists evs,
    parse_json_stream (before ++ chunk :: after)
    = evs ++ [Raise UnicodeDecodeError].
Proof.
  intros Hcat Htext Hchar Hp Hq.
  assert (Hbad : utf8_decode (concat (before ++ [chunk])) = None).
  { rewrite Hcat, (utf8_decode_app _ _ _ Htext).
    now rewrite (utf8_decode_inside _ _ _ Hchar Hp Hq). }
  destruct (decoded_or_not (before ++ [chunk]))
    as [[texts Hdec]|(l1 & c & l2 & Hl & Hc)].
  - apply utf8_decode_concat in Hdec. congruence.
  - replace (before ++ chunk :: after) with (l1 ++ c :: (l2 ++ after)).
    + now apply for_chunks_raise.
    + change (c :: l2 ++ after) with ((c :: l2) ++ after).
      rewrite app_assoc, <- Hl, <- app_assoc. reflexivity.
Qed.

Lemma C9_cut_inside_character_witness :
  exists evs,
    parse_json_stream ([] ++ (blit "{'a':'" ++ [xc3]) :: [[xa9] ++ blit "'}"])
    = evs ++ [Raise UnicodeDecodeError].
Proof.
  apply (C9_cut_inside_character [] [[xa9] ++ blit "'}"]
           (blit "{'a':'" ++ [xc3]) (blit "{'a':'") [xc3] [xa9]
           (lit "{'a':'") 233).
  - vm_compute. reflexivity.
  - vm_compute. reflexivity.
  - vm_compute. reflexivity.
  - discriminate.
  - discriminate.
Defined.

Lemma ws_not_lbrace w : all_ws w -> Forall (fun c => c <> Ch.lbrace) w.
Proof.
  intros H. induction H as [|c w Hc _ IH]; constructor; [|assumption].
  intros ->. discriminate.
Qed.

(** C10 (white space between two objects of one chunk): the first object is
    yielded, the second is not before another chunk arrives; if none does,
    the run ends without it; if one does, the second object is the first
    thing yielded after it. *)
Theorem C10_space_between_objects (chunk : bytes) (first second w : str) :
  json_object first -> json_object second -> all_ws w -> w <> [] ->
  utf8_decode chunk = Some (first ++ w ++ second) ->
  exists o1 o2,
    object_text first o1 /\ object_text second o2 /\
    parse_json_stream [chunk] = [Read chunk; Yield o1; Done] /\
    forall next text,
      utf8_decode next = Some text ->
      exists evs,
        parse_json_stream [chunk; next]
        = Read chunk :: Yield o1 :: Read next :: Yield o2 :: evs.
Proof.
  intros Hfirst Hsecond Hw Hne Hc.
  destruct (json_object_text _ Hfirst) as [o1 H1].
  destruct (json_object_text _ Hsecond) as [o2 H2].
  exists o1, o2. split; [assumption|]. split; [assumption|].
  assert (Hon : on_chunk [] (first ++ w ++ second) = ([o1], w ++ second)).
  { rewrite on_chunk_eq. cbn [app].
    assert (Ht : trim (first ++ w ++ second) = first ++ w ++ second)
      by (destruct H1 as [[tl1 ->] _]; reflexivity).
    rewrite Ht.
    rewrite (loop_ok _ o1 (length first)) by now apply object_text_extend.
    assert (Hr : skipn (length first) (first ++ w ++ second) = w ++ second).
    { rewrite skipn_app, skipn_all, Nat.sub_diag. reflexivity. }
    rewrite Hr.
    destruct Hw as [|c w Hcw Hw']; [congruence|].
    rewrite (loop_error _ JSONDecodeError); [reflexivity|].
    now apply raw_decode_ws. }
  split.
  - unfold parse_json_stream. simpl. now rewrite Hc, Hon.
  - intros next text Hn.
    unfold parse_json_stream. simpl. rewrite Hc, Hon, Hn.
    rewrite on_chunk_eq.
    assert (Ht : trim ((w ++ second) ++ text) = second ++ text).
    { destruct H2 as [[tl2 ->] _]. rewrite <- app_assoc. cbn [app].
      apply trim_skip. now apply ws_not_lbrace. }
    rewrite Ht.
    rewrite (loop_ok _ o2 (length second)) by now apply object_text_extend.
    simpl. eexists. reflexivity.
Qed.

Lemma C10_space_between_objects_witness :
  exists o1 o2,
    object_text (one_member (lit "a") (lit "x")) o1 /\
    object_text (one_member (lit "b") (lit "y")) o2 /\
    parse_json_stream [blit "{'a':'x'} {'b':'y'}"]
    = [Read (blit "{'a':'x'} {'b':'y'}"); Yield o1; Done] /\
    forall next text,
      utf8_decode next = Some text ->
      exists evs,
        parse_json_stream [blit "{'a':'x'} {'b':'y'}"; next]
        = Read (blit "{'a':'x'} {'b':'y'}") :: Yield o1
          :: Read next :: Yield o2 :: evs.
Proof.
  apply (C10_space_between_objects (blit "{'a':'x'} {'b':'y'}")
           (one_member (lit "a") (lit "x")) (one_member (lit "b") (lit "y"))
           (lit " ")).
  - apply one_member_json; repeat constructor; discriminate.
  - apply one_member_json; repeat constructor; discriminate.
  - repeat constructor.
  - discriminate.
  - vm_compute. reflexivity.
Defined.

(** * Further properties of the generator *)

(** ** Chunk boundaries *)

Lemma utf8_decode_ascii bs :
  ascii bs -> utf8_decode bs = Some (map Byte.to_N bs).
Proof.
  induction 1 as [|b bs Hb _ IH]; [reflexivity|].
  cbn [utf8_decode map]. rewrite Hb, IH. reflexivity.
Qed.












(** X5 (the inner loop ends): every object the loop yields takes at least
    one character off the front of the buffer, so the loop yields at most
    as many objects as it consumes characters, what it leaves is the end of
    the buffer, and no bound above the length of the buffer changes its
    outcome. *)
Theorem X5_loop_ends (buffer : str) :
  (exists consumed,
      buffer = consumed ++ snd (loop buffer) /\
      (length (fst (loop buffer)) <= length consumed)%nat) /\
  forall fuel, (length buffer < fuel)%nat -> while_true fuel buffer = loop buffer.
Proof.
  split.
  - induction buffer as [b IH] using list_length_ind.
    destruct (raw_decode b) as [[v idx]|e] eqn:Hd.
    + rewrite (loop_ok _ _ _ Hd). cbn [fst snd].
      apply raw_decode_ok in Hd. destruct Hd as (m & r & -> & -> & Hne & _).
      assert (Hr : skipn (length m) (m ++ r) = r).
      { rewrite skipn_app, skipn_all, Nat.sub_diag. reflexivity. }
      rewrite Hr.
      assert (Hm : (0 < length m)%nat) by (destruct m; [congruence | simpl; lia]).
      destruct (IH r) as (consumed & Hc & Hlen); [rewrite length_app; lia|].
      exists (m ++ consumed). split.
      * rewrite <- app_assoc. now rewrite <- Hc.
      * rewrite length_app. simpl. lia.
    + rewrite (loop_error _ _ Hd). exists []. split; [reflexivity | simpl; lia].
  - intros fuel Hf. unfold loop. apply while_true_enough; lia.
Qed.

(** ** The cut at the first brace *)

Lemma find_absent s c : ~ In c s -> find s c = (-1)%Z.
Proof.
  induction s as [|x s IH]; intros H; [reflexivity|].
  cbn [find]. destruct (N.eqb_spec x c) as [->|Hx].
  - exfalso. apply H. now left.
  - rewrite IH; [reflexivity|]. intros Hin. apply H. now right.
Qed.

Lemma first_brace s :
  In Ch.lbrace s ->
  exists pre tl, s = pre ++ Ch.lbrace :: tl /\
                 Forall (fun c => c <> Ch.lbrace) pre.
Proof.
  induction s as [|x s IH]; intros H; [destruct H|].
  destruct (N.eq_dec x Ch.lbrace) as [->|Hx].
  - exists [], s. split; [reflexivity | constructor].
  - destruct H as [H|H]; [congruence|].
    destruct (IH H) as (pre & tl & -> & Hpre).
    exists (x :: pre), tl. split; [reflexivity | now constructor].
Qed.

Lemma trim_absent s :
  ~ In Ch.lbrace s -> trim s = skipn (length s - 1) s.
Proof.
  intros H. unfold trim. rewrite (find_absent _ _ H).
  unfold slice_from. cbn [Z.ltb Z.compare].
  f_equal. lia.
Qed.

(** X6 (the cut at the first brace): when the buffer holds a brace, the cut
    removes exactly what comes before the first one; when it holds none, the
    cut keeps the last character of the buffer and nothing else; cutting
    twice is cutting once. *)
Theorem X6_trim_shape (buffer : str) :
  (In Ch.lbrace buffer ->
   exists pre tl,
     buffer = pre ++ Ch.lbrace :: tl /\
     Forall (fun c => c <> Ch.lbrace) pre /\
     trim buffer = Ch.lbrace :: tl) /\
  (~ In Ch.lbrace buffer ->
   trim buffer = skipn (length buffer - 1) buffer /\
   (length (trim buffer) <= 1)%nat) /\
  trim (trim buffer) = trim buffer.
Proof.
  assert (H1 : In Ch.lbrace buffer ->
               exists pre tl,
                 buffer = pre ++ Ch.lbrace :: tl /\
                 Forall (fun c => c <> Ch.lbrace) pre /\
                 trim buffer = Ch.lbrace :: tl).
  { intros H. destruct (first_brace _ H) as (pre & tl & -> & Hpre).
    exists pre, tl. repeat split; [assumption | now apply trim_skip]. }
  assert (H2 : ~ In Ch.lbrace buffer ->
               trim buffer = skipn (length buffer - 1) buffer /\
               (length (trim buffer) <= 1)%nat).
  { intros H. rewrite (trim_absent _ H). split; [reflexivity|].
    rewrite length_skipn. lia. }
  repeat split; try assumption; try (now apply H2).
  destruct (in_dec N.eq_dec Ch.lbrace buffer) as [Hin|Hin].
  - destruct (H1 Hin) as (pre & tl & _ & _ & ->). reflexivity.
  - destruct (H2 Hin) as [Ht Hl].
    assert (Hin' : ~ In Ch.lbrace (trim buffer)).
    { intros Hc. apply Hin. destruct (trim_suffix buffer) as [g Hg].
      rewrite Hg. apply in_or_app. now right. }
    rewrite (trim_absent _ Hin').
    destruct (trim buffer) as [|c [|d l]]; try reflexivity.
    simpl in Hl. lia.
Qed.

(** ** What is yielded *)

Lemma object_members_PyDict strict scan n :
  forall x pairs v r,
    object_members strict scan n x pairs = Ok (v, r) ->
    exists items, v = PyDict items.
Proof.
  induction n as [|n IH]; intros x pairs v r H; [discriminate|].
  simpl in H.
  destruct (scanstring strict x []) as [[key s1]| |]; try discriminate.
  simpl in H.
  destruct (skip_ws s1) as [|c1 s2]; [discriminate|].
  destruct (c1 =? Ch.colon); [|discriminate].
  destruct (expecting_value (scan (skip_ws s2))) as [[value s3]| |];
    try discriminate.
  simpl in H.
  destruct (skip_ws s3) as [|c2 s4]; [discriminate|].
  destruct (c2 =? Ch.rbrace); [inv H; eauto|].
  destruct (c2 =? Ch.comma); [|discriminate].
  destruct (skip_ws s4) as [|c3 s5]; [discriminate|].
  destruct (c3 =? Ch.quote); [|discriminate].
  eapply IH; eassumption.
Qed.

(** What starts with a brace decodes to a [dict]. *)
Lemma raw_decode_PyDict strict tl v idx :
  raw_decode_with strict (Ch.lbrace :: tl) = inl (v, idx) ->
  exists items, v = PyDict items.
Proof.
  unfold raw_decode_with. intros H.
  destruct (scan_once strict (S (length (Ch.lbrace :: tl))) (Ch.lbrace :: tl))
    as [[v' r]| |] eqn:Es; try discriminate.
  inv H. simpl in Es. unfold JSONObject in Es.
  destruct (skip_ws tl) as [|c s]; [discriminate|].
  destruct (c =? Ch.quote).
  - eapply object_members_PyDict; eassumption.
  - destruct (c =? Ch.rbrace); [inv Es; eauto | discriminate].
Qed.

Lemma starts_with_one a w c : starts_with (a :: w) [c] = Some [] -> w = [].
Proof.
  simpl. destruct (a =? c); [|discriminate].
  destruct w; [reflexivity | discriminate].
Qed.

(** One character decodes when it is a digit, and only then. *)
Lemma raw_decode_single strict c v idx :
  raw_decode_with strict [c] = inl (v, idx) ->
  is_digit c = true /\ v = PyInt (Z.of_N (c - Ch.zero)) /\ idx = 1%nat.
Proof.
  unfold raw_decode_with. cbn [length scan_once]. unfold scan_once_body.
  destruct (c =? Ch.quote); [discriminate|].
  destruct (c =? Ch.lbrace); [discriminate|].
  destruct (c =? Ch.lbracket); [discriminate|].
  assert (Hlit : forall a b w, starts_with (a :: b :: w) [c] = None).
  { intros a b w. simpl. now destruct (a =? c). }
  change (lit "null") with (110 :: 117 :: lit "ll").
  change (lit "true") with (116 :: 114 :: lit "ue").
  change (lit "false") with (102 :: 97 :: lit "lse").
  change (lit "NaN") with (78 :: 97 :: lit "N").
  change (lit "Infinity") with (73 :: 110 :: lit "finity").
  change (lit "-Infinity") with (45 :: 73 :: lit "nfinity").
  rewrite !Hlit.
  unfold match_number, match_integer.
  destruct (c =? Ch.minus) eqn:Em; [discriminate|].
  unfold match_unsigned.
  destruct (c =? Ch.zero) eqn:Ez.
  - apply N.eqb_eq in Ez. subst c. intros H. inv H. repeat split.
  - destruct (is_digit c) eqn:Ed; [|discriminate].
    cbn. intros H. inv H. repeat split.
    unfold parse_int. rewrite Em. reflexivity.
Qed.

Lemma loop_nil : loop [] = ([], []).
Proof. reflexivity. Qed.

Lemma loop_head b o objs b' :
  loop b = (o :: objs, b') -> exists idx, raw_decode b = inl (o, idx).
Proof.
  intros H. destruct (raw_decode b) as [[v idx]|e] eqn:Hd.
  - rewrite (loop_ok _ _ _ Hd) in H. inv H. now exists idx.
  - rewrite (loop_error _ _ Hd) in H. discriminate.
Qed.

(** X7 (the first object of a chunk): the first object yielded after a
    chunk is read is a [dict] when the buffer holds a brace; when it holds
    none, the one character the cut keeps is decoded when it is a digit, and
    the generator yields that digit as an [int] and nothing else. *)
Theorem X7_first_object_of_a_chunk
        (buffer text : str) (o : pyobj) (objs : list pyobj) (buffer' : str) :
  on_chunk buffer text = (o :: objs, buffer') ->
  (In Ch.lbrace (buffer ++ text) /\ exists items, o = PyDict items) \/
  (~ In Ch.lbrace (buffer ++ text) /\
   exists pre c,
     buffer ++ text = pre ++ [c] /\ is_digit c = true /\
     o = PyInt (Z.of_N (c - Ch.zero)) /\ objs = [] /\ buffer' = []).
Proof.
  rewrite on_chunk_eq. intros H.
  destruct (in_dec N.eq_dec Ch.lbrace (buffer ++ text)) as [Hin|Hin].
  - left. split; [assumption|].
    destruct (first_brace _ Hin) as (pre & tl & Hb & Hpre).
    rewrite Hb, (trim_skip _ _ Hpre) in H.
    apply loop_head in H. destruct H as [idx H].
    now apply raw_decode_PyDict in H.
  - right. split; [assumption|].
    pose proof (trim_absent _ Hin) as Ht.
    pose proof (firstn_skipn (length (buffer ++ text) - 1) (buffer ++ text))
      as Hsplit.
    rewrite <- Ht in Hsplit.
    assert (Hl : (length (trim (buffer ++ text)) <= 1)%nat)
      by (rewrite Ht, length_skipn; lia).
    destruct (trim (buffer ++ text)) as [|c [|d l]];
      [discriminate | | simpl in Hl; lia].
    exists (firstn (length (buffer ++ text) - 1) (buffer ++ text)), c.
    split; [now symmetry|].
    destruct (loop_head _ _ _ _ H) as [idx Hd].
    rewrite (loop_ok _ _ _ Hd) in H.
    apply raw_decode_single in Hd. destruct Hd as (Hc & -> & ->).
    cbn [skipn] in H. rewrite loop_nil in H. inv H. auto.
Qed.

Lemma X7_first_object_of_a_chunk_witness :
  (In Ch.lbrace ([] ++ lit "junk7") /\ exists items, PyInt 7 = PyDict items) \/
  (~ In Ch.lbrace ([] ++ lit "junk7") /\
   exists pre c,
     [] ++ lit "junk7" = pre ++ [c] /\ is_digit c = true /\
     PyInt 7 = PyInt (Z.of_N (c - Ch.zero)) /\ @nil pyobj = [] /\ @nil N = []).
Proof.
  apply (X7_first_object_of_a_chunk [] (lit "junk7") (PyInt 7) [] []).
  vm_compute. reflexivity.
Defined.

(** The loop yields the objects whose texts stand at the front of the
    buffer, then goes on with what follows them. *)
Lemma loop_docs docs :
  forall r,
    object_texts docs ->
    loop (concat (map fst docs) ++ r)
    = (map snd docs ++ fst (loop r), snd (loop r)).
Proof.
  induction docs as [|[s o] docs IH]; intros r Hdocs.
  - simpl. now destruct (loop r).
  - inversion Hdocs as [|d docs' Hs Hdocs']; subst. simpl in Hs.
    cbn [map concat fst snd]. rewrite <- app_assoc.
    rewrite (loop_ok _ o (length s)) by now apply object_text_extend.
    assert (Hr : forall l, skipn (length s) (s ++ l) = l).
    { intros l. rewrite skipn_app, skipn_all, Nat.sub_diag. reflexivity. }
    rewrite !Hr, (IH r Hdocs'). reflexivity.
Qed.

(** X8 (what follows an object): a JSON value of any kind that follows an
    object in a chunk, up to the end of the chunk, is decoded and yielded
    after the object. *)
Theorem X8_value_after_object (chunk : bytes) (first value : str) :
  json_object first -> json false value ->
  utf8_decode chunk = Some (first ++ value) ->
  exists o v,
    object_text first o /\ raw_decode value = inl (v, length value) /\
    parse_json_stream [chunk] = [Read chunk; Yield o; Yield v; Done].
Proof.
  intros Hfirst Hvalue Hc.
  destruct (json_object_text _ Hfirst) as [o Ho].
  destruct (json_decodes _ _ Hvalue) as [v Hv].
  exists o, v. split; [assumption|]. split; [assumption|].
  unfold parse_json_stream. cbn [for_chunks]. rewrite Hc, on_chunk_eq.
  cbn [app].
  assert (Ht : trim (first ++ value) = first ++ value)
    by (destruct Ho as [[tl ->] _]; reflexivity).
  rewrite Ht.
  pose proof (loop_docs [(first, o)] value) as Hl.
  cbn [map concat fst snd] in Hl. rewrite app_nil_r in Hl.
  rewrite Hl by (apply Forall_cons; [exact Ho | constructor]).
  rewrite (loop_ok _ _ _ Hv), skipn_all, loop_nil. reflexivity.
Qed.

Lemma X8_value_after_object_witness :
  exists o v,
    object_text (one_member (lit "a") (lit "x")) o /\
    raw_decode (lit "7") = inl (v, length (lit "7")) /\
    parse_json_stream [blit "{'a':'x'}7"]
    = [Read (blit "{'a':'x'}7"); Yield o; Yield v; Done].
Proof.
  apply (X8_value_after_object (blit "{'a':'x'}7")
           (one_member (lit "a") (lit "x")) (lit "7")).
  - apply one_member_json; repeat constructor; discriminate.
  - apply json_digit. reflexivity.
  - vm_compute. reflexivity.
Defined.

(** ** Text that never decodes *)

Lemma malformed_start_stuck b t :
  malformed_start b -> raw_decode (b ++ t) = inr JSONDecodeError.
Proof.
  intros (c & tl & -> & Hws & Hq & Hr).
  apply N.eqb_neq in Hq, Hr.
  unfold raw_decode, raw_decode_with. cbn [app length scan_once].
  unfold scan_once_body.
  change (Ch.lbrace =? Ch.quote) with false.
  change (Ch.lbrace =? Ch.lbrace) with true. cbn iota.
  unfold JSONObject. cbn [skip_ws]. rewrite Hws, Hq, Hr. reflexivity.
Qed.

Lemma malformed_start_app b t : malformed_start b -> malformed_start (b ++ t).
Proof.
  intros (c & tl & -> & H). exists c, (tl ++ t). split; [reflexivity | exact H].
Qed.

(** With such a beginning in the buffer nothing is yielded any more. *)
Lemma malformed_start_forever chunks :
  forall b, malformed_start b -> yields (for_chunks b chunks) = [].
Proof.
  induction chunks as [|c chunks IH]; intros b Hb; [reflexivity|].
  cbn [for_chunks yields]. destruct (utf8_decode c) as [t|]; [|reflexivity].
  rewrite on_chunk_eq.
  assert (Ht : trim (b ++ t) = b ++ t).
  { destruct Hb as (c' & tl & -> & _). reflexivity. }
  rewrite Ht, (loop_error _ JSONDecodeError)
    by (now apply malformed_start_stuck).
  cbn [map app]. apply IH. now apply malformed_start_app.
Qed.

(** X9 (a malformed object blocks the stream): once the buffer begins with
    a brace followed by a character that cannot follow it, the objects before
    it are yielded and nothing is ever yielded after them, whatever chunks
    arrive, complete objects included. *)
Theorem X9_malformed_object_blocks
        (chunk : bytes) (junk bad : str) (objects : list str) :
  Forall (fun c => c <> Ch.lbrace) junk ->
  Forall json_object objects -> malformed_start bad ->
  utf8_decode chunk = Some (junk ++ concat objects ++ bad) ->
  exists objs,
    Forall2 object_text objects objs /\
    forall later, yields (parse_json_stream (chunk :: later)) = objs.
Proof.
  intros Hjunk Hobj Hbad Hc.
  destruct (json_objects_text _ Hobj) as (docs & <- & Hdocs & Hall).
  exists (map snd docs). split; [assumption|]. intros later.
  unfold parse_json_stream. cbn [for_chunks yields].
  rewrite Hc, on_chunk_eq. cbn [app].
  assert (Hhead : exists tl, concat (map fst docs) ++ bad = Ch.lbrace :: tl).
  { destruct Hdocs as [|[s o] docs [[tl Hs] _] _].
    - destruct Hbad as (c & tl & -> & _). simpl. eauto.
    - simpl in *. subst s. simpl. eauto. }
  destruct Hhead as [tl Htl].
  rewrite Htl, (trim_skip _ _ Hjunk), <- Htl.
  rewrite (loop_docs _ _ Hdocs).
  rewrite (loop_error _ JSONDecodeError)
    by (rewrite <- (app_nil_r bad); now apply malformed_start_stuck).
  cbn [fst snd]. rewrite app_nil_r, yields_app, yields_map_Yield.
  rewrite (malformed_start_forever later _ Hbad). now rewrite app_nil_r.
Qed.

Lemma X9_malformed_object_blocks_witness :
  exists objs,
    Forall2 object_text [one_member (lit "a") (lit "x")] objs /\
    forall later,
      yields (parse_json_stream (blit "junk{'a':'x'}{]" :: later)) = objs.
Proof.
  apply (X9_malformed_object_blocks (blit "junk{'a':'x'}{]") (lit "junk")
           (lit "{]") [one_member (lit "a") (lit "x")]).
  - repeat constructor; discriminate.
  - apply Forall_cons; [|constructor].
    apply one_member_json; repeat constructor; discriminate.
  - exists 93, []. repeat split; discriminate.
  - vm_compute. reflexivity.
Defined.

(** ** Reads and yields *)








Lemma raw_decode_nil : raw_decode [] = inr JSONDecodeError.
Proof. reflexivity. Qed.







(** X12 (bytes that are not UTF-8): when the bytes of the stream, taken
    together, are not well-formed UTF-8, the run ends with
    [UnicodeDecodeError] however the bytes are cut into chunks. *)
Theorem X12_invalid_stream_raises (stream : bytes) :
  utf8_decode stream = None ->
  forall chunks,
    concat chunks = stream ->
    exists pre, parse_json_stream chunks = pre ++ [Raise UnicodeDecodeError].
Proof.
  intros Hbad chunks Hc. subst stream.
  destruct (decoded_or_not chunks) as [[texts Hdec]|(l1 & c & l2 & -> & Hn)].
  - apply utf8_decode_concat in Hdec. congruence.
  - now apply for_chunks_raise.
Qed.

Lemma X12_invalid_stream_raises_witness :
  exists pre,
    parse_json_stream [blit "{'a':'"; [xff] ++ blit "'}"]
    = pre ++ [Raise UnicodeDecodeError].
Proof.
  apply (X12_invalid_stream_raises (blit "{'a':'" ++ [xff] ++ blit "'}")).
  - vm_compute. reflexivity.
  - reflexivity.
Defined.

(** ** The strict decoder *)

Lemma agrees {A} (a : res A) : raises_or_agrees a a.
Proof. now left. Qed.

Lemma raises_or_agrees_bind {A B} (a b : res A) (k1 k2 : A -> res B) :
  raises_or_agrees a b -> (forall x, raises_or_agrees (k1 x) (k2 x)) ->
  raises_or_agrees (bind a k1) (bind b k2).
Proof.
  intros [->| ->] Hk; [|now right].
  destruct b as [x| |]; simpl; [apply Hk | now left | now left].
Qed.

Lemma raises_or_agrees_expecting {A} (a b : res A) :
  raises_or_agrees a b ->
  raises_or_agrees (expecting_value a) (expecting_value b).
Proof. intros [->| ->]; [now left | now right]. Qed.

Lemma scanstring_strict x :
  forall acc,
    raises_or_agrees (scanstring true x acc) (scanstring false x acc).
Proof.
  induction x as [x IH] using list_length_ind. intros acc.
  destruct x as [|c tl]; [apply agrees|].
  destruct (c =? Ch.quote) eqn:E1.
  { rewrite !scanstring_quote by assumption. apply agrees. }
  destruct (c =? Ch.backslash) eqn:E2.
  - destruct tl as [|esc tl1]; [simpl; rewrite E1, E2; apply agrees|].
    destruct (esc =? Ch.u) eqn:E3.
    + destruct (Nat.ltb_spec (length tl1) 4) as [Hl|Hl].
      { rewrite !scanstring_short by assumption. apply agrees. }
      destruct tl1 as [|h1 [|h2 [|h3 [|h4 y]]]]; try (simpl in Hl; lia).
      destruct (decode_uXXXX h1 h2 h3 h4) as [uni|] eqn:E4;
        [|simpl; rewrite E1, E2, E3, E4; apply agrees].
      rewrite !(scanstring_u _ _ _ _ _ _ _ _ _ _ E1 E2 E3 E4).
      destruct (pair_follows uni y); [|apply IH; simpl; lia].
      destruct y as [|b [|v0 [|g1 [|g2 [|g3 [|g4 y4]]]]]];
        [apply agrees .. |].
      destruct (decode_uXXXX g1 g2 g3 g4); [|apply agrees].
      destruct (is_low_surrogate n); apply IH; simpl; lia.
    + rewrite !scanstring_escape by assumption.
      destruct (BACKSLASH esc); [apply IH; simpl; lia | apply agrees].
  - rewrite !scanstring_plain by assumption.
    destruct (c <=? 31); simpl; [now right | apply IH; simpl; lia].
Qed.

Section StrictContainers.
Variables scan_strict scan_lenient : str -> res (pyobj * str).
Hypothesis scan_raises_or_agrees :
  forall x, raises_or_agrees (scan_strict x) (scan_lenient x).

Lemma object_members_strict n :
  forall x pairs,
    raises_or_agrees (object_members true scan_strict n x pairs)
                     (object_members false scan_lenient n x pairs).
Proof.
  induction n as [|n IH]; intros x pairs; [apply agrees|].
  cbn [object_members].
  apply raises_or_agrees_bind; [apply scanstring_strict|].
  intros [key s1].
  destruct (skip_ws s1) as [|c1 s2]; [apply agrees|].
  destruct (c1 =? Ch.colon); [|apply agrees].
  apply raises_or_agrees_bind;
    [apply raises_or_agrees_expecting, scan_raises_or_agrees|].
  intros [value s3].
  destruct (skip_ws s3) as [|c2 s4]; [apply agrees|].
  destruct (c2 =? Ch.rbrace); [apply agrees|].
  destruct (c2 =? Ch.comma); [|apply agrees].
  destruct (skip_ws s4) as [|c3 s5]; [apply agrees|].
  destruct (c3 =? Ch.quote); [apply IH | apply agrees].
Qed.

Lemma array_items_strict n :
  forall x values,
    raises_or_agrees (array_items scan_strict n x values)
                     (array_items scan_lenient n x values).
Proof.
  induction n as [|n IH]; intros x values; [apply agrees|].
  cbn [array_items].
  apply raises_or_agrees_bind;
    [apply raises_or_agrees_expecting, scan_raises_or_agrees|].
  intros [value s1].
  destruct (skip_ws s1) as [|c s2]; [apply agrees|].
  destruct (c =? Ch.rbracket); [apply agrees|].
  destruct (c =? Ch.comma); [apply IH | apply agrees].
Qed.

Lemma scan_once_body_strict n x :
  raises_or_agrees (scan_once_body true scan_strict n x)
                   (scan_once_body false scan_lenient n x).
Proof.
  unfold scan_once_body.
  destruct x as [|c tl]; [apply agrees|].
  destruct (c =? Ch.quote).
  { apply raises_or_agrees_bind; [apply scanstring_strict|].
    intros [v r]. apply agrees. }
  destruct (c =? Ch.lbrace).
  { unfold JSONObject. destruct (skip_ws tl) as [|c1 s]; [apply agrees|].
    destruct (c1 =? Ch.quote); [apply object_members_strict | apply agrees]. }
  destruct (c =? Ch.lbracket).
  { unfold JSONArray.
    destruct (starts_with [Ch.rbracket] (skip_ws tl));
      [apply agrees | apply array_items_strict]. }
  apply agrees.
Qed.
End StrictContainers.

Lemma scan_once_strict f :
  forall x, raises_or_agrees (scan_once true f x) (scan_once false f x).
Proof.
  induction f as [|f IH]; intros x; [apply agrees|].
  cbn [scan_once]. now apply scan_once_body_strict.
Qed.

(** X13 (what [strict=False] changes): on every text the strict decoder
    either raises or returns exactly what the decoder of the program
    returns; the lenient mode only accepts more. *)
Theorem X13_strict_raises_or_agrees (s : str) :
  raw_decode_with true s = raw_decode s \/
  raw_decode_with true s = inr JSONDecodeError.
Proof.
  unfold raw_decode, raw_decode_with.
  destruct (scan_once_strict (S (length s)) s) as [-> | ->];
    [now left | now right].
Qed.

(** ** What the scanner accepts is in the grammar *)

Lemma scanstring_sound strict x :
  forall acc v r,
    scanstring strict x acc = Ok (v, r) ->
    exists b, x = b ++ Ch.quote :: r /\ string_body strict b.
Proof.
  induction x as [x IH] using list_length_ind. intros acc v r H.
  destruct x as [|c tl]; [discriminate|].
  destruct (c =? Ch.quote) eqn:E1.
  { rewrite scanstring_quote in H by assumption. inv H.
    apply N.eqb_eq in E1. subst c. exists []. split; [reflexivity | constructor]. }
  destruct (c =? Ch.backslash) eqn:E2.
  - pose proof E2 as Ec. apply N.eqb_eq in Ec. subst c.
    destruct tl as [|esc tl1]; [discriminate|].
    destruct (esc =? Ch.u) eqn:E3.
    + pose proof E3 as Eu. apply N.eqb_eq in Eu. subst esc.
      destruct (Nat.ltb_spec (length tl1) 4) as [Hl|Hl].
      { rewrite scanstring_short in H by assumption. discriminate. }
      destruct tl1 as [|h1 [|h2 [|h3 [|h4 y]]]]; try (simpl in Hl; lia).
      destruct (decode_uXXXX h1 h2 h3 h4) as [uni|] eqn:E4;
        [|simpl in H; rewrite E4 in H; discriminate].
      rewrite (scanstring_u _ _ _ _ _ _ _ _ _ _ E1 E2 E3 E4) in H.
      assert (Hone : forall a,
                 scanstring strict y a = Ok (v, r) ->
                 exists b,
                   Ch.backslash :: Ch.u :: h1 :: h2 :: h3 :: h4 :: y
                   = b ++ Ch.quote :: r /\ string_body strict b).
      { intros a Ha. apply IH in Ha; [|simpl; lia].
        destruct Ha as (b & -> & Hb).
        exists (Ch.backslash :: Ch.u :: h1 :: h2 :: h3 :: h4 :: b).
        split; [reflexivity|]. constructor; [congruence | assumption]. }
      destruct (pair_follows uni y) eqn:Ep; [|now apply Hone in H].
      destruct y as [|b0 [|v0 [|g1 [|g2 [|g3 [|g4 y4]]]]]];
        [discriminate .. |].
      destruct (decode_uXXXX g1 g2 g3 g4) as [uni2|] eqn:E5; [|discriminate].
      destruct (is_low_surrogate uni2); [|now apply Hone in H].
      unfold pair_follows in Ep.
      apply andb_prop in Ep. destruct Ep as [Ep Ev].
      apply andb_prop in Ep. destruct Ep as [_ Eb].
      apply N.eqb_eq in Ev, Eb. subst b0 v0.
      apply IH in H; [|simpl; lia]. destruct H as (b & -> & Hb).
      exists (Ch.backslash :: Ch.u :: h1 :: h2 :: h3 :: h4
                :: Ch.backslash :: Ch.u :: g1 :: g2 :: g3 :: g4 :: b).
      split; [reflexivity|].
      constructor; [congruence|]. constructor; [congruence | assumption].
    + rewrite scanstring_escape in H by assumption.
      destruct (BACKSLASH esc) as [ch|] eqn:Eb; [|discriminate].
      apply IH in H; [|simpl; lia]. destruct H as (b & -> & Hb).
      exists (Ch.backslash :: esc :: b). split; [reflexivity|].
      constructor; [congruence | assumption].
  - rewrite scanstring_plain in H by assumption.
    destruct ((c <=? 31) && strict) eqn:Ec; [discriminate|].
    apply IH in H; [|simpl; lia]. destruct H as (b & -> & Hb).
    exists (c :: b). split; [reflexivity|].
    apply N.eqb_neq in E1, E2.
    constructor; try assumption.
    intros ->. now rewrite andb_true_r in Ec.
Qed.

Lemma match_unsigned_sound x i r :
  match_unsigned x = Some (i, r) -> int_text i.
Proof.
  unfold match_unsigned. destruct x as [|c tl]; [discriminate|].
  destruct (c =? Ch.zero) eqn:Ez.
  - intros H. inv H. apply N.eqb_eq in Ez. subst c. constructor.
  - destruct (is_digit c) eqn:Ed; [|discriminate].
    destruct (span_digits tl) as [d r'] eqn:Es. intros H. inv H.
    apply span_digits_split in Es. destruct Es as (_ & Hd & _).
    apply N.eqb_neq in Ez. now constructor.
Qed.

Lemma match_integer_sound x i r :
  match_integer x = Some (i, r) ->
  exists sign u, i = sign ++ u /\ (sign = [] \/ sign = [Ch.minus]) /\
                 int_text u.
Proof.
  unfold match_integer. destruct x as [|c tl]; [discriminate|].
  destruct (c =? Ch.minus) eqn:Em.
  - destruct (match_unsigned tl) as [[u r']|] eqn:Eu; [|discriminate].
    intros H. inv H. apply N.eqb_eq in Em. subst c.
    exists [Ch.minus], u. repeat split; [now right|].
    eapply match_unsigned_sound; eassumption.
  - intros H. exists [], i. repeat split; [now left|].
    eapply match_unsigned_sound; eassumption.
Qed.

Lemma match_frac_sound x f r : match_frac x = (f, r) -> frac_text f.
Proof.
  unfold match_frac. destruct x as [|c [|d tl]]; try (intros H; inv H; constructor).
  destruct ((c =? Ch.dot) && is_digit d) eqn:E; [|intros H; inv H; constructor].
  apply andb_prop in E. destruct E as [Ec Ed]. apply N.eqb_eq in Ec. subst c.
  destruct (span_digits tl) as [ds r'] eqn:Es. intros H. inv H.
  apply span_digits_split in Es. destruct Es as (_ & Hd & _).
  now constructor.
Qed.

Lemma match_exp_sound x ex r : match_exp x = (ex, r) -> exp_text ex.
Proof.
  unfold match_exp. destruct x as [|c tl]; [intros H; inv H; constructor|].
  destruct ((c =? Ch.e) || (c =? Ch.E)) eqn:E; [|intros H; inv H; constructor].
  assert (Hc : c = Ch.e \/ c = Ch.E).
  { apply orb_prop in E. destruct E as [E|E]; apply N.eqb_eq in E; auto. }
  assert (Hsign : forall sign tl1 ,
             (sign = [] \/ sign = [Ch.plus] \/ sign = [Ch.minus]) ->
             match span_digits tl1 with
             | ([], _) => ([], c :: tl)
             | (ds, r0) => (c :: sign ++ ds, r0)
             end = (ex, r) -> exp_text ex).
  { intros sign tl1 Hs H.
    destruct (span_digits tl1) as [[|d ds] r0] eqn:Es; inv H; [constructor|].
    apply span_digits_split in Es. destruct Es as (_ & Hd & _).
    inv Hd. now constructor. }
  destruct tl as [|g tl0]; [apply (Hsign []); auto|].
  destruct ((g =? Ch.minus) || (g =? Ch.plus)) eqn:Eg;
    [|apply (Hsign []); auto].
  apply (Hsign [g]).
  apply orb_prop in Eg. destruct Eg as [Eg|Eg]; apply N.eqb_eq in Eg;
    subst g; auto.
Qed.

Lemma match_number_sound x i f ex r :
  match_number x = Some (i, f, ex, r) -> number_text (i ++ f ++ ex).
Proof.
  unfold match_number. intros H.
  destruct (match_integer x) as [[i' s1]|] eqn:Ei; [|discriminate].
  destruct (match_frac s1) as [f' s2] eqn:Ef.
  destruct (match_exp s2) as [e' s3] eqn:Ee.
  inv H.
  apply match_integer_sound in Ei. destruct Ei as (sign & u & -> & Hs & Hu).
  apply match_frac_sound in Ef. apply match_exp_sound in Ee.
  rewrite <- app_assoc. now constructor.
Qed.

Lemma skip_ws_cons x c r :
  skip_ws x = c :: r -> exists w, x = w ++ c :: r /\ all_ws w.
Proof.
  intros H. destruct (skip_ws_split x) as (w & Hx & Hw).
  exists w. split; [congruence | assumption].
Qed.

Section ContainerSound.
Variable strict : bool.
Variable scan : str -> res (pyobj * str).
Hypothesis scan_sound : forall x v r,
  scan x = Ok (v, r) -> exists m, x = m ++ r /\ json strict m.

Lemma array_items_sound n :
  forall x values v r,
    array_items scan n x values = Ok (v, r) ->
    exists xs, x = xs ++ r /\ json_items strict xs.
Proof.
  induction n as [|n IH]; intros x values v r H; [discriminate|].
  cbn [array_items] in H.
  destruct (expecting_value (scan x)) as [[value s1]| |] eqn:Ev;
    try discriminate.
  apply expecting_value_inv, scan_sound in Ev. destruct Ev as (m & -> & Hm).
  cbn [bind] in H.
  destruct (skip_ws s1) as [|c s2] eqn:Ew; [discriminate|].
  apply skip_ws_cons in Ew. destruct Ew as (w & -> & Hw).
  destruct (c =? Ch.rbracket) eqn:Eb.
  - inv H. apply N.eqb_eq in Eb. subst c.
    exists (m ++ w ++ [Ch.rbracket]). split.
    + now rewrite <- !app_assoc.
    + now constructor.
  - destruct (c =? Ch.comma) eqn:Ec; [|discriminate].
    apply N.eqb_eq in Ec. subst c.
    apply IH in H. destruct H as (xs & Hxs & Hitems).
    destruct (skip_ws_split s2) as (w2 & Hs2 & Hw2).
    exists (m ++ w ++ Ch.comma :: w2 ++ xs). split.
    + rewrite Hs2, Hxs. rewrite <- !app_assoc. cbn [app].
      now rewrite <- !app_assoc.
    + now constructor.
Qed.

Lemma object_members_sound n :
  forall x pairs v r,
    object_members strict scan n x pairs = Ok (v, r) ->
    exists ms, x = ms ++ r /\ json_members strict ms.
Proof.
  induction n as [|n IH]; intros x pairs v r H; [discriminate|].
  cbn [object_members] in H.
  destruct (scanstring strict x []) as [[key s1]| |] eqn:Ek;
    try discriminate.
  apply scanstring_sound in Ek. destruct Ek as (kb & -> & Hkb).
  cbn [bind] in H.
  destruct (skip_ws s1) as [|c1 s2] eqn:E1; [discriminate|].
  apply skip_ws_cons in E1. destruct E1 as (w1 & -> & Hw1).
  destruct (c1 =? Ch.colon) eqn:Ec; [|discriminate].
  apply N.eqb_eq in Ec. subst c1.
  destruct (expecting_value (scan (skip_ws s2))) as [[value s3]| |] eqn:Ev;
    try discriminate.
  apply expecting_value_inv, scan_sound in Ev. destruct Ev as (m & Hm & Hjson).
  destruct (skip_ws_split s2) as (w2 & Hs2 & Hw2). rewrite Hm in Hs2.
  clear Hm. subst s2.
  cbn [bind] in H.
  destruct (skip_ws s3) as [|c2 s4] eqn:E3; [discriminate|].
  apply skip_ws_cons in E3. destruct E3 as (w3 & -> & Hw3).
  destruct (c2 =? Ch.rbrace) eqn:Eb.
  - inv H. apply N.eqb_eq in Eb. subst c2.
    exists (kb ++ Ch.quote :: w1 ++ Ch.colon :: w2 ++ m ++ w3 ++ [Ch.rbrace]).
    split.
    + rewrite <- !app_assoc. cbn [app].
      rewrite <- !app_assoc. cbn [app]. now rewrite <- !app_assoc.
    + now constructor.
  - destruct (c2 =? Ch.comma) eqn:Ecm; [|discriminate].
    apply N.eqb_eq in Ecm. subst c2.
    destruct (skip_ws s4) as [|c3 s5] eqn:E4; [discriminate|].
    apply skip_ws_cons in E4. destruct E4 as (w4 & -> & Hw4).
    destruct (c3 =? Ch.quote) eqn:Eq; [|discriminate].
    apply N.eqb_eq in Eq. subst c3.
    apply IH in H. destruct H as (ms & -> & Hms).
    exists (kb ++ Ch.quote :: w1 ++ Ch.colon :: w2 ++ m ++ w3
               ++ Ch.comma :: w4 ++ Ch.quote :: ms).
    split.
    + rewrite <- !app_assoc. cbn [app].
      rewrite <- !app_assoc. cbn [app]. rewrite <- !app_assoc. cbn [app].
      now rewrite <- !app_assoc.
    + now constructor.
Qed.

Lemma scan_once_body_sound n x v r :
  scan_once_body strict scan n x = Ok (v, r) ->
  exists m, x = m ++ r /\ json strict m.
Proof.
  intros H. destruct x as [|c tl]; [discriminate|].
  unfold scan_once_body in H.
  destruct (c =? Ch.quote) eqn:E1.
  { destruct (scanstring strict tl []) as [[s r']| |] eqn:Es;
      try discriminate.
    inv H. apply scanstring_sound in Es. destruct Es as (b & -> & Hb).
    apply N.eqb_eq in E1. subst c.
    exists (Ch.quote :: b ++ [Ch.quote]). split.
    - cbn [app]. now rewrite <- app_assoc.
    - now constructor. }
  destruct (c =? Ch.lbrace) eqn:E2.
  { apply N.eqb_eq in E2. subst c. unfold JSONObject in H.
    destruct (skip_ws tl) as [|c1 s] eqn:Ew; [discriminate|].
    apply skip_ws_cons in Ew. destruct Ew as (w & -> & Hw).
    destruct (c1 =? Ch.quote) eqn:Eq.
    - apply N.eqb_eq in Eq. subst c1.
      apply object_members_sound in H. destruct H as (ms & -> & Hms).
      exists (Ch.lbrace :: w ++ Ch.quote :: ms). split.
      + cbn [app]. rewrite <- app_assoc. reflexivity.
      + now constructor.
    - destruct (c1 =? Ch.rbrace) eqn:Eb; [|discriminate].
      inv H. apply N.eqb_eq in Eb. subst c1.
      exists (Ch.lbrace :: w ++ [Ch.rbrace]). split.
      + cbn [app]. rewrite <- app_assoc. reflexivity.
      + now constructor. }
  destruct (c =? Ch.lbracket) eqn:E3.
  { apply N.eqb_eq in E3. subst c. unfold JSONArray in H.
    destruct (skip_ws_split tl) as (w & Htl & Hw).
    destruct (starts_with [Ch.rbracket] (skip_ws tl)) as [s'|] eqn:Es.
    - inv H. apply starts_with_split in Es. rewrite Es in Htl.
      cbn [app] in Htl.
      exists (Ch.lbracket :: w ++ [Ch.rbracket]). split.
      + cbn [app]. rewrite <- app_assoc. cbn [app]. congruence.
      + now constructor.
    - apply array_items_sound in H. destruct H as (xs & Hxs & Hitems).
      rewrite Hxs in Htl.
      exists (Ch.lbracket :: w ++ xs). split.
      + cbn [app]. rewrite <- app_assoc. congruence.
      + now constructor. }
  destruct (starts_with (lit "null") (c :: tl)) as [r1|] eqn:Enull.
  { inv H. apply starts_with_split in Enull. rewrite Enull.
    eexists. split; [reflexivity | apply json_null]. }
  destruct (starts_with (lit "true") (c :: tl)) as [r1|] eqn:Etrue.
  { inv H. apply starts_with_split in Etrue. rewrite Etrue.
    eexists. split; [reflexivity | apply json_true]. }
  destruct (starts_with (lit "false") (c :: tl)) as [r1|] eqn:Efalse.
  { inv H. apply starts_with_split in Efalse. rewrite Efalse.
    eexists. split; [reflexivity | apply json_false]. }
  destruct (match_number (c :: tl)) as [[[[i fr] ex] r1]|] eqn:En.
  { pose proof (match_number_sound _ _ _ _ _ En) as Hn.
    apply match_number_local in En. destruct En as (Hx & _ & _).
    assert (r1 = r) by (destruct fr, ex; inv H; reflexivity).
    subst r1. exists (i ++ fr ++ ex). split; [assumption|].
    now apply json_number. }
  destruct (starts_with (lit "NaN") (c :: tl)) as [r1|] eqn:Enan.
  { inv H. apply starts_with_split in Enan. rewrite Enan.
    eexists. split; [reflexivity | apply json_nan]. }
  destruct (starts_with (lit "Infinity") (c :: tl)) as [r1|] eqn:Einf.
  { inv H. apply starts_with_split in Einf. rewrite Einf.
    eexists. split; [reflexivity | apply json_infinity]. }
  destruct (starts_with (lit "-Infinity") (c :: tl)) as [r1|] eqn:Eninf.
  { inv H. apply starts_with_split in Eninf. rewrite Eninf.
    eexists. split; [reflexivity | apply json_neg_infinity]. }
  discriminate.
Qed.
End ContainerSound.

Lemma scan_once_sound strict f :
  forall x v r,
    scan_once strict f x = Ok (v, r) ->
    exists m, x = m ++ r /\ json strict m.
Proof.
  induction f as [|f IH]; intros x v r H; [discriminate|].
  apply (scan_once_body_sound strict _ IH) in H. exact H.
Qed.

Lemma raw_decode_sound strict s o idx :
  raw_decode_with strict s = inl (o, idx) -> json strict (firstn idx s).
Proof.
  unfold raw_decode_with. intros H.
  destruct (scan_once strict (S (length s)) s) as [[v r]| |] eqn:Es;
    try discriminate.
  inv H. apply scan_once_sound in Es. destruct Es as (m & -> & Hm).
  rewrite length_app.
  replace (length m + length r - length r)%nat with (length m) by lia.
  rewrite firstn_app, firstn_all, Nat.sub_diag. cbn [firstn].
  now rewrite app_nil_r.
Qed.

(** X14 (the decoder and the grammar): the decoder of the program reads a
    text to its last character exactly when the text is a JSON value, in the
    grammar where a string holds control characters as they are and [NaN],
    [Infinity] and [-Infinity] are values; and whenever it succeeds on a
    buffer, the characters up to the index it returns are such a value. *)
Theorem X14_decoded_text_is_json (s : str) :
  (json false s <-> exists o, raw_decode s = inl (o, length s)) /\
  (forall o idx, raw_decode s = inl (o, idx) -> json false (firstn idx s)).
Proof.
  split; [split|].
  - apply json_decodes.
  - intros [o Ho]. apply raw_decode_sound in Ho.
    now rewrite firstn_all in Ho.
  - intros o idx. apply raw_decode_sound.
Qed.

(** ** Objects behind separators *)


(** No value starts with a character that is not the first of a value. *)
Lemma raw_decode_not_value strict c tl :
  value_head c = false ->
  raw_decode_with strict (c :: tl) = inr JSONDecodeError.
Proof.
  intros Hc. destruct (raw_decode_with strict (c :: tl)) as [[v idx]|e] eqn:Hd.
  - exfalso. apply raw_decode_sound, json_head in Hd.
    destruct Hd as (c' & tl' & Hf & Hc').
    destruct idx; [discriminate|]. simpl in Hf. congruence.
  - apply raw_decode_error in Hd. now destruct Hd as [-> _].
Qed.

Lemma separator_stuck w t :
  separator w -> raw_decode (w ++ t) = inr JSONDecodeError.
Proof.
  intros [(c & tl & -> & Hc) _]. now apply raw_decode_not_value.
Qed.

Lemma spaced_cons w s rest :
  spaced ((w, s) :: rest) = w ++ s ++ spaced rest.
Proof. unfold spaced. cbn [map concat fst snd]. now rewrite <- app_assoc. Qed.

Lemma pending_objects pending :
  Forall (fun p => separator (fst p) /\ json_object (snd p)) pending ->
  exists objs,
    Forall2 object_text (map snd pending) objs /\
    Forall2 (fun p o => separator (fst p) /\ object_text (snd p) o)
            pending objs.
Proof.
  induction 1 as [|[w s] pending [Hw Hs] _ (objs & H1 & H2)].
  - exists []. split; constructor.
  - destruct (json_object_text _ Hs) as [o Ho].
    exists (o :: objs). split; constructor; auto.
Qed.

(** With objects waiting behind separators, a chunk read brings out the
    first of them and no other. *)
Lemma for_chunks_spaced later :
  forall texts pending objs T,
    decoded later texts -> (length later < length pending)%nat ->
    Forall2 (fun p o => separator (fst p) /\ object_text (snd p) o)
            pending objs ->
    yields (for_chunks (spaced pending ++ T) later)
    = firstn (length later) objs.
Proof.
  induction later as [|c later IH]; intros texts pending objs T Hdec Hlen Hp;
    [reflexivity|].
  inversion Hdec as [|c' t later' texts' Hc Hdec']; subst.
  destruct Hp as [|[w s] o pending objs [Hw Hs] Hp]; [simpl in Hlen; lia|].
  destruct Hp as [|[w' s'] o' pending objs [Hw' Hs'] Hp];
    [simpl in Hlen; lia|].
  cbn [fst snd] in Hw, Hs, Hw', Hs'.
  cbn [for_chunks yields length firstn]. rewrite Hc, on_chunk_eq.
  set (rest := (w', s') :: pending) in *.
  assert (Hb : (spaced ((w, s) :: rest) ++ T) ++ t
               = w ++ s ++ spaced rest ++ T ++ t).
  { rewrite spaced_cons. now rewrite <- !app_assoc. }
  rewrite Hb.
  assert (Hs0 : exists tl, s = Ch.lbrace :: tl) by (now destruct Hs).
  destruct Hs0 as [tl Hs0].
  assert (Ht : trim (w ++ s ++ spaced rest ++ T ++ t)
               = s ++ spaced rest ++ T ++ t).
  { rewrite Hs0. cbn [app]. apply trim_skip. now destruct Hw. }
  rewrite Ht.
  rewrite (loop_ok _ o (length s)) by now apply object_text_extend.
  assert (Hr : skipn (length s) (s ++ spaced rest ++ T ++ t)
               = spaced rest ++ T ++ t).
  { rewrite skipn_app, skipn_all, Nat.sub_diag. reflexivity. }
  rewrite Hr.
  assert (Hstuck : raw_decode (spaced rest ++ T ++ t) = inr JSONDecodeError).
  { unfold rest. rewrite spaced_cons, <- app_assoc.
    now apply separator_stuck. }
  rewrite (loop_error _ _ Hstuck). cbn [fst snd map app yields]. f_equal.
  apply (IH texts' rest (o' :: objs) (T ++ t)); try assumption.
  - unfold rest. simpl in *. lia.
  - constructor; [split; assumption | assumption].
Qed.

(** X16 (one object per read): when a chunk holds an object followed by
    more objects, each behind a separator such as white space or a comma,
    the chunk yields the first object only, and every chunk read after it
    brings out one more of them and no other; with fewer reads than objects
    waiting, the last of them are never yielded. *)
Theorem X16_one_object_per_read
        (chunk : bytes) (first : str) (pending : list (str * str))
        (later : list bytes) (texts : list str) :
  json_object first ->
  Forall (fun p => separator (fst p) /\ json_object (snd p)) pending ->
  utf8_decode chunk = Some (first ++ spaced pending) ->
  decoded later texts -> (length later < length pending)%nat ->
  exists o objs,
    object_text first o /\ Forall2 object_text (map snd pending) objs /\
    yields (parse_json_stream (chunk :: later))
    = o :: firstn (length later) objs.
Proof.
  intros Hfirst Hpending Hc Hdec Hlen.
  destruct (json_object_text _ Hfirst) as [o Ho].
  destruct (pending_objects _ Hpending) as (objs & Hobjs & Hp).
  exists o, objs. split; [assumption|]. split; [assumption|].
  unfold parse_json_stream. cbn [for_chunks yields].
  rewrite Hc, on_chunk_eq. cbn [app].
  assert (Ht : trim (first ++ spaced pending) = first ++ spaced pending)
    by (destruct Ho as [[tl ->] _]; reflexivity).
  rewrite Ht.
  rewrite (loop_ok _ o (length first)) by now apply object_text_extend.
  assert (Hr : skipn (length first) (first ++ spaced pending) = spaced pending).
  { rewrite skipn_app, skipn_all, Nat.sub_diag. reflexivity. }
  rewrite Hr.
  assert (Hstuck : raw_decode (spaced pending) = inr JSONDecodeError).
  { destruct Hp as [|[w s] o' pending objs [Hw Hs] Hp]; [simpl in Hlen; lia|].
    cbn [fst] in Hw. rewrite spaced_cons. now apply separator_stuck. }
  rewrite (loop_error _ _ Hstuck). cbn [fst snd map app yields]. f_equal.
  rewrite <- (app_nil_r (spaced pending)).
  now apply (for_chunks_spaced later texts).
Qed.

Lemma X16_one_object_per_read_witness :
  exists o objs,
    object_text (one_member (lit "a") (lit "x")) o /\
    Forall2 object_text
            (map snd [(lit ",", one_member (lit "b") (lit "y"));
                      (lit ",", one_member (lit "c") (lit "z"))]) objs /\
    yields (parse_json_stream
              (blit "{'a':'x'},{'b':'y'},{'c':'z'}" :: [blit "]"]))
    = o :: firstn (length [blit "]"]) objs.
Proof.
  apply (X16_one_object_per_read
           (blit "{'a':'x'},{'b':'y'},{'c':'z'}")
           (one_member (lit "a") (lit "x"))
           [(lit ",", one_member (lit "b") (lit "y"));
            (lit ",", one_member (lit "c") (lit "z"))]
           [blit "]"] [lit "]"]).
  - apply one_member_json; repeat constructor; discriminate.
  - assert (Hsep : separator (lit ",")).
    { split; [exists 44, []; split; reflexivity|].
      repeat constructor; discriminate. }
    apply Forall_cons; [|apply Forall_cons; [|constructor]];
      (split; [exact Hsep|]);
      apply one_member_json; repeat constructor; discriminate.
  - vm_compute. reflexivity.
  - repeat constructor.
  - simpl. lia.
Defined.





(** * The limits of the interpreter *)

Lemma cut_short_same {A} (a : res A) : cut_short a a.
Proof. now left. Qed.

Lemma cut_short_bind {A B} (a b : res A) (k1 k2 : A -> res B) :
  cut_short a b -> (forall x, cut_short (k1 x) (k2 x)) ->
  cut_short (bind a k1) (bind b k2).
Proof.
  intros [->|(e & He & ->)] Hk.
  - destruct b as [x| |]; simpl; [apply Hk | now left | now left].
  - right. now exists e.
Qed.

Lemma cut_short_expecting {A} (a b : res A) :
  cut_short a b -> cut_short (expecting_value a) (expecting_value b).
Proof.
  intros [->|(e & He & ->)]; [now left|].
  right. exists e. split; [assumption|].
  destruct He as [-> | ->]; reflexivity.
Qed.

Section LimitedContainers.
Variable strict : bool.
Variables scan_limited scan_free : str -> res (pyobj * str).
Hypothesis scan_cut_short : forall x, cut_short (scan_limited x) (scan_free x).

Lemma object_members_cut_short n :
  forall x pairs,
    cut_short (object_members strict scan_limited n x pairs)
              (object_members strict scan_free n x pairs).
Proof.
  induction n as [|n IH]; intros x pairs; [apply cut_short_same|].
  cbn [object_members].
  apply cut_short_bind; [apply cut_short_same|].
  intros [key s1].
  destruct (skip_ws s1) as [|c1 s2]; [apply cut_short_same|].
  destruct (c1 =? Ch.colon); [|apply cut_short_same].
  apply cut_short_bind; [apply cut_short_expecting, scan_cut_short|].
  intros [value s3].
  destruct (skip_ws s3) as [|c2 s4]; [apply cut_short_same|].
  destruct (c2 =? Ch.rbrace); [apply cut_short_same|].
  destruct (c2 =? Ch.comma); [|apply cut_short_same].
  destruct (skip_ws s4) as [|c3 s5]; [apply cut_short_same|].
  destruct (c3 =? Ch.quote); [apply IH | apply cut_short_same].
Qed.

Lemma array_items_cut_short n :
  forall x values,
    cut_short (array_items scan_limited n x values)
              (array_items scan_free n x values).
Proof.
  induction n as [|n IH]; intros x values; [apply cut_short_same|].
  cbn [array_items].
  apply cut_short_bind; [apply cut_short_expecting, scan_cut_short|].
  intros [value s1].
  destruct (skip_ws s1) as [|c s2]; [apply cut_short_same|].
  destruct (c =? Ch.rbracket); [apply cut_short_same|].
  destruct (c =? Ch.comma); [apply IH | apply cut_short_same].
Qed.

Lemma scan_once_body_cut_short n x :
  cut_short (scan_once_body strict scan_limited n x)
            (scan_once_body strict scan_free n x).
Proof.
  unfold scan_once_body.
  destruct x as [|c tl]; [apply cut_short_same|].
  destruct (c =? Ch.quote); [apply cut_short_same|].
  destruct (c =? Ch.lbrace).
  { unfold JSONObject. destruct (skip_ws tl) as [|c1 s]; [apply cut_short_same|].
    destruct (c1 =? Ch.quote);
      [apply object_members_cut_short | apply cut_short_same]. }
  destruct (c =? Ch.lbracket).
  { unfold JSONArray.
    destruct (starts_with [Ch.rbracket] (skip_ws tl));
      [apply cut_short_same | apply array_items_cut_short]. }
  apply cut_short_same.
Qed.
End LimitedContainers.

(** The scanner without limits, with the fuel that is always enough. *)
Lemma scan_once_unfold strict x :
  scan_once_body strict (fun y => scan_once strict (S (length y)) y)
                 (S (length x)) x
  = scan_once strict (S (length x)) x.
Proof.
  cbn [scan_once].
  apply scan_once_body_mono; [| |lia].
  - intros y Hy.
    transitivity (scan_once strict (Nat.max (length x) (S (length y))) y).
    + symmetry. apply scan_once_enough. lia.
    + apply scan_once_mono; [assumption | lia].
  - change (scan_once strict (S (length x)) x <> OutOfFuel).
    apply scan_once_fuel. lia.
Qed.

(** Within the limits the scanner is the scanner without them. *)
Lemma scan_once_cut_short L strict depth :
  forall x,
    cut_short (Limited.scan_once L strict depth x)
              (scan_once strict (S (length x)) x).
Proof.
  assert (Hlimit : forall e, limit_exn e ->
            forall x, cut_short (@Exn (pyobj * str) e)
                                (scan_once strict (S (length x)) x)).
  { intros e He x. right. now exists e. }
  induction depth as [|d IH]; intros x; cbn [Limited.scan_once];
    (destruct (Limited.int_limit_hit L x);
     [apply Hlimit; now right|]);
    destruct (Limited.is_container x).
  - apply Hlimit. now left.
  - rewrite <- scan_once_unfold. apply scan_once_body_cut_short.
    intros y. apply Hlimit. now left.
  - rewrite <- scan_once_unfold. now apply scan_once_body_cut_short.
  - rewrite <- scan_once_unfold. apply scan_once_body_cut_short.
    intros y. apply Hlimit. now left.
Qed.

(** ** The exceptions of the scanner *)

Lemma bind_exn {A B} (r : res A) (k : A -> res B) e :
  bind r k = Exn e -> r = Exn e \/ exists a, r = Ok a /\ k a = Exn e.
Proof.
  destruct r as [a|e'|]; simpl; intros H; [right; eauto | left; congruence |
                                            discriminate].
Qed.

Lemma scanstring_raises strict x :
  forall acc e, scanstring strict x acc = Exn e -> e = JSONDecodeError.
Proof.
  induction x as [x IH] using list_length_ind. intros acc e H.
  destruct x as [|c tl]; [simpl in H; congruence|].
  destruct (c =? Ch.quote) eqn:E1.
  { rewrite scanstring_quote in H by assumption. discriminate. }
  destruct (c =? Ch.backslash) eqn:E2.
  - destruct tl as [|esc tl1]; [simpl in H; rewrite E1, E2 in H; congruence|].
    destruct (esc =? Ch.u) eqn:E3.
    + destruct (Nat.ltb_spec (length tl1) 4) as [Hl|Hl].
      { rewrite scanstring_short in H by assumption. congruence. }
      destruct tl1 as [|h1 [|h2 [|h3 [|h4 y]]]]; try (simpl in Hl; lia).
      destruct (decode_uXXXX h1 h2 h3 h4) as [uni|] eqn:E4;
        [|simpl in H; rewrite E1, E2, E3, E4 in H; congruence].
      rewrite (scanstring_u _ _ _ _ _ _ _ _ _ _ E1 E2 E3 E4) in H.
      destruct (pair_follows uni y);
        [|apply IH in H; [assumption | simpl; lia]].
      destruct y as [|b [|v0 [|g1 [|g2 [|g3 [|g4 y4]]]]]];
        [congruence .. |].
      destruct (decode_uXXXX g1 g2 g3 g4); [|congruence].
      destruct (is_low_surrogate n);
        (apply IH in H; [assumption | simpl; lia]).
    + rewrite scanstring_escape in H by assumption.
      destruct (BACKSLASH esc); [|congruence].
      apply IH in H; [assumption | simpl; lia].
  - rewrite scanstring_plain in H by assumption.
    destruct ((c <=? 31) && strict); [congruence|].
    apply IH in H; [assumption | simpl; lia].
Qed.

Lemma expecting_value_raises {A} (r : res A) e :
  raises_only scanner_exn r -> expecting_value r = Exn e ->
  e = JSONDecodeError.
Proof.
  intros Hr H. destruct r as [a|e'|]; simpl in H; try discriminate.
  destruct (Hr e' eq_refl) as [-> | ->]; simpl in H; congruence.
Qed.

Section ScannerExceptions.
Variable strict : bool.
Variable scan : str -> res (pyobj * str).
Hypothesis scan_raises : forall x, raises_only scanner_exn (scan x).

Lemma object_members_raises n :
  forall x pairs e,
    object_members strict scan n x pairs = Exn e -> e = JSONDecodeError.
Proof.
  induction n as [|n IH]; intros x pairs e H; [discriminate|].
  cbn [object_members] in H.
  apply bind_exn in H. destruct H as [H|([key s1] & _ & H)];
    [now apply scanstring_raises in H|].
  destruct (skip_ws s1) as [|c1 s2]; [congruence|].
  destruct (c1 =? Ch.colon); [|congruence].
  apply bind_exn in H. destruct H as [H|([value s3] & _ & H)];
    [now apply expecting_value_raises in H|].
  destruct (skip_ws s3) as [|c2 s4]; [congruence|].
  destruct (c2 =? Ch.rbrace); [discriminate|].
  destruct (c2 =? Ch.comma); [|congruence].
  destruct (skip_ws s4) as [|c3 s5]; [congruence|].
  destruct (c3 =? Ch.quote); [eapply IH; eassumption | congruence].
Qed.

Lemma array_items_raises n :
  forall x values e,
    array_items scan n x values = Exn e -> e = JSONDecodeError.
Proof.
  induction n as [|n IH]; intros x values e H; [discriminate|].
  cbn [array_items] in H.
  apply bind_exn in H. destruct H as [H|([value s1] & _ & H)];
    [now apply expecting_value_raises in H|].
  destruct (skip_ws s1) as [|c s2]; [congruence|].
  destruct (c =? Ch.rbracket); [discriminate|].
  destruct (c =? Ch.comma); [eapply IH; eassumption | congruence].
Qed.

Lemma scan_once_body_raises n x :
  raises_only scanner_exn (scan_once_body strict scan n x).
Proof.
  intros e H. unfold scan_once_body in H.
  destruct x as [|c tl]; [left; congruence|].
  destruct (c =? Ch.quote).
  { apply bind_exn in H. destruct H as [H|([v r] & _ & H)];
      [right; now apply scanstring_raises in H | discriminate]. }
  destruct (c =? Ch.lbrace).
  { right. unfold JSONObject in H.
    destruct (skip_ws tl) as [|c1 s]; [congruence|].
    destruct (c1 =? Ch.quote); [now apply object_members_raises in H|].
    destruct (c1 =? Ch.rbrace); [discriminate | congruence]. }
  destruct (c =? Ch.lbracket).
  { right. unfold JSONArray in H.
    destruct (starts_with [Ch.rbracket] (skip_ws tl)); [discriminate|].
    now apply array_items_raises in H. }
  destruct (starts_with (lit "null") (c :: tl)); [discriminate|].
  destruct (starts_with (lit "true") (c :: tl)); [discriminate|].
  destruct (starts_with (lit "false") (c :: tl)); [discriminate|].
  destruct (match_number (c :: tl)) as [[[[i fr] ex] r1]|].
  { destruct fr, ex; discriminate. }
  destruct (starts_with (lit "NaN") (c :: tl)); [discriminate|].
  destruct (starts_with (lit "Infinity") (c :: tl)); [discriminate|].
  destruct (starts_with (lit "-Infinity") (c :: tl)); [discriminate|].
  left. congruence.
Qed.
End ScannerExceptions.

(** Without limits the scanner raises [StopIteration] and
    [JSONDecodeError] only. *)
Lemma scan_once_raises strict f :
  forall x, raises_only scanner_exn (scan_once strict f x).
Proof.
  induction f as [|f IH]; intros x; [intros e H; discriminate|].
  cbn [scan_once]. now apply scan_once_body_raises.
Qed.

(** ** The decoder and the generator within the limits *)

(** The decoder with the two limits is within the limits. *)
Lemma limited_raw_decode_within L : within_limits (Limited.raw_decode L).
Proof.
  intros s. unfold Limited.raw_decode, raw_decode, raw_decode_with.
  destruct (scan_once_cut_short L false (recursion_limit L) s)
    as [->|(e & He & ->)].
  - left. destruct (scan_once false (S (length s)) s) as [[v r]|e|] eqn:Es;
      try reflexivity.
    destruct (scan_once_raises _ _ _ _ Es) as [-> | ->]; reflexivity.
  - right. exists e. split; [assumption|].
    destruct He as [-> | ->]; reflexivity.
Qed.

Section DecoderWithinLimits.
Variable decode : str -> (pyobj * nat) + pyexn.
Hypothesis decode_within : within_limits decode.

Lemma while_true_cut_short fuel :
  forall b,
    match Limited.while_true decode fuel b with
    | (objs, inl b') => while_true fuel b = (objs, b')
    | (objs, inr e) =>
      limit_exn e /\
      exists more b', while_true fuel b = (objs ++ more, b')
    end.
Proof.
  induction fuel as [|fuel IH]; intros b; [reflexivity|].
  cbn [Limited.while_true while_true].
  destruct (decode_within b) as [->|(e & He & ->)].
  - destruct (raw_decode b) as [[v idx]|e] eqn:Hd.
    + specialize (IH (slice_from b (Z.of_nat idx))).
      destruct (Limited.while_true decode fuel (slice_from b (Z.of_nat idx)))
        as [objs [b'|e]].
      * now rewrite IH.
      * destruct IH as (He & more & b' & ->). split; [assumption|].
        now exists more, b'.
    + apply raw_decode_error in Hd. destruct Hd as [-> _]. reflexivity.
  - assert (Hout : (match e with
                    | JSONDecodeError => ([], inl b)
                    | _ => ([], inr e)
                    end : list pyobj * (str + pyexn)) = ([], inr e))
      by (destruct He as [-> | ->]; reflexivity).
    rewrite Hout. split; [assumption|].
    destruct (match raw_decode b with
              | inl (obj, idx) =>
                let (objs, buffer') :=
                  while_true fuel (slice_from b (Z.of_nat idx)) in
                (obj :: objs, buffer')
              | inr _ => ([], b)
              end) as [more b'].
    now exists more, b'.
Qed.

Lemma for_chunks_cut_short chunks :
  forall b,
    Limited.for_chunks decode b chunks = for_chunks b chunks \/
    exists pre post e,
      limit_exn e /\
      Limited.for_chunks decode b chunks = pre ++ [Raise e] /\
      for_chunks b chunks = pre ++ post.
Proof.
  induction chunks as [|c chunks IH]; intros b; [now left|].
  cbn [Limited.for_chunks for_chunks].
  destruct (utf8_decode c) as [t|]; [|now left].
  unfold Limited.on_chunk, on_chunk.
  set (buffer := slice_from (b ++ t) (find (b ++ t) Ch.lbrace)).
  pose proof (while_true_cut_short (S (length buffer)) buffer) as H.
  destruct (Limited.while_true decode (S (length buffer)) buffer)
    as [objs [b'|e]].
  - rewrite H. destruct (IH b') as [->|(pre & post & e & He & -> & ->)];
      [now left|].
    right. exists (Read c :: map Yield objs ++ pre), post, e.
    split; [assumption|]. cbn [app]. now rewrite <- !app_assoc.
  - destruct H as (He & more & b' & ->).
    right.
    exists (Read c :: map Yield objs),
           (map Yield more ++ for_chunks b' chunks), e.
    split; [assumption|]. split; [reflexivity|].
    cbn [app]. now rewrite map_app, <- app_assoc.
Qed.

(** The loop ends on a decode that raises: [JSONDecodeError] with the
    buffer it leaves, or the exception that leaves the generator. *)
Lemma limited_while_true_exit fuel :
  forall b,
    (length b < fuel)%nat ->
    match snd (Limited.while_true decode fuel b) with
    | inl b' => decode b' = inr JSONDecodeError
    | inr e => e <> JSONDecodeError
    end.
Proof.
  induction fuel as [|fuel IH]; intros b Hb; [lia|].
  cbn [Limited.while_true].
  destruct (decode b) as [[v idx]|e] eqn:Hd.
  - assert (Hi : raw_decode b = inl (v, idx)).
    { destruct (decode_within b) as [H|(e & _ & H)]; congruence. }
    apply raw_decode_ok in Hi. destruct Hi as (m & r & -> & -> & Hne & _).
    rewrite slice_from_app.
    assert (Hr : (length r < fuel)%nat).
    { rewrite length_app in Hb. destruct m; [congruence | simpl in Hb; lia]. }
    specialize (IH r Hr).
    now destruct (Limited.while_true decode fuel r) as [objs out].
  - destruct e; cbn [snd]; try discriminate. exact Hd.
Qed.
End DecoderWithinLimits.

Lemma limited_while_true_raises decode fuel :
  forall b objs e,
    Limited.while_true decode fuel b = (objs, inr e) -> e <> JSONDecodeError.
Proof.
  induction fuel as [|fuel IH]; intros b objs e H; [discriminate|].
  cbn [Limited.while_true] in H.
  destruct (decode b) as [[v idx]|e'].
  - destruct (Limited.while_true decode fuel (slice_from b (Z.of_nat idx)))
      as [objs' out] eqn:Hw.
    inv H. eapply IH; eassumption.
  - destruct e'; inv H; discriminate.
Qed.

Lemma limited_for_chunks_raises decode chunks :
  forall b, ~ In (Raise JSONDecodeError) (Limited.for_chunks decode b chunks).
Proof.
  induction chunks as [|c chunks IH]; intros b Hin.
  - destruct Hin as [Hin|[]]. discriminate.
  - cbn [Limited.for_chunks] in Hin. destruct Hin as [Hin|Hin]; [discriminate|].
    destruct (utf8_decode c) as [t|].
    + unfold Limited.on_chunk in Hin.
      destruct (Limited.while_true decode _ _) as [objs [b'|e]] eqn:Hw in Hin;
        apply in_app_or in Hin; destruct Hin as [Hin|Hin];
        try (apply in_map_iff in Hin; destruct Hin as (o & Ho & _);
             discriminate).
      * exact (IH _ Hin).
      * destruct Hin as [Hin|[]]. inv Hin.
        now apply limited_while_true_raises in Hw.
    + destruct Hin as [Hin|[]]. discriminate.
Qed.

(** A decode that fails with another exception than [JSONDecodeError] ends
    the run with that exception. *)
Lemma for_chunks_uncaught decode b chunk text rest e :
  utf8_decode chunk = Some text ->
  decode (trim (b ++ text)) = inr e -> e <> JSONDecodeError ->
  Limited.for_chunks decode b (chunk :: rest) = [Read chunk; Raise e].
Proof.
  intros Hc Hd He. cbn [Limited.for_chunks]. rewrite Hc.
  unfold Limited.on_chunk. fold (trim (b ++ text)).
  cbn [Limited.while_true]. rewrite Hd.
  destruct e; try reflexivity. congruence.
Qed.

(** ** Inputs that meet a limit *)

Lemma match_number_none c tl :
  (c =? Ch.minus) || is_digit c = false -> match_number (c :: tl) = None.
Proof.
  intros H. destruct (match_number (c :: tl)) as [[[[i fr] ex] r]|] eqn:E;
    [|reflexivity].
  apply match_number_head in E. congruence.
Qed.

Lemma int_limit_hit_none L c tl :
  (c =? Ch.minus) || is_digit c = false ->
  Limited.int_limit_hit L (c :: tl) = false.
Proof.
  intros H. unfold Limited.int_limit_hit. now rewrite match_number_none.
Qed.

(** More brackets than the scanner can enter. *)
Lemma brackets_too_deep L strict depth :
  forall k t,
    (depth <= k)%nat ->
    Limited.scan_once L strict depth (repeat Ch.lbracket (S k) ++ t)
    = Exn RecursionError.
Proof.
  induction depth as [|d IH]; intros k t Hk;
    cbn [repeat app Limited.scan_once];
    rewrite int_limit_hit_none by reflexivity;
    change (Limited.is_container (Ch.lbracket :: repeat Ch.lbracket k ++ t))
      with true; cbn iota; [reflexivity|].
  destruct k as [|k]; [lia|].
  unfold scan_once_body.
  change (Ch.lbracket =? Ch.quote) with false.
  change (Ch.lbracket =? Ch.lbrace) with false.
  change (Ch.lbracket =? Ch.lbracket) with true. cbn iota.
  unfold JSONArray. cbn [repeat app skip_ws].
  change (is_ws Ch.lbracket) with false. cbn iota.
  change (starts_with [Ch.rbracket]
            (Ch.lbracket :: repeat Ch.lbracket k ++ t)) with (@None str).
  cbn iota. cbn [array_items].
  change (Ch.lbracket :: repeat Ch.lbracket k ++ t)
    with (repeat Ch.lbracket (S k) ++ t).
  rewrite IH by lia. reflexivity.
Qed.

Lemma lit_member : lit "{'a':" = [Ch.lbrace; Ch.quote; 97; Ch.quote; Ch.colon].
Proof. reflexivity. Qed.

(** The scanner on an object whose member starts at [v]: it scans the key
    and calls itself on [v]. *)
Lemma scan_member L depth v :
  stop is_ws v = true ->
  Limited.scan_once L false (S depth) (lit "{'a':" ++ v)
  = '(value, s) <- expecting_value (Limited.scan_once L false depth v) ;;
    match skip_ws s with
    | c :: s =>
      if c =? Ch.rbrace then Ok (PyDict (dict ([] ++ [([97], value)])), s)
      else if c =? Ch.comma then
        match skip_ws s with
        | c :: s =>
          if c =? Ch.quote
          then object_members false (Limited.scan_once L false depth)
                 (length (lit "{'a':" ++ v)) s ([] ++ [([97], value)])
          else Exn JSONDecodeError
        | [] => Exn JSONDecodeError
        end
      else Exn JSONDecodeError
    | [] => Exn JSONDecodeError
    end.
Proof.
  intros Hv. rewrite lit_member. cbn [app Limited.scan_once].
  rewrite int_limit_hit_none by reflexivity.
  change (Limited.is_container (Ch.lbrace :: Ch.quote :: 97 :: Ch.quote
                                  :: Ch.colon :: v)) with true.
  cbn iota. unfold scan_once_body.
  change (Ch.lbrace =? Ch.quote) with false.
  change (Ch.lbrace =? Ch.lbrace) with true. cbn iota.
  unfold JSONObject. cbn [skip_ws].
  change (is_ws Ch.quote) with false. cbn iota.
  change (Ch.quote =? Ch.quote) with true. cbn iota.
  cbn [length object_members].
  rewrite scanstring_plain by reflexivity.
  change ((97 <=? 31) && false) with false. cbn iota.
  rewrite scanstring_quote by reflexivity.
  cbn [bind app skip_ws].
  change (is_ws Ch.colon) with false. cbn iota.
  change (Ch.colon =? Ch.colon) with true. cbn iota.
  assert (Hs : skip_ws v = v).
  { destruct v as [|c v]; [reflexivity|]. simpl in *.
    now destruct (is_ws c). }
  rewrite Hs. reflexivity.
Qed.

(** An object nested deeper than the recursion limit. *)
Lemma raw_decode_nested L k :
  (recursion_limit L <= k)%nat ->
  Limited.raw_decode L (nested k) = inr RecursionError.
Proof.
  intros Hk. unfold Limited.raw_decode, nested.
  destruct (recursion_limit L) as [|d].
  - rewrite lit_member. cbn [app Limited.scan_once].
    rewrite int_limit_hit_none by reflexivity. reflexivity.
  - destruct k as [|k]; [lia|].
    rewrite scan_member by reflexivity.
    rewrite <- (app_nil_r (repeat Ch.lbracket (S k))).
    rewrite brackets_too_deep by lia. reflexivity.
Qed.

Lemma span_digits_ones k t :
  stop is_digit t = true -> span_digits (repeat 49 k ++ t) = (repeat 49 k, t).
Proof.
  intros Ht. apply span_digits_app; [|assumption].
  apply Forall_forall. intros c Hc. apply repeat_spec in Hc. now subst c.
Qed.

Lemma count_digits_ones k : Limited.count_digits (repeat 49 k) = k.
Proof.
  unfold Limited.count_digits.
  induction k as [|k IH]; [reflexivity|].
  cbn [repeat filter]. change (is_digit 49) with true. cbn iota.
  simpl. now rewrite IH.
Qed.

Lemma match_number_ones k :
  match_number (repeat 49 (S k) ++ [Ch.rbrace])
  = Some (repeat 49 (S k), [], [], [Ch.rbrace]).
Proof.
  unfold match_number, match_integer, match_unsigned. cbn [repeat app].
  change (49 =? Ch.minus) with false. change (49 =? Ch.zero) with false.
  change (is_digit 49) with true. cbn iota.
  rewrite span_digits_ones by reflexivity. reflexivity.
Qed.

(** An integer of more digits than [int] converts. *)
Lemma raw_decode_long_int L k :
  (0 < recursion_limit L)%nat ->
  (0 < int_max_str_digits L < k)%nat ->
  Limited.raw_decode L (long_int k) = inr ValueError.
Proof.
  intros Hd [Hm Hk]. unfold Limited.raw_decode, long_int.
  destruct (recursion_limit L) as [|d]; [lia|].
  destruct k as [|k]; [lia|].
  rewrite scan_member by reflexivity.
  assert (Hv : Limited.scan_once L false d (repeat 49 (S k) ++ [Ch.rbrace])
               = Exn ValueError).
  { assert (Hhit : Limited.int_limit_hit L (repeat 49 (S k) ++ [Ch.rbrace])
                   = true).
    { unfold Limited.int_limit_hit.
      rewrite match_number_ones, count_digits_ones.
      apply andb_true_intro. split; apply Nat.ltb_lt; lia. }
    destruct d; cbn [Limited.scan_once]; now rewrite Hhit. }
  rewrite Hv. reflexivity.
Qed.

Lemma ascii_repeat b k : (Byte.to_N b <? 128) = true -> ascii (repeat b k).
Proof.
  intros Hb. apply Forall_forall. intros c Hc.
  apply repeat_spec in Hc. now subst c.
Qed.

Lemma utf8_decode_nested k : utf8_decode (nested_bytes k) = Some (nested k).
Proof.
  unfold nested_bytes, nested. rewrite utf8_decode_ascii.
  - now rewrite map_app, map_repeat.
  - apply Forall_app. split; [repeat constructor | now apply ascii_repeat].
Qed.

Lemma utf8_decode_long_int k :
  utf8_decode (long_int_bytes k) = Some (long_int k).
Proof.
  unfold long_int_bytes, long_int. rewrite utf8_decode_ascii.
  - now rewrite !map_app, map_repeat.
  - apply Forall_app. split; [repeat constructor|].
    apply Forall_app. split; [now apply ascii_repeat | repeat constructor].
Qed.

Lemma trim_member v : trim (lit "{'a':" ++ v) = lit "{'a':" ++ v.
Proof. reflexivity. Qed.

(** C4, counterexample: a decode attempt that fails with another exception
    than [JSONDecodeError] is not caught.  On an object whose value is
    nested deeper than the recursion limit, and is not even complete, the
    decoder raises [RecursionError]; on an integer of more digits than [int]
    converts it raises [ValueError]; both leave the generator. *)
Lemma C4_limit_exceptions_leave :
  Limited.parse_json_stream (Limited.raw_decode default_limits)
                            [nested_bytes 1000]
  = [Read (nested_bytes 1000); Raise RecursionError] /\
  Limited.parse_json_stream (Limited.raw_decode default_limits)
                            [long_int_bytes 4301]
  = [Read (long_int_bytes 4301); Raise ValueError] /\
  (forall L k,
      (recursion_limit L <= k)%nat ->
      Limited.parse_json_stream (Limited.raw_decode L) [nested_bytes k]
      = [Read (nested_bytes k); Raise RecursionError]) /\
  (forall L k,
      (0 < recursion_limit L)%nat -> (0 < int_max_str_digits L < k)%nat ->
      Limited.parse_json_stream (Limited.raw_decode L) [long_int_bytes k]
      = [Read (long_int_bytes k); Raise ValueError]).
Proof.
  assert (Hdeep : forall L k,
             (recursion_limit L <= k)%nat ->
             Limited.parse_json_stream (Limited.raw_decode L) [nested_bytes k]
             = [Read (nested_bytes k); Raise RecursionError]).
  { intros L k Hk.
    apply (for_chunks_uncaught (Limited.raw_decode L) [] _ (nested k));
      [apply utf8_decode_nested | | discriminate].
    unfold nested. cbn [app]. rewrite trim_member.
    now apply raw_decode_nested. }
  assert (Hlong : forall L k,
             (0 < recursion_limit L)%nat ->
             (0 < int_max_str_digits L < k)%nat ->
             Limited.parse_json_stream (Limited.raw_decode L)
                                       [long_int_bytes k]
             = [Read (long_int_bytes k); Raise ValueError]).
  { intros L k Hd Hk.
    apply (for_chunks_uncaught (Limited.raw_decode L) [] _ (long_int k));
      [apply utf8_decode_long_int | | discriminate].
    unfold long_int. cbn [app]. rewrite trim_member.
    now apply raw_decode_long_int. }
  split; [|split; [|split; assumption]].
  - apply Hdeep. apply Nat.le_refl.
  - apply Hlong; unfold default_limits; cbn [recursion_limit int_max_str_digits].
    + apply Nat.lt_0_succ.
    + split; [apply Nat.lt_0_succ | apply Nat.lt_succ_diag_r].
Qed.

(** C4 (a failed parse is not destructive), as the code has it, for every
    decoder within the limits of the interpreter: when the decode at
    position 0 raises [JSONDecodeError], the loop stops with nothing yielded
    and the buffer as it was, and the generator goes on to the next chunk;
    the loop ends in no other way than on a decode that raises;
    [JSONDecodeError] never leaves the generator; a decode that raises
    another exception ends the run with that exception. *)
Theorem C4_failed_parse_is_caught
        (decode : str -> (pyobj * nat) + pyexn) (buffer : str) :
  within_limits decode ->
  decode buffer = inr JSONDecodeError ->
  Limited.loop decode buffer = ([], inl buffer) /\
  (forall b0 chunk text rest,
      utf8_decode chunk = Some text -> trim (b0 ++ text) = buffer ->
      Limited.for_chunks decode b0 (chunk :: rest)
      = Read chunk :: Limited.for_chunks decode buffer rest) /\
  (forall b,
      match snd (Limited.loop decode b) with
      | inl b' => decode b' = inr JSONDecodeError
      | inr e => e <> JSONDecodeError
      end) /\
  (forall chunks,
      ~ In (Raise JSONDecodeError) (Limited.parse_json_stream decode chunks)) /\
  (forall e b0 chunk text rest,
      utf8_decode chunk = Some text ->
      decode (trim (b0 ++ text)) = inr e ->
      e <> JSONDecodeError ->
      Limited.for_chunks decode b0 (chunk :: rest) = [Read chunk; Raise e]).
Proof.
  intros Hwithin Hd.
  assert (Hloop : Limited.loop decode buffer = ([], inl buffer)).
  { unfold Limited.loop. cbn [Limited.while_true]. now rewrite Hd. }
  split; [exact Hloop|]. split; [|split; [|split]].
  - intros b0 chunk text rest Hc Ht. cbn [Limited.for_chunks].
    rewrite Hc. unfold Limited.on_chunk. fold (trim (b0 ++ text)).
    rewrite Ht. fold (Limited.loop decode buffer). now rewrite Hloop.
  - intros b. apply limited_while_true_exit; [assumption | lia].
  - intros chunks. apply limited_for_chunks_raises.
  - intros e b0 chunk text rest Hc He Hne.
    now apply for_chunks_uncaught with (text := text).
Qed.

Lemma C4_failed_parse_is_caught_witness :
  Limited.raw_decode default_limits (lit "{'b':") = inr JSONDecodeError /\
  Limited.parse_json_stream (Limited.raw_decode default_limits)
                            [blit "{'b':"; blit "2}"]
  = [Read (blit "{'b':"); Read (blit "2}");
     Yield (PyDict [(lit "b", PyInt 2)]); Done].
Proof.
  assert (H : Limited.raw_decode default_limits (lit "{'b':")
              = inr JSONDecodeError) by (vm_compute; reflexivity).
  split; [exact H|].
  destruct (C4_failed_parse_is_caught
              _ _ (limited_raw_decode_within default_limits) H)
    as (_ & Hnext & _).
  unfold Limited.parse_json_stream.
  rewrite (Hnext [] (blit "{'b':") (lit "{'b':") [blit "2}"]);
    vm_compute; reflexivity.
Defined.

(** X18 (the limits of the interpreter): with a decoder that is within the
    limits, the run of the generator is the run with the decoder that has
    no limit, or it is the beginning of that run, cut short by
    [RecursionError] or [ValueError] leaving the generator. *)
Theorem X18_limits_cut_a_run_short
        (decode : str -> (pyobj * nat) + pyexn) (chunks : list bytes) :
  within_limits decode ->
  Limited.parse_json_stream decode chunks = parse_json_stream chunks \/
  exists pre post e,
    limit_exn e /\
    Limited.parse_json_stream decode chunks = pre ++ [Raise e] /\
    parse_json_stream chunks = pre ++ post.
Proof. intros H. now apply for_chunks_cut_short. Qed.

Lemma X18_limits_cut_a_run_short_witness :
  Limited.parse_json_stream (Limited.raw_decode default_limits)
                            [blit "{'a':1}"; nested_bytes 1000]
  = parse_json_stream [blit "{'a':1}"; nested_bytes 1000] \/
  exists pre post e,
    limit_exn e /\
    Limited.parse_json_stream (Limited.raw_decode default_limits)
                              [blit "{'a':1}"; nested_bytes 1000]
    = pre ++ [Raise e] /\
    parse_json_stream [blit "{'a':1}"; nested_bytes 1000] = pre ++ post.
Proof.
  apply (X18_limits_cut_a_run_short (Limited.raw_decode default_limits)).
  apply limited_raw_decode_within.
Defined.

(** ** Escapes *)







